(** * ParkSphere ingestion pipeline: a shallow embedding of the Python sources

    The development follows the layout of [server/ingest].  First comes the
    embedding, one module per script, of the functions the specification
    talks about; then, module by module, the properties established for them.

    Effects are explicit.  Python code that performs I/O is written in a
    state-and-exception monad [py] whose state survives a raised exception
    (a file written before the [raise] stays written), which is what
    [try]/[except] observes. *)

From stdpp Require Import base numbers list strings gmap.
From Stdlib Require Import ZArith QArith Qround Qabs Qminmax Lia Lqa.

Open Scope Z_scope.

(* ===================================================================== *)
(** * Python-style computations: state plus exceptions                    *)
(* ===================================================================== *)

Module Py.

(** The exception classes the scripts can meet. *)
Inductive exn : Type :=
| ConnectionError                 (* requests.get could not get an answer  *)
| HTTPError (status : Z)          (* response.raise_for_status()           *)
| ChunkedEncodingError            (* body stream cut short                 *)
| JSONDecodeError                 (* response.json() on a non-JSON body    *)
| KeyError (key : string)         (* d[key] on a missing key               *)
| IndexError                      (* xs[0] on an empty sequence            *)
| TypeError                       (* indexing / comparing the wrong type   *)
| AttributeError                  (* .get on something that is no dict     *)
| UnidentifiedImageError          (* PIL.Image.open on a non image         *)
| OSError                         (* file system                           *)
| SqliteError.                    (* sqlite3.Error and its subclasses      *)

Definition py (S A : Type) : Type := S -> (exn + A) * S.

Definition ret {S A} (a : A) : py S A := fun s => (inr a, s).

Definition raise {S A} (e : exn) : py S A := fun s => (inl e, s).

Definition bind {S A B} (m : py S A) (k : A -> py S B) : py S B :=
  fun s => match m s with
           | (inr a, s') => k a s'
           | (inl e, s') => (inl e, s')
           end.

(** [try: body except Exception as e: handler e] *)
Definition try_except {S A} (body : py S A) (handler : exn -> py S A) : py S A :=
  fun s => match body s with
           | (inr a, s') => (inr a, s')
           | (inl e, s') => handler e s'
           end.

Definition modify {S} (f : S -> S) : py S unit := fun s => (inr tt, f s).
Definition lift_opt {S A} (e : exn) (o : option A) : py S A :=
  match o with Some a => ret a | None => raise e end.

(** [for x in xs: body x], stopping at the first exception. *)
Fixpoint for_each {S A} (xs : list A) (body : A -> py S unit) : py S unit :=
  match xs with
  | [] => ret tt
  | x :: rest => bind (body x) (fun _ => for_each rest body)
  end.

(** [ys = []; for x in xs: ys.append(f x)], stopping at the first exception. *)
Fixpoint map_py {S A B} (f : A -> py S B) (xs : list A) : py S (list B) :=
  match xs with
  | [] => ret []
  | x :: rest =>
      bind (f x) (fun y => bind (map_py f rest) (fun ys => ret (y :: ys)))
  end.

(** A loop that carries a value from one round to the next. *)
Fixpoint fold_py {S A B} (f : B -> A -> py S B) (xs : list A) (acc : B) : py S B :=
  match xs with
  | [] => ret acc
  | x :: rest => bind (f acc x) (fold_py f rest)
  end.

Module Notations.
Declare Scope py_scope.
Delimit Scope py_scope with py.
Notation "x <- m ;; k" := (bind m (fun x => k))
  (at level 100, m at next level, right associativity) : py_scope.
Notation "m ;;; k" := (bind m (fun _ => k))
  (at level 100, right associativity) : py_scope.
End Notations.

End Py.

Import Py Py.Notations.

(** Raw bytes of a payload or of a file. *)
Abbreviation bytes := (list Byte.byte).

(* ===================================================================== *)
(** * The network and the texture directory, as the download scripts see them *)
(* ===================================================================== *)

Module Download.

(** What the network answers to one [requests.get].  [Http status chunks cut]
    is a response whose body arrives as [chunks]; when [cut] holds the stream
    breaks after the last of them and [iter_content] raises. *)
Inductive reply : Type :=
| NoAnswer
| Http (status : Z) (chunks : list bytes) (cut : bool).

(** What an observer of the process sees. *)
Inductive event : Type :=
| EvGet (url : string) (attempt : nat)
| EvSleep (seconds : Z).

(** The world of the download scripts: the answers the network will give,
    in order, the texture directory, and the events so far. *)
Record world : Type := World {
  pending : list reply;
  fs : gmap string bytes;
  trace : list event
}.

Definition emit (e : event) (w : world) : world :=
  World (pending w) (fs w) (trace w ++ [e]).

Definition write_file (path : string) (data : bytes) (w : world) : world :=
  World (pending w) (<[path := data]> (fs w)) (trace w).

Definition append_file (path : string) (data : bytes) (w : world) : world :=
  World (pending w) (<[path := default [] (fs w !! path) ++ data]> (fs w)) (trace w).

(** [time.sleep(seconds)] *)
Definition sleep (seconds : Z) : py world unit := modify (emit (EvSleep seconds)).

(** The [response] object of a request that was answered. *)
Record response : Type := Response {
  status_code : Z;
  body_chunks : list bytes;
  body_cut : bool
}.

(** [response.content]: the whole body. *)
Definition content (r : response) : bytes := concat (body_chunks r).

(** [requests.get(url, ...)]: takes the next answer of the network; with no
    answer left the network is down and the call raises. *)
Definition requests_get (url : string) (attempt : nat) : py world response :=
  fun w =>
    let w1 := emit (EvGet url attempt) w in
    match pending w1 with
    | [] => (inl ConnectionError, w1)
    | NoAnswer :: rest => (inl ConnectionError, World rest (fs w1) (trace w1))
    | Http st chunks cut :: rest =>
        (inr (Response st chunks cut), World rest (fs w1) (trace w1))
    end.

End Download.

(* ===================================================================== *)
(** * fetch_hq_earth_textures.py                                          *)
(* ===================================================================== *)

Module FetchHq.
Import Download.

(** [response.raise_for_status()] raises for 4xx and 5xx. *)
Definition raise_for_status (status : Z) : py world unit :=
  if (400 <=? status) && (status <? 600) then raise (HTTPError status) else ret tt.

(** [for chunk in response.iter_content(...): if chunk: f.write(chunk)] *)
Definition write_chunks (dest : string) (chunks : list bytes) (cut : bool) : py world unit :=
  (for_each chunks (fun chunk =>
     match chunk with
     | [] => ret tt
     | _ => modify (append_file dest chunk)
     end) ;;;
   if cut then raise ChunkedEncodingError else ret tt)%py.

(** The body of the [try] in [download_with_retry]. *)
Definition attempt_download (url dest : string) (attempt : nat) : py world bool :=
  (response <- requests_get url attempt ;;
   raise_for_status (status_code response) ;;;
   modify (write_file dest []) ;;;           (* open(dest_path, 'wb') *)
   write_chunks dest (body_chunks response) (body_cut response) ;;;
   ret true)%py.

(** [for attempt in range(max_retries)] of [download_with_retry]. *)
Fixpoint retry_loop (url dest : string) (max_retries : nat) (attempts : list nat)
  : py world bool :=
  match attempts with
  | [] => ret false
  | attempt :: rest =>
      fun w =>
        match attempt_download url dest attempt w with
        | (inr b, w1) => (inr b, w1)
        | (inl _, w1) =>
            ((if Z.of_nat attempt <? Z.of_nat max_retries - 1
              then sleep 2 else ret tt) ;;;
             retry_loop url dest max_retries rest)%py w1
        end
  end.

Definition download_with_retry (url dest : string) (max_retries : nat) : py world bool :=
  retry_loop url dest max_retries (seq 0 max_retries).

(** The inner loop of [main]: [for url in texture["urls"]]. *)
Fixpoint try_urls (urls : list string) (dest : string) (max_retries : nat)
  : py world bool :=
  match urls with
  | [] => ret false
  | url :: rest =>
      (ok <- download_with_retry url dest max_retries ;;
       if ok then ret true else try_urls rest dest max_retries)%py
  end.

(** [dest_path.exists() and os.path.getsize(dest_path) > 100000] *)
Definition good_size (dest : string) (w : world) : bool :=
  match fs w !! dest with
  | Some data => Z.of_nat (length data) >? 100000
  | None => false
  end.

(** One round of the outer loop of [main] for a texture: [None] when the
    file on disk is kept ([continue]), else the value of [success]. *)
Definition fetch_texture (dest : string) (urls : list string) : py world (option bool) :=
  fun w => if good_size dest w then (inr None, w)
           else (success <- try_urls urls dest 3 ;; ret (Some success))%py w.

End FetchHq.

(* ===================================================================== *)
(** * create_earth_textures.py: the download loop                         *)
(* ===================================================================== *)

Module CreateEarthTextures.
Import Download.

(** The body of the [try] for one url: without [stream=True] the body is read
    inside [requests.get], so a cut stream raises there. *)
Definition attempt_url (url dest : string) : py world bool :=
  (response <- requests_get url 0 ;;
   (if body_cut response then raise ChunkedEncodingError else ret tt) ;;;
   if status_code response =? 200
   then (modify (write_file dest (content response)) ;;; ret true)
   else ret false)%py.

(** [for url in urls: try: ... break  except Exception: print(...)] *)
Fixpoint download_first (urls : list string) (dest : string) : py world bool :=
  match urls with
  | [] => ret false
  | url :: rest =>
      (ok <- try_except (attempt_url url dest) (fun _ => ret false) ;;
       if ok then ret true else download_first rest dest)%py
  end.

End CreateEarthTextures.

(* ===================================================================== *)
(** * fix_textures.py: when a texture is regenerated                      *)
(* ===================================================================== *)

Module FixTextures.
Import Download.

(** [not path.exists() or os.path.getsize(path) < 10000] *)
Definition needs_creating (path : string) (w : world) : bool :=
  match fs w !! path with
  | Some data => Z.of_nat (length data) <? 10000
  | None => true
  end.

End FixTextures.

(* ===================================================================== *)
(** * Pillow: the size computed by [Image.thumbnail]                      *)
(* ===================================================================== *)

(** [Image.thumbnail(size, resample)] of Pillow (the scripts use
    [Image.Resampling], so Pillow 9.1 or later) resizes in place to the size
    chosen by its inner function [preserve_aspect_ratio].  That function is
    arithmetic on the two sizes only and is embedded here.  Pillow computes
    [aspect] and the products in binary floating point; the embedding uses
    exact rationals. *)

Module Pillow.

Open Scope Q_scope.

(** [min(a, b, key=key)]: the first of the two unless the second has a
    strictly smaller key. *)
Definition min_by (key : Z -> Q) (a b : Z) : Z :=
  if Qle_bool (key a) (key b) then a else b.

(** [round_aspect(number, key)] =
    [max(min(math.floor(number), math.ceil(number), key=key), 1)] *)
Definition round_aspect (number : Q) (key : Z -> Q) : Z :=
  Z.max (min_by key (Qfloor number) (Qceiling number)) 1.

(** [preserve_aspect_ratio()] for an image of [width] x [height] asked to fit
    [x] x [y]; [None] when the image already fits. *)
Definition preserve_aspect_ratio (width height x y : Z) : option (Z * Z) :=
  if ((width <=? x) && (height <=? y))%Z then None
  else
    let aspect := inject_Z width / inject_Z height in
    if Qle_bool aspect (inject_Z x / inject_Z y)
    then Some (round_aspect (inject_Z y * aspect)
                 (fun n => Qabs (aspect - inject_Z n / inject_Z y)),
               y)
    else Some (x,
               round_aspect (inject_Z x / aspect)
                 (fun n => if (n =? 0)%Z then 0
                           else Qabs (aspect - inject_Z x / inject_Z n))).

(** The size of the image after [thumbnail((x, y), ...)]. *)
Definition thumbnail_size (width height x y : Z) : Z * Z :=
  match preserve_aspect_ratio width height x y with
  | None => (width, height)
  | Some final_size => final_size
  end.

End Pillow.

(* ===================================================================== *)
(** * Per-pixel compositing: create_earth_textures.py (cloud alpha) and
      fix_textures.py (night lights)                                      *)
(* ===================================================================== *)

Module Compositing.

(** How NumPy types the sum of a [uint8] scalar and a Python [int].  Up to
    NumPy 1.x (value-based promotion) the result is an [int64]; from NumPy 2
    (NEP 50) the Python [int] adapts to the scalar, the result is a [uint8]
    and the sum wraps around.  The repository pins no version. *)
Inductive promotion : Type := ValueBased | Weak.

(** [clouds[cy, cx % width, 3] + n] for [n] within [0, 255]. *)
Definition uint8_plus_int (p : promotion) (a n : Z) : Z :=
  match p with
  | ValueBased => a + n
  | Weak => (a + n) mod 256
  end.

(** [int(q)]: truncation towards zero. *)
Definition py_int (q : Q) : Z :=
  if Qle_bool 0 q then Qfloor q else Qceiling q.

(** [alpha = int((1 - dist) * 255)] of a cloud blob, for [dist < 1]. *)
Definition blob_alpha (dist : Q) : Z := py_int ((1 - dist) * 255)%Q.

(** The new alpha of [clouds[cy, cx % width] = [255, 255, 255,
    min(255, clouds[cy, cx % width, 3] + alpha // 2)]]. *)
Definition cloud_alpha (p : promotion) (old alpha : Z) : Z :=
  Z.min 255 (uint8_plus_int p old (alpha / 2)).

(** The alpha of a pixel after the blobs that cover it, in drawing order. *)
Definition cloud_alpha_after (p : promotion) (alphas : list Z) : Z :=
  foldl (cloud_alpha p) 0 alphas.

(** [np.clip(v, 0, 255)] on a float *)
Definition clip (v : Q) : Q := Qmin (Qmax v 0) 255.

Section NightLights.

(** Rounding of binary floating point to the nearest representable number:
    [fl q] is the float that an operation of exact result [q] returns. *)
Variable fl : Q -> Q.

(** One channel of
    [night[ny, nx] = np.clip(night[ny, nx] + [intensity*2, intensity*1.5,
    intensity*0.5], 0, 255)]: the stored [uint8] is promoted to a float, the
    contribution of the city is added, the sum is clipped and stored back as
    [uint8], which truncates. *)
Definition night_channel (old : Z) (contribution : Q) : Z :=
  py_int (clip (fl (inject_Z old + contribution))).

(** The three channels of a pixel for a city of the given [intensity]. *)
Definition night_pixel (old : Z * Z * Z) (intensity : Q) : Z * Z * Z :=
  (night_channel old.1.1 (fl (intensity * 2)),
   night_channel old.1.2 (fl (intensity * (3 # 2))),
   night_channel old.2 (fl (intensity * (1 # 2)))).

End NightLights.

End Compositing.

(* ===================================================================== *)
(** * The procedural synthesizers and NumPy's global generator            *)
(* ===================================================================== *)

(** [np.random] keeps one generator state for the whole process.  A routine
    that draws from it is a function of the state it finds, and leaves
    another state behind; [np.random.seed(n)] replaces the state.  The
    generator itself (Mersenne Twister) and the floating-point functions are
    NumPy's; the routines are embedded over any implementation of them, with
    floats taken as exact rationals.

    [fetch_earth_textures_final.py] is left out: its lines 80-104 leave
    [np.clip(] unclosed, Python rejects the module, and none of it runs. *)
Class Numpy : Type := {
  rng_state : Type;
  (** the state installed by [np.random.seed(n)] *)
  seeded : Z -> rng_state;
  (** [np.random.normal(loc, scale)] *)
  normal : Q -> Q -> rng_state -> Q * rng_state;
  (** [np.random.uniform(low, high)] *)
  uniform : Q -> Q -> rng_state -> Q * rng_state;
  (** [np.random.randint(low, high)] *)
  randint : Z -> Z -> rng_state -> Z * rng_state;
  (** [np.sqrt] *)
  np_sqrt : Q -> Q
}.

Module Synth.
Import Compositing.

(** [range(a, b)] *)
Definition py_range (a b : Z) : list Z :=
  map (fun i => a + Z.of_nat i) (seq 0 (Z.to_nat (b - a))).

(** An array indexed by [(row, column)]. *)
Definition raster (pixel : Type) : Type := Z * Z -> pixel.

Definition set_pixel {pixel} (img : raster pixel) (at_ : Z * Z) (v : pixel) : raster pixel :=
  fun p => if decide (p = at_) then v else img p.

Definition rgb : Type := Z * Z * Z.
Definition rgba : Type := Z * Z * Z * Z.

Definition square (q : Q) : Q := (q * q)%Q.

Definition Qlt_bool (a b : Q) : bool := negb (Qle_bool b a).

Section WithNumpy.
Context `{Numpy}.

(** A loop whose body draws from the generator. *)
Fixpoint loop {A B} (body : B -> A -> rng_state -> B * rng_state) (xs : list A)
    (acc : B) (s : rng_state) : B * rng_state :=
  match xs with
  | [] => (acc, s)
  | x :: rest => let '(acc', s') := body acc x s in loop body rest acc' s'
  end.

(** ** create_earth_textures.py: the cloud layer (lines 84-115) *)

(** The body of the two inner loops for the pixel [(cy, cx)] of a blob. *)
Definition paint_cloud (p : promotion) (width x y size_x size_y : Z)
    (clouds : raster rgba) (cy cx : Z) : raster rgba :=
  let dist := np_sqrt (square (inject_Z (cx - x) / inject_Z size_x)
                       + square (inject_Z (cy - y) / inject_Z size_y))%Q in
  if Qlt_bool dist 1 then
    let alpha := blob_alpha dist in
    set_pixel clouds (cy, cx mod width)
      (255, 255, 255, cloud_alpha p (clouds (cy, cx mod width)).2 alpha)
  else clouds.

(** One round of [for _ in range(100)]. *)
Definition draw_blob (p : promotion) (width height : Z) (clouds : raster rgba)
    (round : nat) (s : rng_state) : raster rgba * rng_state :=
  let '(lat, s1) := normal 0 30 s in
  let '(lon, s2) := uniform (-180) 180 s1 in
  let y := py_int ((90 - lat) / 180 * inject_Z height)%Q in
  let x := py_int ((lon + 180) / 360 * inject_Z width)%Q in
  let '(size_x, s3) := randint 50 150 s2 in
  let '(size_y, s4) := randint 30 80 s3 in
  let y_start := Z.max 0 (y - size_y) in
  let y_end := Z.min height (y + size_y) in
  let x_start := Z.max 0 (x - size_x) in
  let x_end := Z.min width (x + size_x) in
  (foldl (fun img cy =>
            foldl (fun img' cx => paint_cloud p width x y size_x size_y img' cy cx)
                  img (py_range x_start x_end))
         clouds (py_range y_start y_end),
   s4).

(** The cloud array of [create_earth_textures], from the generator state
    found at the call. *)
Definition create_clouds (p : promotion) (width height : Z) (s : rng_state)
  : raster rgba * rng_state :=
  loop (draw_blob p width height) (seq 0 100)
       (fun _ => (0, 0, 0, 0))
       (seeded 42).                              (* np.random.seed(42) *)

End WithNumpy.

End Synth.

(* ===================================================================== *)
(** * JSON values as Python sees them                                     *)
(* ===================================================================== *)

Module Json.

(** The result of [response.json()]. *)
#[warnings="-register-all"]
Inductive json : Type :=
| JNull
| JBool (b : bool)
| JInt (n : Z)
| JFloat (q : Q)
| JStr (s : string)
| JArr (items : list json)
| JObj (fields : list (string * json)).

Fixpoint assoc (key : string) (fields : list (string * json)) : option json :=
  match fields with
  | [] => None
  | (k, v) :: rest => if String.eqb k key then Some v else assoc key rest
  end.

(** [d.get(key, default)] *)
Definition dict_get (key : string) (fallback : json) (d : json) : exn + json :=
  match d with
  | JObj fields => inr (default fallback (assoc key fields))
  | _ => inl AttributeError
  end.

(** [d[key]] for a string key *)
Definition getitem (key : string) (d : json) : exn + json :=
  match d with
  | JObj fields => match assoc key fields with
                   | Some v => inr v
                   | None => inl (KeyError key)
                   end
  | _ => inl TypeError
  end.

(** [xs[0]] *)
Definition first_item (xs : json) : exn + json :=
  match xs with
  | JArr (x :: _) => inr x
  | JStr (String c _) => inr (JStr (String c EmptyString))
  | JArr [] | JStr EmptyString => inl IndexError
  | JObj _ => inl (KeyError "0")
  | _ => inl TypeError
  end.

(** Truth value of [if x:] *)
Definition truthy (j : json) : bool :=
  match j with
  | JNull => false
  | JBool b => b
  | JInt n => negb (n =? 0)%Z
  | JFloat q => negb (Qeq_bool q 0)
  | JStr s => negb (String.eqb s "")
  | JArr items => match items with [] => false | _ => true end
  | JObj fields => match fields with [] => false | _ => true end
  end.

(** [len(x)] *)
Definition py_len (j : json) : exn + Z :=
  match j with
  | JStr s => inr (Z.of_nat (String.length s))
  | JArr items => inr (Z.of_nat (length items))
  | JObj fields => inr (Z.of_nat (length fields))
  | _ => inl TypeError
  end.

(** [x > 0] *)
Definition gt_zero (j : json) : exn + bool :=
  match j with
  | JBool b => inr b
  | JInt n => inr (0 <? n)%Z
  | JFloat q => inr (negb (Qle_bool q 0))
  | _ => inl TypeError
  end.

(** Python's [xs[:count]] on a list: a negative count drops from the end. *)
Definition slice_to {A} (count : Z) (xs : list A) : list A :=
  if (0 <=? count)%Z then take (Z.to_nat count) xs
  else take (length xs - Z.to_nat (- count)) xs.

Fixpoint chars (s : string) : list json :=
  match s with
  | EmptyString => []
  | String c rest => JStr (String c EmptyString) :: chars rest
  end.

(** The elements visited by [for x in j[:count]]. *)
Definition iter_slice (count : Z) (j : json) : exn + list json :=
  match j with
  | JArr items => inr (slice_to count items)
  | JStr s => inr (slice_to count (chars s))
  | _ => inl TypeError
  end.

(** The elements visited by [for x in j]. *)
Definition iter_all (j : json) : exn + list json :=
  match j with
  | JArr items => inr items
  | JStr s => inr (chars s)
  | JObj fields => inr (map (fun kv => JStr kv.1) fields)
  | _ => inl TypeError
  end.

(** [j[:count]] as a value. *)
Definition slice_json (count : Z) (j : json) : exn + json :=
  match j with
  | JArr items => inr (JArr (slice_to count items))
  | JStr s => inr (JStr (String.substring 0 (length (slice_to count (chars s))) s))
  | _ => inl TypeError
  end.

End Json.

(* ===================================================================== *)
(** * External libraries the ingestion scripts call                       *)
(* ===================================================================== *)

(** Pixel data, codecs, digests and string conversions are not part of the
    repository; the scripts are embedded over any implementation of them. *)
Class Lib : Type := {
  raster : Type;
  (** [Image.open(BytesIO(data))]: size and pixels, [None] if undecodable *)
  image_open : bytes -> option (Z * Z * raster);
  (** pixels after a LANCZOS resize from one size to another *)
  resample : Z * Z -> raster -> Z * Z -> raster;
  (** [img.save(..., "JPEG", quality=q)]: the encoded bytes, [None] when
      Pillow cannot write the image as JPEG and raises *)
  save_jpeg : Z * Z -> raster -> Z -> option bytes;
  (** [base64.b64encode(data).decode()] *)
  b64encode : bytes -> string;
  (** [hashlib.md5(s.encode()).hexdigest()[:8]] *)
  md5_hexdigest8 : string -> string;
  (** [str(x)] as used by f-strings *)
  str_of_json : Json.json -> string;
  str_of_int : Z -> string;
  str_of_float : Q -> string;
  (** [json.dumps(x)] *)
  json_dumps : Json.json -> string
}.

(* ===================================================================== *)
(** * The SQLite catalog                                                  *)
(* ===================================================================== *)

Module Sqlite.
Import Json.

Inductive sql_value : Type :=
| SqlNull
| SqlInt (n : Z)
| SqlReal (q : Q)
| SqlText (s : string).

(** How [sqlite3] binds a Python value to a [?]; lists and dicts are not
    supported and make [execute] raise. *)
Definition bind_param (j : json) : exn + sql_value :=
  match j with
  | JNull => inr SqlNull
  | JBool b => inr (SqlInt (if b then 1 else 0))
  | JInt n => inr (SqlInt n)
  | JFloat q => inr (SqlReal q)
  | JStr s => inr (SqlText s)
  | JArr _ | JObj _ => inl SqliteError
  end.

(** A row of [parks]: [id INTEGER PRIMARY KEY], [code]/[nps_code] [UNIQUE]. *)
Record park_row : Type := ParkRow {
  p_id : Z;
  p_code : string;
  p_name : string;
  p_country : option string;
  p_summary : sql_value;
  p_lat : Q;
  p_lon : Q;
  p_biome : string;
  p_established : Z;
  p_area_acres : Z;
  p_activities : string;
  p_climate : sql_value;
  p_nasa_validated : option bool;
  p_updated_at : Z
}.

(** A row of [images], without its [AUTOINCREMENT] id (its position). *)
Record image_row : Type := ImageRow {
  i_park_id : Z;
  i_type : string;
  i_url : sql_value;
  i_local_path : option string;
  i_blur_hash : sql_value;
  i_width : sql_value;
  i_height : sql_value;
  i_attribution : string;
  i_source : option string;
  i_created_at : Z
}.

Record database : Type := Database {
  parks : gmap Z park_row;
  images : list image_row
}.

Definition empty_database : database := Database ∅ [].

Inductive stmt : Type :=
| InsertOrReplacePark (row : park_row)
| InsertImage (row : image_row).

(** [INSERT OR REPLACE INTO parks]: rows in conflict with the new one, on the
    primary key or on the unique code, are deleted, then the row is inserted.
    [INSERT INTO images]: the row is appended; the table has no uniqueness
    constraint besides its own id. *)
Definition exec (db : database) (s : stmt) : database :=
  match s with
  | InsertOrReplacePark row =>
      Database
        (<[p_id row := row]>
           (filter (fun kv => p_code kv.2 <> p_code row) (parks db)))
        (images db)
  | InsertImage row => Database (parks db) (images db ++ [row])
  end.

Definition exec_all (db : database) (txn : list stmt) : database :=
  foldl exec db txn.

(** The image rows a transaction inserts. *)
Definition image_rows (txn : list stmt) : list image_row :=
  omap (fun s => match s with InsertImage row => Some row | _ => None end) txn.

End Sqlite.

(* ===================================================================== *)
(** * The world of the ingestion scripts                                  *)
(* ===================================================================== *)

Module Ingest.
Import Json Sqlite.

Inductive provider : Type := Unsplash | Nps | Nasa | ImageHost.

#[global] Instance provider_eq_dec : EqDecision provider.
Proof. solve_decision. Defined.

Record http_response : Type := HttpResponse {
  status_code : Z;
  content_type : option string;     (* response.headers.get("content-type") *)
  content : bytes;                  (* response.content                     *)
  json_body : option json           (* response.json(), None: not JSON      *)
}.

(** What the network does with one request: how long it takes (ms) and
    whether an answer comes back ([None]: the call raises, as for a refused
    connection or a timeout). *)
Record net_reply : Type := NetReply {
  latency : nat;
  answer : option http_response
}.

Record call : Type := Call {
  call_provider : provider;
  call_url : string;
  call_time : Z
}.

(** The state the scripts act on.  [clock] is wall-clock time in
    milliseconds; [disk] is the committed content of the database file and
    [commits] the transactions committed so far, oldest first; [db_faults]
    tells, for each coming statement or commit, whether SQLite fails on it
    (disk full, database locked). *)
Record world : Type := World {
  clock : Z;
  pending : list net_reply;
  db_faults : list bool;
  disk : database;
  commits : list (list stmt);
  files : gmap string bytes;
  calls : list call;
  api_calls : gmap string Z         (* self.api_calls of WorldParksFetcher *)
}.

Definition advance (ms : Z) (w : world) : world :=
  World (clock w + ms) (pending w) (db_faults w) (disk w) (commits w) (files w)
        (calls w) (api_calls w).

Definition log_call (p : provider) (url : string) (w : world) : world :=
  World (clock w) (pending w) (db_faults w) (disk w) (commits w) (files w)
        (calls w ++ [Call p url (clock w)]) (api_calls w).

Definition set_pending (l : list net_reply) (w : world) : world :=
  World (clock w) l (db_faults w) (disk w) (commits w) (files w) (calls w) (api_calls w).

Definition set_db_faults (l : list bool) (w : world) : world :=
  World (clock w) (pending w) l (disk w) (commits w) (files w) (calls w) (api_calls w).

Definition write_file (path : string) (data : bytes) (w : world) : world :=
  World (clock w) (pending w) (db_faults w) (disk w) (commits w)
        (<[path := data]> (files w)) (calls w) (api_calls w).

Definition commit_txn (txn : list stmt) (w : world) : world :=
  World (clock w) (pending w) (db_faults w) (exec_all (disk w) txn)
        (commits w ++ [txn]) (files w) (calls w) (api_calls w).

(** [self.api_calls[key] += n] *)
Definition count_api_calls (key : string) (n : Z) (w : world) : world :=
  World (clock w) (pending w) (db_faults w) (disk w) (commits w) (files w) (calls w)
        (<[key := default 0 (api_calls w !! key) + n]> (api_calls w)).

(** [time.sleep(seconds)] *)
Definition sleep (seconds : Z) : py world unit := modify (advance (1000 * seconds)).

(** [datetime.now()] *)
Definition now : py world Z := fun w => (inr (clock w), w).

(** [requests.get(url, ...)] to a provider: the call is logged with its
    start time, the clock advances by the latency of the reply. *)
Definition requests_get (p : provider) (url : string) : py world http_response :=
  fun w =>
    let w1 := log_call p url w in
    match pending w1 with
    | [] => (inl ConnectionError, w1)
    | reply :: rest =>
        let w2 := advance (Z.of_nat (latency reply)) (set_pending rest w1) in
        match answer reply with
        | Some r => (inr r, w2)
        | None => (inl ConnectionError, w2)
        end
    end.

Definition raise_for_status (r : http_response) : py world unit :=
  if (400 <=? status_code r) && (status_code r <? 600)
  then raise (HTTPError (status_code r)) else ret tt.

(** [response.json()] *)
Definition response_json (r : http_response) : py world json :=
  lift_opt JSONDecodeError (json_body r).

(** A pure step that may raise. *)
Definition lift {A} (r : exn + A) : py world A :=
  match r with inr a => ret a | inl e => raise e end.

(** Whether SQLite fails on the coming operation. *)
Definition db_fault : py world unit :=
  fun w => match db_faults w with
           | true :: rest => (inl SqliteError, set_db_faults rest w)
           | false :: rest => (inr tt, set_db_faults rest w)
           | [] => (inr tt, w)
           end.

(** [cursor.execute(...)]: the statement joins the open transaction. *)
Definition execute (txn : list stmt) (s : stmt) : py world (list stmt) :=
  (db_fault ;;; ret (txn ++ [s]))%py.

(** [conn.commit()]: the open transaction reaches the file, all at once. *)
Definition commit (txn : list stmt) : py world unit :=
  (db_fault ;;; modify (commit_txn txn))%py.

(** A park as read from the CSV seed file. *)
Record park : Type := Park {
  id : Z;
  code : string;
  name : string;
  country : string;
  latitude : Q;
  longitude : Q;
  biome : string;
  established : Z;
  area_acres : Z;
  summary : string
}.

(** A photo as the Unsplash fetchers build it. *)
Record photo : Type := Photo {
  ph_url : json;
  ph_thumb_url : json;
  ph_width : json;
  ph_height : json;
  ph_attribution : string;
  ph_blur_hash : json
}.

End Ingest.

(* ===================================================================== *)
(** * fetch_assets_mvp.py                                                 *)
(* ===================================================================== *)

Module FetchAssetsMvp.
Import Json Sqlite Ingest.

Section WithLib.
Context `{Lib}.

(** [RATE_LIMIT_DELAY = 72  # seconds between requests] *)
Definition RATE_LIMIT_DELAY : Z := 72.

Definition output_dir : string := "public/z/assets".

(** One element of [photos] in [fetch_unsplash_photos]. *)
Definition unsplash_photo (item : json) : py world photo :=
  (urls <- lift (getitem "urls" item) ;;
   regular <- lift (getitem "regular" urls) ;;
   thumb <- lift (getitem "thumb" urls) ;;
   width <- lift (getitem "width" item) ;;
   height <- lift (getitem "height" item) ;;
   user <- lift (getitem "user" item) ;;
   user_name <- lift (getitem "name" user) ;;
   blur <- lift (dict_get "blur_hash" (JStr "") item) ;;
   ret (Photo regular thumb width height
          ("Photo by " +:+ str_of_json user_name +:+ " on Unsplash") blur))%py.

Definition fetch_unsplash_photos (park_name : string) (count : Z) : py world (list photo) :=
  try_except
    (response <- requests_get Unsplash "https://api.unsplash.com/search/photos" ;;
     raise_for_status response ;;;
     data <- response_json response ;;
     results <- lift (dict_get "results" (JArr []) data) ;;
     items <- lift (iter_slice count results) ;;
     map_py unsplash_photo items)%py
    (fun _ => ret []).

(** The dictionary returned by [fetch_nps_data]. *)
Record nps_data : Type := NpsData {
  full_name : json;
  description : json;
  weather_info : json;
  directions_info : json;
  activities : list json;
  topics : list json;
  nps_images : json
}.

Definition fetch_nps_data (park_code : string) : py world (option nps_data) :=
  try_except
    (response <- requests_get Nps "https://developer.nps.gov/api/v1/parks" ;;
     raise_for_status response ;;;
     data <- response_json response ;;
     found <- lift (dict_get "data" JNull data) ;;
     if truthy found then
       rows <- lift (getitem "data" data) ;;
       park_data <- lift (first_item rows) ;;
       fname <- lift (dict_get "fullName" (JStr "") park_data) ;;
       descr <- lift (dict_get "description" (JStr "") park_data) ;;
       weather <- lift (dict_get "weatherInfo" (JStr "") park_data) ;;
       directions <- lift (dict_get "directionsInfo" (JStr "") park_data) ;;
       acts <- lift (dict_get "activities" (JArr []) park_data) ;;
       act_items <- lift (iter_all acts) ;;
       act_names <- map_py (fun act => lift (getitem "name" act)) act_items ;;
       tops <- lift (dict_get "topics" (JArr []) park_data) ;;
       top_items <- lift (iter_all tops) ;;
       top_names <- map_py (fun topic => lift (getitem "name" topic)) top_items ;;
       imgs <- lift (dict_get "images" (JArr []) park_data) ;;
       imgs3 <- lift (slice_json 3 imgs) ;;
       ret (Some (NpsData fname descr weather directions act_names top_names imgs3))
     else ret None)%py
    (fun _ => ret None).

Definition fetch_nasa_satellite_image (lat lon : Q) : py world (option (bytes * string)) :=
  try_except
    (response <- requests_get Nasa "https://api.nasa.gov/planetary/earth/imagery" ;;
     raise_for_status response ;;;
     if String.prefix "image/" (default "" (content_type response))
     then ret (Some (content response, default "image/png" (content_type response)))
     else ret None)%py
    (fun _ => ret None).

(** [img.copy()] followed by [thumbnail(box, LANCZOS)]: the new size is
    Pillow's; the pixels are resampled unless the size is unchanged. *)
Definition thumbnail (size : Z * Z) (pixels : raster) (box : Z * Z) : (Z * Z) * raster :=
  let final_size := Pillow.thumbnail_size size.1 size.2 box.1 box.2 in
  (final_size,
   if decide (final_size = size) then pixels else resample size pixels final_size).

(** The [sizes] dictionary, in insertion order. *)
Definition sizes : list (string * (Z * Z)) :=
  [("original", (1920, 1080)); ("medium", (800, 600)); ("thumb", (400, 300))].

(** The dictionary returned by [download_and_process_image]. *)
Record processed : Type := Processed {
  filename : string;
  blur_hash : string;
  width : Z;
  height : Z
}.

Definition image_filename (url : string) (park_id : Z) (image_type : string) : string :=
  "park_" +:+ str_of_int park_id +:+ "_" +:+ image_type +:+ "_"
  +:+ md5_hexdigest8 url +:+ ".jpg".

(** The tiny version behind [blur_hash]. *)
Definition tiny_version (size : Z * Z) (pixels : raster) : (Z * Z) * raster :=
  thumbnail size pixels (20, 20).

(** [blur_hash]: the tiny version saved at quality 20, in base64, behind the
    prefix of an inline image; [None] when the save raises. *)
Definition blur_placeholder (size : Z * Z) (pixels : raster) : option string :=
  let tiny := tiny_version size pixels in
  (fun data => "data:image/jpeg;base64," +:+ b64encode data)
    <$> save_jpeg tiny.1 tiny.2 20.

Definition download_and_process_image (url : json) (park_id : Z) (image_type : string)
  : py world (option processed) :=
  try_except
    (u <- match url with JStr s => ret s | _ => raise TypeError end ;;
     response <- requests_get ImageHost u ;;
     raise_for_status response ;;;
     img <- lift_opt UnidentifiedImageError (image_open (content response)) ;;
     let size := img.1 in
     let pixels := img.2 in
     let fname := image_filename u park_id image_type in
     for_each sizes (fun entry =>
       let resized := thumbnail size pixels entry.2 in
       data <- lift_opt OSError (save_jpeg resized.1 resized.2 85) ;;
       modify (write_file (output_dir +:+ "/" +:+ entry.1 +:+ "_" +:+ fname) data)) ;;;
     blur <- lift_opt OSError (blur_placeholder size pixels) ;;
     ret (Some (Processed fname blur size.1 size.2)))%py
    (fun _ => ret None).

(** The [INSERT OR REPLACE INTO parks] of [save_park_data]. *)
Definition park_statement (p : park) (nps : option nps_data) (t : Z) : py world stmt :=
  (summary_v <- lift (bind_param (match nps with
                                  | Some d => description d
                                  | None => JStr (summary p)
                                  end)) ;;
   climate_v <- lift (bind_param (match nps with
                                  | Some d => weather_info d
                                  | None => JStr ""
                                  end)) ;;
   ret (InsertOrReplacePark
          (ParkRow (id p) (code p) (name p) None summary_v
             (latitude p) (longitude p) (biome p) (established p) (area_acres p)
             (match nps with
              | Some d => json_dumps (JArr (activities d))
              | None => "[]"
              end)
             climate_v None t)))%py.

(** One round of [for photo in unsplash_photos]. *)
Definition save_photo (park_id : Z) (txn : list stmt) (ph : photo) : py world (list stmt) :=
  (done <- download_and_process_image (ph_url ph) park_id "photo" ;;
   match done with
   | Some pr =>
       t <- now ;;
       url_v <- lift (bind_param (ph_url ph)) ;;
       execute txn
         (InsertImage
            (ImageRow park_id "photo" url_v (Some (filename pr))
               (SqlText (blur_hash pr)) (SqlInt (width pr)) (SqlInt (height pr))
               (ph_attribution ph) None t))
   | None => ret txn
   end)%py.

Definition save_park_data (p : park) (unsplash_photos : list photo)
    (nps : option nps_data) (satellite_data : option (bytes * string)) : py world unit :=
  (t <- now ;;
   upsert <- park_statement p nps t ;;
   txn <- execute [] upsert ;;
   txn' <- fold_py (save_photo (id p)) unsplash_photos txn ;;
   commit txn')%py.

(** [self.parks[:limit] if limit else self.parks] *)
Definition parks_to_process (all_parks : list park) (limit : option Z) : list park :=
  match limit with
  | Some l => if (l =? 0)%Z then all_parks else slice_to l all_parks
  | None => all_parks
  end.

(** The body of the loop of [fetch_all_assets]. *)
Definition process_park (p : park) : py world unit :=
  (photos <- fetch_unsplash_photos (name p) 5 ;;
   sleep RATE_LIMIT_DELAY ;;;
   nps <- fetch_nps_data (code p) ;;
   sleep RATE_LIMIT_DELAY ;;;
   satellite <- fetch_nasa_satellite_image (latitude p) (longitude p) ;;
   sleep RATE_LIMIT_DELAY ;;;
   save_park_data p photos nps satellite)%py.

Definition fetch_all_assets (all_parks : list park) (limit : option Z) : py world unit :=
  for_each (parks_to_process all_parks limit) process_park.

End WithLib.

End FetchAssetsMvp.

(* ===================================================================== *)
(** * fetch_world_parks_data.py                                           *)
(* ===================================================================== *)

Module FetchWorldParks.
Import Json Sqlite Ingest.

Section WithLib.
Context `{Lib}.

(** [RATE_LIMIT_DELAY = 2  # seconds between API calls] *)
Definition RATE_LIMIT_DELAY : Z := 2.

Definition output_dir : string := "public/z/assets".

Definition save_nasa_image (image_data : bytes) (lat lon : Q) : py world string :=
  let filename := "nasa_sat_" +:+ str_of_float lat +:+ "_" +:+ str_of_float lon +:+ ".jpg" in
  (modify (write_file (output_dir +:+ "/" +:+ filename) image_data) ;;;
   ret ("/assets/" +:+ filename))%py.

Definition is_image (r : http_response) : bool :=
  String.prefix "image/" (default "" (content_type r)).

(** The statements of the [try] of [validate_location_with_nasa] up to the
    first [return]; [None] stands for falling out of the two [if]s. *)
Definition nasa_image_lookup (lat lon : Q) : py world (option string) :=
  (response <- requests_get Nasa "https://api.nasa.gov/planetary/earth/assets" ;;
   if status_code response =? 200 then
     data <- response_json response ;;
     count <- lift (dict_get "count" (JInt 0) data) ;;
     positive <- lift (gt_zero count) ;;
     if positive : bool then
       img_response <- requests_get Nasa "https://api.nasa.gov/planetary/earth/imagery" ;;
       if (status_code img_response =? 200) && is_image img_response then
         modify (count_api_calls "nasa" 2) ;;;
         path <- save_nasa_image (content img_response) lat lon ;;
         ret (Some path)
       else ret None
     else ret None
   else ret None)%py.

Definition validate_location_with_nasa (lat lon : Q) : py world (bool * option string) :=
  try_except
    (found <- nasa_image_lookup lat lon ;;
     match found with
     | Some path => ret (true, Some path)
     | None =>
         modify (count_api_calls "nasa" 1) ;;;
         ret (true, None)           (* Location is valid but no image available *)
     end)%py
    (fun _ => ret (false, None)).

(** An element of the list returned by [fetch_nps_images]. *)
Record nps_image : Type := NpsImage {
  ni_url : json;
  ni_title : json;
  ni_caption : json;
  ni_attribution : string
}.

Definition nps_image_of (img : json) : py world nps_image :=
  (url <- lift (dict_get "url" (JStr "") img) ;;
   title <- lift (dict_get "title" (JStr "") img) ;;
   caption <- lift (dict_get "caption" (JStr "") img) ;;
   credit <- lift (dict_get "credit" JNull img) ;;
   suffix <- (if truthy credit then
                match credit with
                | JStr s => ret (": " +:+ s)
                | _ => raise TypeError        (* ': ' + non-string *)
                end
              else ret "") ;;
   ret (NpsImage url title caption ("NPS Photo" +:+ suffix)))%py.

Definition fetch_nps_images (park_code : string) : py world (list nps_image) :=
  try_except
    (response <- requests_get Nps "https://developer.nps.gov/api/v1/parks" ;;
     raise_for_status response ;;;
     data <- response_json response ;;
     found <- lift (dict_get "data" JNull data) ;;
     images <- (if truthy found then
                  rows <- lift (getitem "data" data) ;;
                  n <- lift (py_len rows) ;;
                  if 0 <? n then
                    park_data <- lift (first_item rows) ;;
                    imgs <- lift (dict_get "images" (JArr []) park_data) ;;
                    items <- lift (iter_slice 5 imgs) ;;
                    map_py nps_image_of items
                  else ret []
                else ret []) ;;
     modify (count_api_calls "nps" 1) ;;;
     ret images)%py
    (fun _ => ret []).

Definition unsplash_photo (item : json) : py world photo :=
  (urls <- lift (getitem "urls" item) ;;
   regular <- lift (getitem "regular" urls) ;;
   raw <- lift (dict_get "raw" regular urls) ;;
   photo_url <- match raw with           (* photo_url += "?w=1920&..." *)
                | JStr s => ret (JStr (s +:+ "?w=1920&h=1080&fit=crop&q=80"))
                | JArr items => ret (JArr (items ++ chars "?w=1920&h=1080&fit=crop&q=80"))
                | _ => raise TypeError
                end ;;
   thumb <- lift (getitem "thumb" urls) ;;
   width <- lift (getitem "width" item) ;;
   height <- lift (getitem "height" item) ;;
   user <- lift (getitem "user" item) ;;
   user_name <- lift (getitem "name" user) ;;
   blur <- lift (dict_get "blur_hash" (JStr "") item) ;;
   ret (Photo photo_url thumb width height
          ("Photo by " +:+ str_of_json user_name +:+ " on Unsplash") blur))%py.

Definition fetch_unsplash_photos (park_name country : string) (count : Z)
  : py world (list photo) :=
  try_except
    (response <- requests_get Unsplash "https://api.unsplash.com/search/photos" ;;
     raise_for_status response ;;;
     data <- response_json response ;;
     results <- lift (dict_get "results" (JArr []) data) ;;
     items <- lift (iter_slice count results) ;;
     photos <- map_py unsplash_photo items ;;
     modify (count_api_calls "unsplash" 1) ;;;
     ret photos)%py
    (fun _ => ret []).

Definition default_blur : string := "data:image/jpeg;base64,/9j/4AAQSkZJRgABAQAAAQ==".

Definition generate_blur_hash (image_url : json) : py world string :=
  try_except
    (u <- match image_url with JStr s => ret s | _ => raise TypeError end ;;
     response <- requests_get ImageHost u ;;
     img <- lift_opt UnidentifiedImageError (image_open (content response)) ;;
     lift_opt OSError (FetchAssetsMvp.blur_placeholder img.1 img.2))%py
    (fun _ => ret default_blur).

Definition park_statement (p : park) (nasa_validated : bool) (t : Z) : stmt :=
  InsertOrReplacePark
    (ParkRow (id p) (code p) (name p) (Some (country p)) (SqlText (summary p))
       (latitude p) (longitude p) (biome p) (established p) (area_acres p)
       (json_dumps (JArr [JStr "Hiking"; JStr "Wildlife Viewing"; JStr "Photography";
                          JStr "Nature Walks"; JStr "Scenic Drives"]))
       (SqlText "Varies by season") (Some nasa_validated) t).

(** One round of [for img in nps_images]. *)
Definition save_nps_image (park_id : Z) (txn : list stmt) (img : nps_image)
  : py world (list stmt) :=
  (blur <- generate_blur_hash (ni_url img) ;;
   t <- now ;;
   url_v <- lift (bind_param (ni_url img)) ;;
   execute txn
     (InsertImage (ImageRow park_id "nps" url_v None (SqlText blur) SqlNull SqlNull
                     (ni_attribution img) (Some "nps") t)))%py.

(** One round of [for photo in unsplash_photos]. *)
Definition save_unsplash_photo (park_id : Z) (txn : list stmt) (ph : photo)
  : py world (list stmt) :=
  (t <- now ;;
   url_v <- lift (bind_param (ph_url ph)) ;;
   blur_v <- lift (bind_param (ph_blur_hash ph)) ;;
   width_v <- lift (bind_param (ph_width ph)) ;;
   height_v <- lift (bind_param (ph_height ph)) ;;
   execute txn
     (InsertImage (ImageRow park_id "photo" url_v None blur_v width_v height_v
                     (ph_attribution ph) (Some "unsplash") t)))%py.

Definition save_satellite (park_id : Z) (txn : list stmt) (satellite_url : option string)
  : py world (list stmt) :=
  match satellite_url with
  | Some url =>
      if String.eqb url "" then ret txn
      else (t <- now ;;
            execute txn
              (InsertImage (ImageRow park_id "satellite" (SqlText url) None SqlNull
                              SqlNull SqlNull "NASA Earth Observatory" (Some "nasa") t)))%py
  | None => ret txn
  end.

Definition save_park_data (p : park) (nps_images : list nps_image)
    (unsplash_photos : list photo) (nasa_validated : bool)
    (satellite_url : option string) : py world unit :=
  (t <- now ;;
   txn0 <- execute [] (park_statement p nasa_validated t) ;;
   txn1 <- fold_py (save_nps_image (id p)) nps_images txn0 ;;
   txn2 <- fold_py (save_unsplash_photo (id p)) unsplash_photos txn1 ;;
   txn3 <- save_satellite (id p) txn2 satellite_url ;;
   commit txn3)%py.

(** [nps_code_map.get(park['code'], park['code'])] *)
Definition nps_code_of (park_code : string) : string :=
  if String.eqb park_code "yellowstone" then "yell"
  else if String.eqb park_code "grand-canyon" then "grca"
  else if String.eqb park_code "yosemite" then "yose"
  else if String.eqb park_code "denali" then "dena"
  else park_code.

(** The body of the loop of [fetch_all_parks_data]. *)
Definition process_park (p : park) : py world unit :=
  (validated <- validate_location_with_nasa (latitude p) (longitude p) ;;
   sleep RATE_LIMIT_DELAY ;;;
   nps_images <- (if String.eqb (country p) "United States" then
                    imgs <- fetch_nps_images (nps_code_of (code p)) ;;
                    sleep RATE_LIMIT_DELAY ;;;
                    ret imgs
                  else ret []) ;;
   let photo_count := Z.max 1 (5 - Z.of_nat (length nps_images)) in
   unsplash_photos <- fetch_unsplash_photos (name p) (country p) photo_count ;;
   sleep RATE_LIMIT_DELAY ;;;
   save_park_data p nps_images unsplash_photos validated.1 validated.2)%py.

Definition fetch_all_parks_data (all_parks : list park) (limit : option Z) : py world unit :=
  for_each (FetchAssetsMvp.parks_to_process all_parks limit) process_park.

End WithLib.

End FetchWorldParks.

(* ===================================================================== *)
(** * Concrete data to run the scripts on                                 *)
(* ===================================================================== *)

Module Examples.
Import Json Sqlite Ingest.

(** A stand-in for the external libraries: every non-empty payload decodes
    to a 4000 x 3000 image, encoders give fixed outputs. *)
Definition toy_lib : Lib := {|
  raster := unit;
  image_open := fun data => match data with [] => None | _ => Some (4000, 3000, tt) end;
  resample := fun _ _ _ => tt;
  save_jpeg := fun _ _ _ => Some [Byte.xff; Byte.xd8];
  b64encode := fun _ => "/9g=";
  md5_hexdigest8 := fun _ => "0a1b2c3d";
  str_of_json := fun j => match j with JStr s => s | _ => "?" end;
  str_of_int := fun _ => "1";
  str_of_float := fun _ => "0.0";
  json_dumps := fun _ => "[]"
|}.

Definition yosemite : park :=
  Park 1 "yose" "Yosemite" "United States" (377 # 10) (-1195 # 10)
       "temperate_forest" 1890 759620 "Granite cliffs and giant sequoias".

Definition serengeti : park :=
  Park 2 "serengeti" "Serengeti" "Tanzania" (-23 # 10) (348 # 10)
       "savanna" 1951 3648000 "Endless plains".

Definition json_reply (ms : nat) (status : Z) (j : json) : net_reply :=
  NetReply ms (Some (HttpResponse status (Some "application/json") [] (Some j))).

Definition no_answer : net_reply := NetReply 100 None.

Definition photo_json : json :=
  JObj [("urls", JObj [("raw", JStr "https://images.unsplash.com/photo-1");
                       ("regular", JStr "https://images.unsplash.com/photo-1?w=1080");
                       ("thumb", JStr "https://images.unsplash.com/photo-1?w=200")]);
        ("width", JInt 4000); ("height", JInt 3000);
        ("user", JObj [("name", JStr "Ada")]);
        ("blur_hash", JStr "L65Yk")].

Definition unsplash_one_photo : net_reply :=
  json_reply 120 200 (JObj [("results", JArr [photo_json])]).

Definition nasa_not_found : net_reply :=
  NetReply 80 (Some (HttpResponse 404 None [] None)).

Definition nasa_no_assets : net_reply := json_reply 150 200 (JObj [("count", JInt 0)]).

Definition nasa_one_asset : net_reply := json_reply 150 200 (JObj [("count", JInt 1)]).

Definition nasa_image : net_reply :=
  NetReply 300 (Some (HttpResponse 200 (Some "image/png") [Byte.x89; Byte.x50] None)).

Definition image_download : net_reply :=
  NetReply 200 (Some (HttpResponse 200 (Some "image/jpeg") [Byte.xff; Byte.xd8] None)).

(** NPS answering with a description that is an object, not a string. *)
Definition nps_structured_description : net_reply :=
  json_reply 90 200
    (JObj [("data", JArr [JObj [("fullName", JStr "Yosemite National Park");
                                ("description", JObj [("html", JStr "<p>Granite</p>")])]])]).

(** An empty catalog at time 0 facing the given answers of the network. *)
Definition fresh (replies : list net_reply) : world :=
  World 0 replies [] empty_database [] ∅ [] ∅.

(** A generator that reads its draws from a tape: the state is the list of
    the coming standard draws. *)
Definition tape_numpy : Numpy := {|
  rng_state := list Q;
  seeded := fun _ => [];
  normal := fun loc scale s =>
              match s with
              | q :: rest => ((loc + scale * q)%Q, rest)
              | [] => (loc, [])
              end;
  uniform := fun low high s =>
               match s with
               | q :: rest => ((low + (high - low) * q)%Q, rest)
               | [] => (low, [])
               end;
  randint := fun low high s =>
               match s with
               | q :: rest => ((low + Qfloor (inject_Z (high - low) * q))%Z, rest)
               | [] => (low, [])
               end;
  np_sqrt := fun q => q
|}.

End Examples.
(* ===================================================================== *)
(** * ingest_parks_quick.py                                               *)
(* ===================================================================== *)

Module IngestParksQuick.
Import Json Sqlite Ingest.

(** An entry of [nature_photos]. *)
Record mock_photo : Type := MockPhoto {
  mp_url : string;
  mp_attribution : string;
  mp_blur_hash : string
}.

Definition nature_photos : list mock_photo :=
  [MockPhoto "https://images.unsplash.com/photo-1506905925346-21bda4d32df4"
             "Photo by Samuel Ferrara on Unsplash" "L65Yk?D%00M{_3xuRjWB_3ofRjj[";
   MockPhoto "https://images.unsplash.com/photo-1511884642898-4c92249e20b6"
             "Photo by Holly Mandarich on Unsplash" "LKO2:N%2Tw=w]~RBVZRi};RPxuwH";
   MockPhoto "https://images.unsplash.com/photo-1469474968028-56623f02e42e"
             "Photo by David Marcu on Unsplash" "L15Yk?D%00M{_3xuRjWB_3ofRjj[";
   MockPhoto "https://images.unsplash.com/photo-1426604966848-d7adac402bff"
             "Photo by John Towner on Unsplash" "L65Yk?D%00M{_3xuRjWB_3ofRjj[";
   MockPhoto "https://images.unsplash.com/photo-1447752875215-b2761acb3c5d"
             "Photo by Tim Stief on Unsplash" "L15Yk?D%00M{_3xuRjWB_3ofRjj["].

(** [xs[idx]] on a list: a negative index counts from the end, an index
    outside the list raises. *)
Definition list_index {A} (xs : list A) (idx : Z) : exn + A :=
  let i := if idx <? 0 then idx + Z.of_nat (length xs) else idx in
  if i <? 0 then inl IndexError
  else match xs !! Z.to_nat i with
       | Some x => inr x
       | None => inl IndexError
       end.

(** [photo = nature_photos[idx].copy(); photo['url'] = photo['url'] + ...] *)
Definition sized (photo : mock_photo) : mock_photo :=
  MockPhoto (mp_url photo +:+ "?w=1920&h=1080&fit=crop")
            (mp_attribution photo) (mp_blur_hash photo).

Definition get_mock_images (park_name : string) (park_id : Z)
  : py world (list mock_photo) :=
  let start_idx := (park_id - 1) mod Z.of_nat (length nature_photos) in
  map_py (fun i =>
            let idx := (start_idx + i) mod Z.of_nat (length nature_photos) in
            (photo <- lift (list_index nature_photos idx) ;;
             ret (sized photo))%py)
         (Synth.py_range 0 5).

(** [enumerate(xs)] *)
Definition enumerate {A} (xs : list A) : list (nat * A) :=
  zip (seq 0 (length xs)) xs.

Section WithLib.
Context `{Lib}.

(** [init_database]: two [CREATE TABLE IF NOT EXISTS] and a commit.  The
    tables are those of [database]; each of the three operations may fail. *)
Definition init_database : py world unit :=
  (db_fault ;;; db_fault ;;; db_fault)%py.

Definition park_statement (p : park) (t : Z) : stmt :=
  InsertOrReplacePark
    (ParkRow (id p) (code p) (name p) None (SqlText (summary p))
       (latitude p) (longitude p) (biome p) (established p) (area_acres p)
       (json_dumps (JArr [JStr "Hiking"; JStr "Wildlife Viewing"; JStr "Photography";
                          JStr "Camping"; JStr "Scenic Drives"]))
       (SqlText "Varies by season") None t).

Definition photo_statement (p : park) (i : nat) (img : mock_photo) (t : Z) : stmt :=
  InsertImage
    (ImageRow (id p) "photo" (SqlText (mp_url img))
       (Some ("park_" +:+ str_of_int (id p) +:+ "_photo_"
              +:+ str_of_int (Z.of_nat i) +:+ ".jpg"))
       (SqlText (mp_blur_hash img)) (SqlInt 1920) (SqlInt 1080)
       (mp_attribution img) None t).

Definition satellite_statement (p : park) (t : Z) : stmt :=
  InsertImage
    (ImageRow (id p) "satellite"
       (SqlText ("https://api.mapbox.com/styles/v1/mapbox/satellite-v9/static/"
                 +:+ str_of_float (longitude p) +:+ "," +:+ str_of_float (latitude p)
                 +:+ ",12,0/800x600?access_token=demo"))
       (Some ("park_" +:+ str_of_int (id p) +:+ "_satellite.jpg"))
       (SqlText "L02rMH~q00WB00ofRjWB00WB~qof") (SqlInt 800) (SqlInt 600)
       "Satellite imagery from Mapbox" None t).

(** One round of [for i, img in enumerate(images)]. *)
Definition insert_mock_image (p : park) (txn : list stmt) (entry : nat * mock_photo)
  : py world (list stmt) :=
  (t <- now ;; execute txn (photo_statement p entry.1 entry.2 t))%py.

(** One round of [for park in parks]; the transaction stays open. *)
Definition ingest_park (txn : list stmt) (p : park) : py world (list stmt) :=
  (t <- now ;;
   txn1 <- execute txn (park_statement p t) ;;
   images <- get_mock_images (name p) (id p) ;;
   txn2 <- fold_py (insert_mock_image p) (enumerate images) txn1 ;;
   t' <- now ;;
   execute txn2 (satellite_statement p t'))%py.

(** [ingest_all_parks], for the parks read from the CSV file: one commit,
    after the loop. *)
Definition ingest_all_parks (parks : list park) : py world unit :=
  (init_database ;;;
   txn <- fold_py ingest_park parks [] ;;
   commit txn)%py.

End WithLib.

End IngestParksQuick.
(* ===================================================================== *)
(** * fetch_earth_textures.py                                             *)
(* ===================================================================== *)

Module FetchEarthTextures.
Import Download.

(** [download_file]: no [try]; whatever goes wrong is raised to the caller.
    Every chunk is written as it arrives. *)
Definition download_file (url dest : string) : py world unit :=
  (response <- requests_get url 0 ;;
   FetchHq.raise_for_status (status_code response) ;;;
   modify (write_file dest []) ;;;           (* open(dest_path, 'wb') *)
   for_each (body_chunks response) (fun chunk => modify (append_file dest chunk)) ;;;
   if body_cut response then raise ChunkedEncodingError else ret tt)%py.

Definition textures : list (string * string) :=
  [("earth_day",
    "https://eoimages.gsfc.nasa.gov/images/imagerecords/74000/74343/world.200412.3x5400x2700.jpg");
   ("earth_night",
    "https://eoimages.gsfc.nasa.gov/images/imagerecords/55000/55167/earth_lights_lrg.jpg");
   ("earth_normal",
    "https://eoimages.gsfc.nasa.gov/images/imagerecords/73000/73909/gebco_08_rev_elev_5400x2700.png");
   ("earth_specular",
    "https://eoimages.gsfc.nasa.gov/images/imagerecords/73000/73909/gebco_08_rev_bath_3600x1800.png");
   ("earth_clouds",
    "https://eoimages.gsfc.nasa.gov/images/imagerecords/57000/57747/cloud_combined_3600.jpg")].

Definition fallback_textures : list (string * string) :=
  [("earth_day", "https://www.solarsystemscope.com/textures/download/2k_earth_daymap.jpg");
   ("earth_night", "https://www.solarsystemscope.com/textures/download/2k_earth_nightmap.jpg");
   ("earth_normal", "https://www.solarsystemscope.com/textures/download/2k_earth_normal_map.jpg");
   ("earth_specular", "https://www.solarsystemscope.com/textures/download/2k_earth_specular_map.jpg");
   ("earth_clouds", "https://www.solarsystemscope.com/textures/download/2k_earth_clouds.jpg")].

(** [d.get(name)] on a dictionary with string keys. *)
Fixpoint lookup_name (name : string) (d : list (string * string)) : option string :=
  match d with
  | [] => None
  | (k, v) :: rest => if String.eqb k name then Some v else lookup_name name rest
  end.

Definition output_dir : string := "../../client/public/textures".

(** [output_dir / f"{name}.jpg"], or [.png] for the normal map. *)
Definition dest_path (name : string) : string :=
  output_dir +:+ "/" +:+ name
  +:+ (if String.eqb name "earth_normal" then ".png" else ".jpg").

(** [dest_path.exists()] *)
Definition path_exists (path : string) (w : world) : bool :=
  match fs w !! path with Some _ => true | None => false end.

(** The body of [for name, url in textures.items()]. *)
Definition fetch_with_fallback (entry : string * string) : py world unit :=
  let dest := dest_path entry.1 in
  try_except
    (fun w => if path_exists dest w then ret tt w      (* already exists, skipping *)
              else download_file entry.2 dest w)
    (fun _ =>
       match lookup_name entry.1 fallback_textures with
       | Some url => try_except (download_file url dest) (fun _ => ret tt)
       | None => ret tt
       end).

Definition main : py world unit := for_each textures fetch_with_fallback.

End FetchEarthTextures.
(* ===================================================================== *)
(** * fix_textures.py                                                     *)
(* ===================================================================== *)

(** What the script asks of Pillow, besides the arrays it builds itself. *)
Class Imaging : Type := {
  (** [Image.open(path).format]; [None] when the file is no image and
      [Image.open] raises *)
  image_format : bytes -> option string;
  (** the bytes written by [img.convert('RGB').save(path, 'JPEG', quality=95)]
      for the image in a file; [None] when it cannot be decoded *)
  to_jpeg : bytes -> option bytes;
  (** the bytes written by [Image.fromarray(a).save(path, ...)] for an array
      of the given width and height, the format chosen by the path *)
  save_gray : Z -> Z -> Synth.raster Z -> string -> bytes;
  save_rgb : Z -> Z -> Synth.raster Synth.rgb -> string -> bytes;
  save_rgba : Z -> Z -> Synth.raster Synth.rgba -> string -> bytes
}.

Module FixTexturesRun.
Import Download Compositing Synth.

(** [int(size * fraction)], the fraction taken as an exact rational. *)
Definition frac (size : Z) (fraction : Q) : Z := py_int (inject_Z size * fraction).

(** [a[r0:r1, c0:c1] = f(a[r0:r1, c0:c1])], for bounds inside the array. *)
Definition update {pixel} (r0 r1 c0 c1 : Z) (f : pixel -> pixel) (img : raster pixel)
  : raster pixel :=
  fun at_ =>
    if (r0 <=? at_.1) && (at_.1 <? r1) && (c0 <=? at_.2) && (at_.2 <? c1)
    then f (img at_) else img at_.

(** [a[r0:r1, c0:c1] = v] *)
Definition fill {pixel} (r0 r1 c0 c1 : Z) (v : pixel) : raster pixel -> raster pixel :=
  update r0 r1 c0 c1 (fun _ => v).

(** [a[r0:r1, c0:c1, 2] = v] *)
Definition fill_blue (r0 r1 c0 c1 : Z) (v : Z) : raster rgb -> raster rgb :=
  update r0 r1 c0 c1 (fun px : rgb => (px.1.1, px.1.2, v)).

(** The normal map built inside [fix_textures]. *)
Definition normal_map (width height : Z) : raster rgb :=
  let normal : raster rgb := fun _ => (128, 128, 128) in
  (* Himalayas, Andes, Rockies, Alps *)
  let normal := fill_blue (frac height (35 # 100)) (frac height (4 # 10))
                          (frac width (6 # 10)) (frac width (7 # 10)) 200 normal in
  let normal := fill_blue (frac height (5 # 10)) (frac height (8 # 10))
                          (frac width (25 # 100)) (frac width (28 # 100)) 190 normal in
  let normal := fill_blue (frac height (3 # 10)) (frac height (45 # 100))
                          (frac width (15 # 100)) (frac width (2 # 10)) 180 normal in
  let normal := fill_blue (frac height (28 # 100)) (frac height (32 # 100))
                          (frac width (47 # 100)) (frac width (52 # 100)) 175 normal in
  (* Pacific, Atlantic *)
  let normal := fill_blue 0 height 0 (frac width (15 # 100)) 100 normal in
  let normal := fill_blue 0 height (frac width (8 # 10)) width 100 normal in
  fill_blue (frac height (2 # 10)) (frac height (8 # 10))
            (frac width (35 # 100)) (frac width (45 # 100)) 110 normal.

Definition create_specular_map (width height : Z) : raster Z :=
  let specular : raster Z := fun _ => 0 in
  (* Pacific *)
  let specular := fill 0 height 0 (frac width (15 # 100)) 255 specular in
  let specular := fill 0 height (frac width (8 # 10)) width 255 specular in
  (* Atlantic, Indian *)
  let specular := fill (frac height (2 # 10)) (frac height (8 # 10))
                       (frac width (35 # 100)) (frac width (45 # 100)) 255 specular in
  let specular := fill (frac height (4 # 10)) (frac height (8 # 10))
                       (frac width (55 # 100)) (frac width (7 # 10)) 255 specular in
  (* Arctic, Antarctic *)
  let specular := fill 0 (frac height (15 # 100)) 0 width 128 specular in
  fill (frac height (85 # 100)) height 0 width 128 specular.

(** [alpha = int((1 - dist) * 128)] *)
Definition blob_alpha (dist : Q) : Z := py_int ((1 - dist) * 128)%Q.

(** [min(255, clouds[y, x, 3] + alpha)] *)
Definition cloud_alpha (p : promotion) (old alpha : Z) : Z :=
  Z.min 255 (uint8_plus_int p old alpha).

(** The major cities of [create_night_map]: latitude and longitude as
    fractions of the height and the width, and brightness. *)
Definition cities : list (Q * Q * Z) :=
  [(35 # 100, 2 # 10, 80);      (* NYC *)
   (4 # 10, 25 # 100, 60);      (* Chicago *)
   (32 # 100, 18 # 100, 70);    (* LA *)
   (27 # 100, 48 # 100, 90);    (* London *)
   (25 # 100, 52 # 100, 80);    (* Paris *)
   (35 # 100, 75 # 100, 100);   (* Tokyo *)
   (4 # 10, 72 # 100, 90);      (* Beijing *)
   (45 # 100, 65 # 100, 70);    (* Delhi *)
   (75 # 100, 32 # 100, 60)].   (* Sao Paulo *)

Section WithNumpy.
Context `{Numpy}.

(** The body of the two inner loops of [create_clouds_map] for [(y, x)]. *)
Definition cloud_pixel (p : promotion) (cx cy w h : Z) (clouds : raster rgba) (y x : Z)
  : raster rgba :=
  let dist := np_sqrt (square (inject_Z (x - cx) / inject_Z w)
                       + square (inject_Z (y - cy) / inject_Z h))%Q in
  if Qlt_bool dist 1 then
    set_pixel clouds (y, x)
      (255, 255, 255, cloud_alpha p (clouds (y, x)).2 (blob_alpha dist))
  else clouds.

(** One round of [for _ in range(50)]. *)
Definition cloud_blob (p : promotion) (width height : Z) (clouds : raster rgba)
    (round : nat) (s : rng_state) : raster rgba * rng_state :=
  let '(cx, s1) := randint 0 width s in
  let '(cy, s2) := randint (frac height (2 # 10)) (frac height (8 # 10)) s1 in
  let '(w, s3) := randint 50 150 s2 in
  let '(h, s4) := randint 30 80 s3 in
  (foldl (fun img y =>
            foldl (fun img' x => cloud_pixel p cx cy w h img' y x)
                  img (py_range (Z.max 0 (cx - w)) (Z.min width (cx + w))))
         clouds (py_range (Z.max 0 (cy - h)) (Z.min height (cy + h))),
   s4).

Definition create_clouds_map (p : promotion) (width height : Z) (s : rng_state)
  : raster rgba * rng_state :=
  loop (cloud_blob p width height) (seq 0 50)
       (fun _ => (0, 0, 0, 0))
       (seeded 42).                              (* np.random.seed(42) *)

(** The body of the two inner loops of [create_night_map] for [(dy, dx)]. *)
Definition city_light (width height y x brightness : Z) (night : raster rgb) (dy dx : Z)
  : raster rgb :=
  let ny := y + dy in
  let nx := x + dx in
  if (0 <=? ny) && (ny <? height) && (0 <=? nx) && (nx <? width) then
    let dist := np_sqrt (inject_Z (dy * dy + dx * dx)) in
    if Qlt_bool dist 10 then
      let intensity := (inject_Z brightness * (1 - dist / 10))%Q in
      set_pixel night (ny, nx) (night_pixel (fun q => q) (night (ny, nx)) intensity)
    else night
  else night.

Definition create_night_map (width height : Z) : raster rgb :=
  foldl (fun night (city : Q * Q * Z) =>
           let y := frac height city.1.1 in
           let x := frac width city.1.2 in
           foldl (fun img dy =>
                    foldl (fun img' dx => city_light width height y x city.2 img' dy dx)
                          img (py_range (-10) 11))
                 night (py_range (-10) 11))
        (fun _ => (0, 0, 0)) cities.

Section WithImaging.
Context `{Imaging}.
Context (p : promotion) (rng : rng_state).

(** How [fix_textures] can end before its last line. *)
Inductive failure : Type :=
| NameError (name : string)       (* a variable read before it is assigned *)
| Raised (e : exn).

Definition output_dir : string := "../../client/public/textures".

Definition texture_path (name : string) : string := output_dir +:+ "/" +:+ name.

(** "Convert PNG to JPG if needed". *)
Definition convert_day (w : world) : (failure + unit) * world :=
  match fs w !! texture_path "earth_day.jpg" with
  | Some data =>
      match image_format data with
      | None => (inl (Raised UnidentifiedImageError), w)
      | Some format =>
          if String.eqb format "PNG" then
            match to_jpeg data with
            | Some jpeg => (inr tt, write_file (texture_path "earth_day.jpg") jpeg w)
            | None => (inl (Raised OSError), w)
            end
          else (inr tt, w)
      end
  | None => (inr tt, w)
  end.

(** "Create earth_normal.jpg if missing".  [width] and [height] are
    assigned inside this [if] and nowhere else: the result tells whether they
    are bound afterwards. *)
Definition fix_normal (w : world) : option (Z * Z) * world :=
  if FixTextures.needs_creating (texture_path "earth_normal.jpg") w then
    let width := 2048 in
    let height := 1024 in
    (Some (width, height),
     write_file (texture_path "earth_normal.jpg")
       (save_rgb width height (normal_map width height) (texture_path "earth_normal.jpg"))
       w)
  else (None, w).

(** The [textures] dictionary, in insertion order: what each [creator()]
    followed by [img.save(path)] writes, given [width] and [height]. *)
Definition textures : list (string * (Z -> Z -> string -> bytes)) :=
  [("earth_specular.jpg",
    fun width height path => save_gray width height (create_specular_map width height) path);
   ("earth_clouds.png",
    fun width height path =>
      save_rgba width height (create_clouds_map p width height rng).1 path);
   ("earth_night.jpg",
    fun width height path => save_rgb width height (create_night_map width height) path)].

(** One round of [for name, creator in textures.items()]: the lambda reads
    [width] first. *)
Definition ensure (dims : option (Z * Z)) (entry : string * (Z -> Z -> string -> bytes))
    (w : world) : (failure + unit) * world :=
  let path := texture_path entry.1 in
  if FixTextures.needs_creating path w then
    match dims with
    | None => (inl (NameError "width"), w)
    | Some (width, height) => (inr tt, write_file path (entry.2 width height path) w)
    end
  else (inr tt, w).

Fixpoint ensure_all (dims : option (Z * Z))
    (entries : list (string * (Z -> Z -> string -> bytes))) (w : world)
  : (failure + unit) * world :=
  match entries with
  | [] => (inr tt, w)
  | entry :: rest =>
      match ensure dims entry w with
      | (inl f, w') => (inl f, w')
      | (inr _, w') => ensure_all dims rest w'
      end
  end.

Definition fix_textures (w : world) : (failure + unit) * world :=
  match convert_day w with
  | (inl f, w1) => (inl f, w1)
  | (inr _, w1) =>
      let '(dims, w2) := fix_normal w1 in
      ensure_all dims textures w2
  end.

End WithImaging.

End WithNumpy.

End FixTexturesRun.
(* ===================================================================== *)
(** * create_earth_textures.py: the night texture made when none is found *)
(* ===================================================================== *)

Module CreateEarthTexturesNight.
Import Compositing Synth.

(** Storing a float in a [uint8] array: the fraction is dropped and the
    integer is kept modulo 256. *)
Definition astype_uint8 (q : Q) : Z := py_int q mod 256.

(** [cities]: latitude and longitude as fractions, and brightness. *)
Definition cities : list (Q * Q * Z) :=
  [(35 # 100, 2 # 10, 60);      (* NYC *)
   (4 # 10, 25 # 100, 50);      (* Chicago *)
   (27 # 100, 48 # 100, 70);    (* London *)
   (25 # 100, 52 # 100, 60);    (* Paris *)
   (35 # 100, 75 # 100, 80);    (* Tokyo *)
   (4 # 10, 72 # 100, 70);      (* Beijing *)
   (75 # 100, 32 # 100, 50)].   (* Sao Paulo *)

Section WithNumpy.
Context `{Numpy}.

(** [[intensity * 2, intensity * 1.5, intensity * 0.5]] as stored. *)
Definition light_colour (intensity : Q) : rgb :=
  (astype_uint8 (intensity * 2), astype_uint8 (intensity * (3 # 2)),
   astype_uint8 (intensity * (1 # 2))).

(** The body of the two inner loops for [(dy, dx)]: the pixel is assigned,
    not added to, and nothing is clipped. *)
Definition city_light (width height y x brightness : Z) (night : raster rgb) (dy dx : Z)
  : raster rgb :=
  let ny := y + dy in
  let nx := x + dx in
  if (0 <=? ny) && (ny <? height) && (0 <=? nx) && (nx <? width) then
    let dist := np_sqrt (inject_Z (dy * dy + dx * dx)) in
    if Qlt_bool dist 5 then
      let intensity := (inject_Z brightness * (1 - dist / 5))%Q in
      set_pixel night (ny, nx) (light_colour intensity)
    else night
  else night.

Definition city_lights (width height : Z) (night : raster rgb) (city : Q * Q * Z)
  : raster rgb :=
  let y := FixTexturesRun.frac height city.1.1 in
  let x := FixTexturesRun.frac width city.1.2 in
  foldl (fun img dy =>
           foldl (fun img' dx => city_light width height y x city.2 img' dy dx)
                 img (py_range (-5) 6))
        night (py_range (-5) 6).

(** The [night] array of [create_earth_textures] (2048 x 1024). *)
Definition night_lights : raster rgb :=
  foldl (city_lights 2048 1024) (fun _ => (0, 0, 0)) cities.

End WithNumpy.

End CreateEarthTexturesNight.

(* ===================================================================== *)
(** * fetch_earth_textures_v2.py: the generated script                    *)
(* ===================================================================== *)

(** [main] writes the text of [procedural_script] (lines 65-137) to
    [generate_earth_textures.py] and runs it with [python] in a process of
    its own, which starts with whatever state NumPy gives its generator.  The
    script is embedded as a function of that state; it builds four arrays. *)
Module GenerateEarthTextures.
Import Compositing Synth.

(** [width, height = 2048, 1024] *)
Definition width : Z := 2048.
Definition height : Z := 1024.

(** [day_texture] before the noise: the ocean, then the six continents. *)
Definition flat_day : raster rgb :=
  let day_texture : raster rgb := fun _ => (70, 130, 180) in
  let day_texture := FixTexturesRun.fill 350 700 900 1150 (139, 90, 43) day_texture in
  let day_texture := FixTexturesRun.fill 200 350 900 1100 (139, 90, 43) day_texture in
  let day_texture := FixTexturesRun.fill 200 500 1100 1600 (139, 90, 43) day_texture in
  let day_texture := FixTexturesRun.fill 200 500 200 600 (139, 90, 43) day_texture in
  let day_texture := FixTexturesRun.fill 500 800 300 500 (139, 90, 43) day_texture in
  FixTexturesRun.fill 600 750 1400 1600 (139, 90, 43) day_texture.

(** [np.clip(v, 0, 255).astype(np.uint8)] on a float *)
Definition clip_to_uint8 (v : Q) : Z := CreateEarthTexturesNight.astype_uint8 (clip v).

(** [specular_texture[water_mask] = 255] with
    [water_mask = (day_texture[:, :, 0] < 100) & (day_texture[:, :, 1] > 100)] *)
Definition specular_texture (day_texture : raster rgb) : raster Z :=
  fun at_ =>
    if ((day_texture at_).1.1 <? 100) && (100 <? (day_texture at_).1.2) then 255 else 0.

(** The four arrays the script saves. *)
Record layers : Type := Layers {
  day : raster rgb;
  night : raster rgb;
  specular : raster Z;
  clouds : raster rgba
}.

Section WithNumpy.
Context `{Numpy}.

(** The generator after [n] draws of [np.random.normal(0, 10)]. *)
Definition after_normals (n : N) (s : rng_state) : rng_state :=
  N.iter n (fun s' => (normal 0 10 s').2) s.

(** [noise = np.random.normal(0, 10, (height, width, 3))]: the array is
    filled in row-major order, one draw for each element. *)
Definition noise (s : rng_state) (y x c : Z) : Q :=
  (normal 0 10 (after_normals (Z.to_N ((y * width + x) * 3 + c)) s)).1.

(** [day_texture = np.clip(day_texture + noise, 0, 255).astype(np.uint8)],
    with the generator in the state the process started with. *)
Definition day_texture (s : rng_state) : raster rgb :=
  fun at_ =>
    let px := flat_day at_ in
    (clip_to_uint8 (inject_Z px.1.1 + noise s at_.1 at_.2 0),
     clip_to_uint8 (inject_Z px.1.2 + noise s at_.1 at_.2 1),
     clip_to_uint8 (inject_Z px.2 + noise s at_.1 at_.2 2)).

(** One round of [for _ in range(5000)]. *)
Definition city_light (day_texture : raster rgb) (night_texture : raster rgb)
    (round : nat) (s : rng_state) : raster rgb * rng_state :=
  let '(x, s1) := randint 0 width s in
  let '(y, s2) := randint 0 height s1 in
  (if 100 <? (day_texture (y, x)).1.1
   then set_pixel night_texture (y, x) (255, 200, 100)
   else night_texture,
   s2).

(** The night array, and the generator after it. *)
Definition night_texture (day_texture : raster rgb) : raster rgb * rng_state :=
  loop (city_light day_texture) (seq 0 5000)
       (fun _ => (0, 0, 0))
       (seeded 42).                              (* np.random.seed(42) *)

(** One round of [for _ in range(100)]: a disc of radius [radius] around
    [(cy, cx)], cut at the borders of the array. *)
Definition cloud_disc (cloud_texture : raster rgba) (round : nat) (s : rng_state)
  : raster rgba * rng_state :=
  let '(cx, s1) := randint 0 width s in
  let '(cy, s2) := randint 0 height s1 in
  let '(radius, s3) := randint 50 200 s2 in
  (fun at_ =>
     let y := at_.1 - cy in
     let x := at_.2 - cx in
     if (0 <=? at_.1) && (at_.1 <? height) && (0 <=? at_.2) && (at_.2 <? width)
        && (x * x + y * y <=? radius * radius)
     then (255, 255, 255, 128)
     else cloud_texture at_,
   s3).

(** The whole script, from the state [s] the process started with: the four
    arrays and the generator at the end. *)
Definition generate (s : rng_state) : layers * rng_state :=
  let day_array := day_texture s in
  let '(night_array, s1) := night_texture day_array in
  let specular_array := specular_texture day_array in
  let '(cloud_array, s2) := loop cloud_disc (seq 0 100) (fun _ => (0, 0, 0, 0)) s1 in
  (Layers day_array night_array specular_array cloud_array, s2).

End WithNumpy.

End GenerateEarthTextures.

(* ===================================================================== *)
(** * Facts: retry and fallback of the texture downloads                  *)
(* ===================================================================== *)

Module FetchHqFacts.
Import Download FetchHq.

(** ** What the fallback chain is allowed to do

    The events of one attempt: the request, and the pause that follows it
    when it fails and is not the last one of the budget. *)
Definition failed_attempt (max_retries : nat) (url : string) (attempt : nat) : list event :=
  EvGet url attempt ::
  (if (attempt + 1 <? max_retries)%nat then [EvSleep 2] else []).

(** One candidate: either attempt [k] succeeds after [k] failed ones, with
    [k] within the budget, or all [max_retries] attempts fail. *)
Inductive candidate_run (max_retries : nat) (url : string) : bool -> list event -> Prop :=
| candidate_success (k : nat) :
    (k < max_retries)%nat ->
    candidate_run max_retries url true
      (flat_map (failed_attempt max_retries url) (seq 0 k) ++ [EvGet url k])
| candidate_exhausted :
    candidate_run max_retries url false
      (flat_map (failed_attempt max_retries url) (seq 0 max_retries)).

(** The chain: candidates in order, the next one only after the previous one
    is exhausted, none after a success. *)
Inductive chain_run (max_retries : nat) : list string -> bool -> list event -> Prop :=
| chain_none : chain_run max_retries [] false []
| chain_hit url rest tr :
    candidate_run max_retries url true tr ->
    chain_run max_retries (url :: rest) true tr
| chain_next url rest ok tr tr' :
    candidate_run max_retries url false tr ->
    chain_run max_retries rest ok tr' ->
    chain_run max_retries (url :: rest) ok (tr ++ tr').

(** The pauses of a trace, and the schedule 2s, 4s, 8s, ... *)
Definition delays (tr : list event) : list Z :=
  omap (fun e => match e with EvSleep s => Some s | EvGet _ _ => None end) tr.

Definition exponential_backoff (ds : list Z) : Prop :=
  forall (i : nat) (d : Z), ds !! i = Some d -> d = 2 ^ (Z.of_nat i + 1).

Definition requests (tr : list event) : list (string * nat) :=
  omap (fun e => match e with EvGet u a => Some (u, a) | EvSleep _ => None end) tr.

(** ** The file operations leave network and trace alone *)

Lemma write_chunks_loop dest chunks w :
  exists w',
    for_each chunks (fun chunk => match chunk with
                                  | [] => ret tt
                                  | _ => modify (append_file dest chunk)
                                  end) w = (inr tt, w')
    /\ pending w' = pending w /\ trace w' = trace w
    /\ (forall acc, fs w !! dest = Some acc ->
                    fs w' !! dest = Some (acc ++ concat chunks)).
Proof.
  revert w. induction chunks as [|c cs IH]; intros w.
  - exists w. cbn. repeat split; auto. intros acc H. by rewrite app_nil_r.
  - cbn [for_each]. unfold bind at 1.
    destruct c as [|b c].
    + cbn. destruct (IH w) as (w' & E & P & T & F). exists w'. repeat split; auto.
    + cbn [modify].
      destruct (IH (append_file dest (b :: c) w)) as (w' & E & P & T & F).
      exists w'. repeat split; auto.
      intros acc H. cbn [concat]. rewrite app_assoc. apply F.
      unfold append_file; cbn. rewrite lookup_insert_eq, H. reflexivity.
Qed.

(** One attempt: exactly one request; it succeeds, leaving the whole body in
    the destination file, exactly when the network answers with a status
    outside 4xx/5xx and the stream is not cut. *)
Lemma attempt_download_spec url dest attempt w :
  exists r w',
    attempt_download url dest attempt w = (r, w')
    /\ trace w' = trace w ++ [EvGet url attempt]
    /\ pending w' = tail (pending w)
    /\ match head (pending w) with
       | Some (Http st chunks false) =>
           if (400 <=? st) && (st <? 600)
           then r = inl (HTTPError st)
           else r = inr true /\ fs w' !! dest = Some (concat chunks)
       | Some (Http st chunks true) =>
           if (400 <=? st) && (st <? 600)
           then r = inl (HTTPError st) else r = inl ChunkedEncodingError
       | _ => r = inl ConnectionError
       end.
Proof.
  unfold attempt_download, bind, requests_get, emit. cbn [pending fs trace].
  destruct w as [p f t]; cbn [pending fs trace].
  destruct p as [|[|st chunks cut] rest]; cbn [head tail].
  - eexists _, _. repeat split; reflexivity.
  - eexists _, _. repeat split; reflexivity.
  - cbn [status_code body_chunks body_cut]. unfold raise_for_status.
    destruct ((400 <=? st) && (st <? 600)) eqn:Est.
    + eexists _, _. split; [reflexivity|]. cbn. repeat split; auto.
      destruct cut; auto.
    + cbn [ret modify]. unfold write_chunks, bind.
      destruct (write_chunks_loop dest chunks
                  (write_file dest [] (World rest f (t ++ [EvGet url attempt]))))
        as (w' & E & P & T & F).
      rewrite E. destruct cut.
      * eexists _, _. split; [reflexivity|]. cbn in *. repeat split; auto.
      * eexists _, _. split; [reflexivity|]. cbn in *. repeat split; auto.
        apply (F []). apply lookup_insert_eq.
Qed.

Lemma attempt_download_result url dest attempt w :
  exists w',
    trace w' = trace w ++ [EvGet url attempt]
    /\ (attempt_download url dest attempt w = (inr true, w')
        \/ exists e, attempt_download url dest attempt w = (inl e, w')).
Proof.
  destruct (attempt_download_spec url dest attempt w) as (r & w' & E & T & _ & H).
  exists w'. split; [exact T|]. rewrite E.
  destruct (head (pending w)) as [[|st chunks [|]]|];
    try (right; eexists; by rewrite H).
  - destruct (_ && _); [right; eexists; by rewrite H|].
    right; eexists; by rewrite H.
  - destruct (_ && _); [right; eexists; by rewrite H|].
    left. by destruct H as [-> _].
Qed.

(** ** The retry loop of one candidate *)

Lemma retry_loop_run url dest max_retries from count w :
  (from + count = max_retries)%nat ->
  exists ok w' tr,
    retry_loop url dest max_retries (seq from count) w = (inr ok, w')
    /\ trace w' = trace w ++ tr
    /\ ((ok = true /\ exists k, (k < count)%nat /\
           tr = flat_map (failed_attempt max_retries url) (seq from k)
                ++ [EvGet url (from + k)%nat])
        \/ (ok = false /\
           tr = flat_map (failed_attempt max_retries url) (seq from count))).
Proof.
  revert from w. induction count as [|count IH]; intros from w Hn.
  - exists false, w, []. cbn. rewrite app_nil_r. auto.
  - cbn [seq retry_loop].
    destruct (attempt_download_result url dest from w) as (w1 & T1 & [E|[e E]]);
      rewrite E.
    + exists true, w1, [EvGet url from]. split; [reflexivity|]. split; [exact T1|].
      left. split; [reflexivity|]. exists 0%nat. split; [lia|].
      cbn. by rewrite Nat.add_0_r.
    + unfold bind at 1.
      assert (Hs : exists w2,
                 (if Z.of_nat from <? Z.of_nat max_retries - 1
                  then sleep 2 else ret tt) w1 = (inr tt, w2)
                 /\ trace w2 = trace w ++ failed_attempt max_retries url from).
      { unfold failed_attempt.
        destruct (Z.ltb_spec (Z.of_nat from) (Z.of_nat max_retries - 1)) as [Hlt|Hge].
        - exists (emit (EvSleep 2) w1). split; [reflexivity|].
          destruct (Nat.ltb_spec (from + 1) max_retries); [|lia].
          cbn. rewrite T1, <- app_assoc. reflexivity.
        - exists w1. split; [reflexivity|].
          destruct (Nat.ltb_spec (from + 1) max_retries); [lia|].
          exact T1. }
      destruct Hs as (w2 & -> & T2).
      destruct (IH (S from) w2 ltac:(lia)) as (ok & w' & tr & E' & T' & H').
      exists ok, w', (failed_attempt max_retries url from ++ tr).
      split; [exact E'|]. split; [rewrite T', T2, <- app_assoc; reflexivity|].
      destruct H' as [(-> & k & Hk & ->)|(-> & ->)].
      * left. split; [reflexivity|]. exists (S k). split; [lia|].
        cbn [seq flat_map]. rewrite <- app_assoc.
        replace (from + S k)%nat with (S from + k)%nat by lia. reflexivity.
      * right. split; reflexivity.
Qed.

Lemma download_with_retry_run url dest max_retries w :
  exists ok w' tr,
    download_with_retry url dest max_retries w = (inr ok, w')
    /\ trace w' = trace w ++ tr
    /\ candidate_run max_retries url ok tr.
Proof.
  destruct (retry_loop_run url dest max_retries 0 max_retries w eq_refl)
    as (ok & w' & tr & E & T & H).
  exists ok, w', tr. split; [exact E|]. split; [exact T|].
  destruct H as [(-> & k & Hk & ->)|(-> & ->)]; by constructor.
Qed.

(** ** Derived bounds on a chain *)

Lemma delays_app tr tr' : delays (tr ++ tr') = delays tr ++ delays tr'.
Proof. unfold delays. apply omap_app. Qed.

Lemma requests_app tr tr' : requests (tr ++ tr') = requests tr ++ requests tr'.
Proof. unfold requests. apply omap_app. Qed.

Lemma failed_attempts_delays max_retries url from k :
  Forall (eq 2) (delays (flat_map (failed_attempt max_retries url) (seq from k))).
Proof.
  revert from. induction k as [|k IH]; intros from; [constructor|].
  cbn [seq flat_map]. rewrite delays_app. apply Forall_app. split; [|apply IH].
  unfold failed_attempt. destruct (from + 1 <? max_retries)%nat; repeat constructor.
Qed.

Lemma failed_attempts_requests max_retries url from k :
  requests (flat_map (failed_attempt max_retries url) (seq from k))
  = map (pair url) (seq from k).
Proof.
  revert from. induction k as [|k IH]; intros from; [reflexivity|].
  cbn [seq flat_map map]. rewrite requests_app, IH.
  unfold failed_attempt. by destruct (from + 1 <? max_retries)%nat.
Qed.

Lemma candidate_run_delays max_retries url ok tr :
  candidate_run max_retries url ok tr -> Forall (eq 2) (delays tr).
Proof.
  intros [k Hk|].
  - rewrite delays_app. apply Forall_app. split; [apply failed_attempts_delays|].
    cbn. constructor.
  - apply failed_attempts_delays.
Qed.

Lemma candidate_run_budget max_retries url ok tr :
  candidate_run max_retries url ok tr ->
  (length (requests tr) <= max_retries)%nat
  /\ Forall (fun r => r.1 = url /\ (r.2 < max_retries)%nat) (requests tr)
  /\ (ok = false -> length (requests tr) = max_retries).
Proof.
  intros [k Hk|].
  - rewrite requests_app, failed_attempts_requests. cbn.
    rewrite length_app, length_map, length_seq. cbn. split; [lia|]. split; [|done].
    apply Forall_app. split.
    + apply Forall_forall. intros [u a] Hin. apply list_elem_of_In, in_map_iff in Hin.
      destruct Hin as (i & [= <- <-] & Hi). apply in_seq in Hi. cbn. split; [done|lia].
    + constructor; [cbn; split; [done|lia]|constructor].
  - rewrite failed_attempts_requests, length_map, length_seq. split; [lia|]. split; [|done].
    apply Forall_forall. intros [u a] Hin. apply list_elem_of_In, in_map_iff in Hin.
    destruct Hin as (i & [= <- <-] & Hi). apply in_seq in Hi. cbn. split; [done|lia].
Qed.

Lemma chain_run_delays max_retries urls ok tr :
  chain_run max_retries urls ok tr -> Forall (eq 2) (delays tr).
Proof.
  induction 1 as [|url rest tr H|url rest ok tr tr' H _ IH].
  - constructor.
  - by eapply candidate_run_delays.
  - rewrite delays_app. apply Forall_app. split; [by eapply candidate_run_delays|exact IH].
Qed.

Lemma chain_run_budget max_retries urls ok tr :
  chain_run max_retries urls ok tr ->
  (length (requests tr) <= max_retries * length urls)%nat.
Proof.
  induction 1 as [|url rest tr H|url rest ok tr tr' H _ IH]; cbn [length];
    rewrite ?Nat.mul_succ_r.
  - cbn. lia.
  - apply candidate_run_budget in H as (Hlen & _). lia.
  - apply candidate_run_budget in H as (Hlen & _).
    rewrite requests_app, length_app. lia.
Qed.


(** The network never answers: three attempts, two pauses of 2 seconds. *)
Definition network_down : world := World [NoAnswer; NoAnswer; NoAnswer] ∅ [].


(** ** No size check on what was fetched *)

Lemma download_first_attempt_accepted url dest max_retries w st chunks more :
  pending w = Http st chunks false :: more ->
  (400 <=? st) && (st <? 600) = false ->
  (0 < max_retries)%nat ->
  exists w',
    download_with_retry url dest max_retries w = (inr true, w')
    /\ fs w' !! dest = Some (concat chunks)
    /\ trace w' = trace w ++ [EvGet url 0]
    /\ pending w' = more.
Proof.
  intros Hp Hst Hn. unfold download_with_retry.
  destruct max_retries as [|n]; [lia|]. cbn [seq retry_loop].
  destruct (attempt_download_spec url dest 0 w) as (r & w' & E & T & P & H).
  rewrite Hp in H, P. cbn in H, P. rewrite Hst in H. destruct H as [-> F].
  rewrite E. exists w'. auto.
Qed.


(** A provider error page: 200 with a body of ten bytes; a second candidate
    that would have served a real texture. *)
Definition error_page_world : world :=
  World [Http 200 [repeat Byte.x00 10] false;
         Http 200 [repeat Byte.x00 64] false] ∅ [].



End FetchHqFacts.

Module CreateEarthTexturesFacts.
Import Download CreateEarthTextures.

(** [create_earth_textures] takes any body that comes with status 200. *)
Lemma status_200_accepted url rest dest w chunks more :
  pending w = Http 200 chunks false :: more ->
  exists w',
    download_first (url :: rest) dest w = (inr true, w')
    /\ fs w' !! dest = Some (concat chunks)
    /\ pending w' = more.
Proof.
  intros Hp. cbn [download_first]. unfold bind, try_except, attempt_url, bind, requests_get.
  cbn. rewrite Hp. cbn. eexists. split; [reflexivity|]. cbn.
  split; [apply lookup_insert_eq|reflexivity].
Qed.

Lemma attempt_url_trace url dest w :
  trace (attempt_url url dest w).2 = trace w ++ [EvGet url 0].
Proof.
  unfold attempt_url, bind, requests_get. cbn.
  destruct (pending w) as [|[|st chunks cut] rest]; cbn; try reflexivity.
  destruct cut; cbn; [reflexivity|]. destruct (st =? 200); reflexivity.
Qed.

(** The download loop of [create_earth_textures]: every candidate is asked
    at most once, in order, none after the first that answers 200, and there
    is no pause. *)
Lemma download_first_run urls dest w :
  exists ok w' tried,
    download_first urls dest w = (inr ok, w')
    /\ trace w' = trace w ++ map (fun url => EvGet url 0) tried
    /\ tried `prefix_of` urls
    /\ (ok = false -> tried = urls).
Proof.
  revert w. induction urls as [|url rest IH]; intros w; cbn [download_first].
  - exists false, w, []. cbn. rewrite app_nil_r. repeat split; auto.
  - unfold bind, try_except. pose proof (attempt_url_trace url dest w) as T.
    destruct (attempt_url url dest w) as [[e|[|]] w1]; cbn in *.
    + destruct (IH w1) as (ok & w' & tried & E & T' & Hpre & Hall).
      exists ok, w', (url :: tried). rewrite E. split; [reflexivity|].
      split; [rewrite T', T, <- app_assoc; reflexivity|].
      split; [by apply prefix_cons|]. intros Hok. by rewrite Hall.
    + exists true, w1, [url]. split; [reflexivity|]. split; [exact T|].
      split; [apply prefix_cons, prefix_nil|discriminate].
    + destruct (IH w1) as (ok & w' & tried & E & T' & Hpre & Hall).
      exists ok, w', (url :: tried). rewrite E. split; [reflexivity|].
      split; [rewrite T', T, <- app_assoc; reflexivity|].
      split; [by apply prefix_cons|]. intros Hok. by rewrite Hall.
Qed.

End CreateEarthTexturesFacts.

(* ===================================================================== *)
(** * Facts: the size of a thumbnail                                      *)
(* ===================================================================== *)

Module PillowFacts.
Import Pillow.
Open Scope Q_scope.

(** One side is within a pixel of the size that the source proportions give
    for the other side. *)
Definition aspect_within_one_pixel (width height tw th : Z) : Prop :=
  Qabs (inject_Z tw - inject_Z th * (inject_Z width / inject_Z height)) < 1
  \/ Qabs (inject_Z th - inject_Z tw * (inject_Z height / inject_Z width)) < 1.

Lemma inject_Z_pos (z : Z) : (0 < z)%Z -> 0 < inject_Z z.
Proof. intros H. by rewrite (Zlt_Qlt 0 z) in H. Qed.

Lemma inject_Z_nonzero (z : Z) : (0 < z)%Z -> ~ inject_Z z == 0.
Proof. intros H E. apply inject_Z_pos in H. rewrite E in H. by apply Qlt_irrefl in H. Qed.

Lemma ratio_pos (a b : Z) : (0 < a)%Z -> (0 < b)%Z -> 0 < inject_Z a / inject_Z b.
Proof.
  intros Ha Hb. apply Qlt_shift_div_l; [by apply inject_Z_pos|].
  rewrite Qmult_0_l. by apply inject_Z_pos.
Qed.

(** Comparing two ratios of positive integers is comparing cross products. *)
Lemma ratio_le_cross (a b c d : Z) :
  (0 < b)%Z -> (0 < d)%Z ->
  inject_Z a / inject_Z b <= inject_Z c / inject_Z d <-> (a * d <= c * b)%Z.
Proof.
  intros Hb Hd.
  pose proof (inject_Z_nonzero b Hb) as Nb. pose proof (inject_Z_nonzero d Hd) as Nd.
  rewrite Zle_Qle, !inject_Z_mult.
  assert (P : 0 < inject_Z b * inject_Z d).
  { apply Qmult_lt_0_compat; by apply inject_Z_pos. }
  rewrite <- (Qmult_le_r _ _ _ P).
  assert (E1 : inject_Z a / inject_Z b * (inject_Z b * inject_Z d)
               == inject_Z a * inject_Z d) by (field; exact Nb).
  assert (E2 : inject_Z c / inject_Z d * (inject_Z b * inject_Z d)
               == inject_Z c * inject_Z b) by (field; exact Nd).
  rewrite E1, E2. reflexivity.
Qed.

(** [round_aspect] of a positive number below two integer bounds stays
    within the bounds, is at least 1 and is less than a pixel away. *)
Lemma round_aspect_bounds (number : Q) (key : Z -> Q) (X W : Z) :
  0 < number -> number <= inject_Z X -> number <= inject_Z W ->
  (1 <= round_aspect number key <= X)%Z
  /\ (round_aspect number key <= W)%Z
  /\ Qabs (inject_Z (round_aspect number key) - number) < 1.
Proof.
  intros Hpos HX HW.
  pose proof (Qfloor_le number) as F1. pose proof (Qlt_floor number) as F2.
  pose proof (Qle_ceiling number) as C1. pose proof (Qceiling_lt number) as C2.
  assert (FC : (Qfloor number <= Qceiling number)%Z).
  { rewrite Zle_Qle. apply Qle_floor_ceiling. }
  pose proof (Qceiling_resp_le _ _ HX) as CX. rewrite Qceiling_Z in CX.
  pose proof (Qceiling_resp_le _ _ HW) as CW. rewrite Qceiling_Z in CW.
  assert (Cpos : (1 <= Qceiling number)%Z).
  { assert (0 < inject_Z (Qceiling number)) as H by (eapply Qlt_le_trans; eauto).
    change 0 with (inject_Z 0) in H. rewrite <- Zlt_Qlt in H. lia. }
  assert (Fnn : (0 <= Qfloor number)%Z).
  { assert (inject_Z 0 < inject_Z (Qfloor number + 1)) as H
        by (eapply Qlt_trans; [exact Hpos|exact F2]).
    rewrite <- Zlt_Qlt in H. lia. }
  rewrite inject_Z_plus in F2.
  unfold Z.sub in C2. rewrite inject_Z_plus, inject_Z_opp in C2.
  change (inject_Z 1) with 1 in *.
  unfold round_aspect, min_by.
  destruct (Qle_bool _ _).
  - destruct (Z.max_spec (Qfloor number) 1) as [[Hlt ->]|[Hge ->]].
    + assert (Qfloor number = 0%Z) as E0 by lia. rewrite E0 in *.
      split; [lia|]. split; [lia|].
      change (inject_Z 1) with 1. change (inject_Z 0) with 0 in F2.
      apply Qabs_case; intros; lra.
    + split; [lia|]. split; [lia|]. apply Qabs_case; intros; lra.
  - rewrite Z.max_l by lia. split; [lia|]. split; [lia|].
    apply Qabs_case; intros; lra.
Qed.

Lemma ratio_le_Z (a b c : Z) :
  (0 < b)%Z -> inject_Z a / inject_Z b <= inject_Z c <-> (a <= c * b)%Z.
Proof.
  intros Hb. rewrite <- (Z.mul_1_r a) at 2.
  rewrite <- (ratio_le_cross a b c 1 Hb) by lia.
  assert (E : inject_Z c / inject_Z 1 == inject_Z c) by (change (inject_Z 1) with 1; field).
  by rewrite E.
Qed.

(** What [thumbnail] does to the size of an image, for any box of at least
    one pixel: the result fits the box, does not exceed the source, keeps at
    least one pixel and the proportions up to one pixel. *)
Lemma thumbnail_size_bounds (width height x y : Z) :
  (1 <= width)%Z -> (1 <= height)%Z -> (1 <= x)%Z -> (1 <= y)%Z ->
  (1 <= (thumbnail_size width height x y).1 <= x)%Z
  /\ (1 <= (thumbnail_size width height x y).2 <= y)%Z
  /\ ((thumbnail_size width height x y).1 <= width)%Z
  /\ ((thumbnail_size width height x y).2 <= height)%Z
  /\ aspect_within_one_pixel width height
       (thumbnail_size width height x y).1 (thumbnail_size width height x y).2.
Proof.
  intros Hw Hh Hx Hy.
  pose proof (inject_Z_nonzero width ltac:(lia)) as Nw.
  pose proof (inject_Z_nonzero height ltac:(lia)) as Nh.
  pose proof (inject_Z_nonzero y ltac:(lia)) as Ny.
  unfold thumbnail_size, preserve_aspect_ratio.
  destruct ((width <=? x)%Z && (height <=? y)%Z) eqn:Efit.
  - apply andb_true_iff in Efit as [E1 E2]. cbn [fst snd].
    repeat split; try lia. left.
    assert (E : inject_Z width - inject_Z height * (inject_Z width / inject_Z height) == 0)
      by (field; exact Nh).
    rewrite E. reflexivity.
  - assert (Hnot : ~ ((width <= x)%Z /\ (height <= y)%Z)).
    { intros [A B]. apply Z.leb_le in A, B. rewrite A, B in Efit. discriminate. }
    destruct (Qle_bool _ _) eqn:Ecmp; cbn [fst snd].
    + apply Qle_bool_iff in Ecmp.
      apply (proj1 (ratio_le_cross width height x y ltac:(lia) ltac:(lia))) in Ecmp.
      assert (Hyh : (y < height)%Z).
      { destruct (Z_lt_le_dec y height) as [|Hge]; [assumption|].
        exfalso. apply Hnot. split; [|lia].
        apply (Z.mul_le_mono_pos_r _ _ height); [lia|].
        etransitivity; [|exact Ecmp]. apply Z.mul_le_mono_nonneg_l; lia. }
      assert (En : inject_Z y * (inject_Z width / inject_Z height)
                   == inject_Z (y * width) / inject_Z height)
        by (rewrite inject_Z_mult; field; exact Nh).
      destruct (round_aspect_bounds
                  (inject_Z y * (inject_Z width / inject_Z height))
                  (fun n => Qabs (inject_Z width / inject_Z height - inject_Z n / inject_Z y))
                  x width) as (B1 & B2 & B3).
      * apply Qmult_lt_0_compat; [apply inject_Z_pos; lia|apply ratio_pos; lia].
      * rewrite En. apply ratio_le_Z; [lia|nia].
      * rewrite En. apply ratio_le_Z; [lia|nia].
      * repeat split; try lia. left. exact B3.
    + assert (Hlt : (x * height < width * y)%Z).
      { apply Z.nle_gt. intros Hle.
        apply (proj2 (ratio_le_cross width height x y ltac:(lia) ltac:(lia))) in Hle.
        apply Qle_bool_iff in Hle. rewrite Hle in Ecmp. discriminate. }
      assert (Hxw : (x < width)%Z).
      { destruct (Z_lt_le_dec x width) as [|Hge]; [assumption|].
        exfalso. apply Hnot. split; [lia|].
        apply (Z.mul_le_mono_pos_l _ _ width); [lia|].
        apply Z.lt_le_incl. eapply Z.le_lt_trans; [|exact Hlt].
        apply Z.mul_le_mono_nonneg_r; lia. }
      assert (En : inject_Z x / (inject_Z width / inject_Z height)
                   == inject_Z (x * height) / inject_Z width)
        by (rewrite inject_Z_mult; field; split; assumption).
      assert (En' : inject_Z x / (inject_Z width / inject_Z height)
                    == inject_Z x * (inject_Z height / inject_Z width))
        by (field; split; assumption).
      destruct (round_aspect_bounds
                  (inject_Z x / (inject_Z width / inject_Z height))
                  (fun n => if (n =? 0)%Z then 0
                            else Qabs (inject_Z width / inject_Z height
                                       - inject_Z x / inject_Z n))
                  y height) as (B1 & B2 & B3).
      * rewrite En. apply ratio_pos; nia.
      * rewrite En. apply ratio_le_Z; [lia|nia].
      * rewrite En. apply ratio_le_Z; [lia|nia].
      * repeat split; try lia. right. rewrite <- En'. exact B3.
Qed.

End PillowFacts.

(* ===================================================================== *)
(** * Facts: saturation of the compositing                                *)
(* ===================================================================== *)

Module CompositingFacts.
Import Compositing.

Lemma py_int_range (q : Q) : (0 <= q)%Q -> (q <= 255)%Q -> 0 <= py_int q <= 255.
Proof.
  intros H0 H255. unfold py_int.
  apply Qle_bool_iff in H0 as Hb. rewrite Hb.
  pose proof (Qfloor_resp_le _ _ H0) as F0. pose proof (Qfloor_resp_le _ _ H255) as F1.
  change (Qfloor 0) with 0 in F0. change (Qfloor 255) with 255 in F1. lia.
Qed.

Lemma clip_range (v : Q) : (0 <= clip v)%Q /\ (clip v <= 255)%Q.
Proof.
  unfold clip. split.
  - apply Q.min_glb; [apply Q.le_max_r|discriminate].
  - apply Q.le_min_r.
Qed.

Lemma clip_saturates (v : Q) : (255 <= v)%Q -> (clip v == 255)%Q.
Proof.
  intros H. unfold clip. apply Q.min_r.
  eapply Qle_trans; [exact H|apply Q.le_max_l].
Qed.

Lemma py_int_proper (q q' : Q) : (q == q')%Q -> py_int q = py_int q'.
Proof.
  intros E. unfold py_int.
  assert (Hb : Qle_bool 0 q = Qle_bool 0 q').
  { destruct (Qle_bool 0 q) eqn:B; symmetry.
    - apply Qle_bool_iff. rewrite <- E. by apply Qle_bool_iff.
    - destruct (Qle_bool 0 q') eqn:B'; [|reflexivity].
      apply Qle_bool_iff in B'. rewrite <- E in B'. apply Qle_bool_iff in B'. congruence. }
  rewrite Hb. destruct (Qle_bool 0 q'); [by apply Qfloor_comp|by apply Qceiling_comp].
Qed.

(** ** Cloud alpha *)

Definition sum_of_halves (alphas : list Z) : Z :=
  foldr Z.add 0 (map (fun a => a / 2) alphas).

Lemma cloud_alpha_range (p : promotion) (old alpha : Z) :
  0 <= old <= 255 -> 0 <= alpha <= 255 -> 0 <= cloud_alpha p old alpha <= 255.
Proof.
  intros Ho Ha. unfold cloud_alpha, uint8_plus_int.
  assert (0 <= alpha / 2 <= 127) by (Z.div_mod_to_equations; lia).
  destruct p.
  - lia.
  - pose proof (Z.mod_pos_bound (old + alpha / 2) 256 ltac:(lia)). lia.
Qed.

Lemma cloud_alpha_value_based (alphas : list Z) (start : Z) :
  0 <= start ->
  Forall (fun a => 0 <= a <= 255) alphas ->
  foldl (cloud_alpha ValueBased) (Z.min 255 start) alphas
  = Z.min 255 (start + sum_of_halves alphas).
Proof.
  intros Hs Hall. revert start Hs.
  induction Hall as [|a alphas Ha _ IH]; intros start Hs; cbn [foldl].
  - unfold sum_of_halves. cbn. by rewrite Z.add_0_r.
  - assert (0 <= a / 2) by (Z.div_mod_to_equations; lia).
    replace (cloud_alpha ValueBased (Z.min 255 start) a)
      with (Z.min 255 (start + a / 2))
      by (unfold cloud_alpha, uint8_plus_int; lia).
    rewrite IH by lia. unfold sum_of_halves. cbn [map foldr]. f_equal. lia.
Qed.

Lemma cloud_alpha_pair (p : promotion) (a1 a2 : Z) :
  0 <= a1 <= 255 -> 0 <= a2 <= 255 ->
  cloud_alpha_after p [a1; a2] = a1 / 2 + a2 / 2
  /\ cloud_alpha_after p [a1; a2] <= 254.
Proof.
  intros H1 H2. unfold cloud_alpha_after, cloud_alpha, uint8_plus_int. cbn [foldl].
  assert (0 <= a1 / 2 <= 127) by (Z.div_mod_to_equations; lia).
  assert (0 <= a2 / 2 <= 127) by (Z.div_mod_to_equations; lia).
  destruct p.
  - lia.
  - rewrite (Z.mod_small (0 + a1 / 2)) by lia.
    rewrite (Z.min_r 255 (0 + a1 / 2)) by lia.
    rewrite (Z.mod_small (0 + a1 / 2 + a2 / 2)) by lia. lia.
Qed.

(** Beyond pairs the typing of the sum matters: three blobs drawn on the
    same centre give 255 when the sum is an [int64], and 381 mod 256 = 125
    when it is a [uint8], since [min] sees the sum after it has wrapped. *)
Lemma three_blobs_under_each_promotion :
  cloud_alpha_after ValueBased [255; 255; 255] = 255
  /\ cloud_alpha_after Weak [255; 255; 255] = 125.
Proof. split; reflexivity. Qed.

(** ** Night lights *)

Lemma py_int_at_least (n : Z) (q : Q) : 0 <= n -> (inject_Z n <= q)%Q -> n <= py_int q.
Proof.
  intros Hn Hq. unfold py_int.
  assert (H0 : (0 <= q)%Q).
  { eapply Qle_trans; [|exact Hq]. change 0%Q with (inject_Z 0). by rewrite <- Zle_Qle. }
  apply Qle_bool_iff in H0 as Hb. rewrite Hb.
  pose proof (Qfloor_resp_le _ _ Hq) as F. by rewrite Qfloor_Z in F.
Qed.

Lemma clip_at_least (n : Z) (v : Q) : n <= 255 -> (inject_Z n <= v)%Q -> (inject_Z n <= clip v)%Q.
Proof.
  intros Hn Hv. unfold clip. apply Q.min_glb.
  - eapply Qle_trans; [exact Hv|apply Q.le_max_l].
  - change 255%Q with (inject_Z 255). by rewrite <- Zle_Qle.
Qed.

Section Saturation.

Variable fl : Q -> Q.
Hypothesis fl_monotone : forall a b : Q, (a <= b)%Q -> (fl a <= fl b)%Q.
Hypothesis fl_exact : forall n : Z, 0 <= n <= 255 -> (fl (inject_Z n) == inject_Z n)%Q.

Lemma night_channel_range (old : Z) (c : Q) : 0 <= night_channel fl old c <= 255.
Proof.
  unfold night_channel.
  destruct (clip_range (fl (inject_Z old + c))) as [H0 H1]. by apply py_int_range.
Qed.

(** The channel is at least any whole number the exact sum reaches. *)
Lemma night_channel_at_least (n old : Z) (c : Q) :
  0 <= n <= 255 -> (inject_Z n <= inject_Z old + c)%Q -> n <= night_channel fl old c.
Proof.
  intros Hn H. unfold night_channel. apply py_int_at_least; [lia|].
  apply clip_at_least; [lia|]. rewrite <- (fl_exact n Hn). by apply fl_monotone.
Qed.

Lemma night_channel_saturates (old : Z) (c : Q) :
  (255 <= inject_Z old + c)%Q -> night_channel fl old c = 255.
Proof.
  intros H. pose proof (night_channel_range old c).
  pose proof (night_channel_at_least 255 old c ltac:(lia) H). lia.
Qed.

(** What the first light leaves is 255, or the whole part of its
    contribution or more: less than 1 is lost. *)
Lemma first_store_loses_less_than_one (c : Q) :
  night_channel fl 0 c = 255 \/ (c < inject_Z (night_channel fl 0 c) + 1)%Q.
Proof.
  pose proof (night_channel_range 0 c) as Hr.
  destruct (Qlt_le_dec c 255) as [Hlt|Hge].
  2:{ left. apply night_channel_saturates.
      change (inject_Z 0) with 0%Q. by rewrite Qplus_0_l. }
  right. destruct (Qlt_le_dec c 0) as [Hneg|Hpos].
  - eapply Qlt_le_trans; [exact Hneg|].
    change 0%Q with (inject_Z 0 + 0)%Q. apply Qplus_le_compat; [|discriminate].
    rewrite <- Zle_Qle. lia.
  - pose proof (Qfloor_le c) as Hfl. pose proof (Qlt_floor c) as Hlf.
    assert (H0 : 0 <= Qfloor c).
    { pose proof (Qfloor_resp_le _ _ Hpos) as F. by change (Qfloor 0) with 0 in F. }
    assert (H1 : Qfloor c <= 255).
    { pose proof (Qfloor_resp_le _ _ (Qlt_le_weak _ _ Hlt)) as F.
      by change (Qfloor 255) with 255 in F. }
    assert (Hst : Qfloor c <= night_channel fl 0 c).
    { apply night_channel_at_least; [lia|].
      change (inject_Z 0) with 0%Q. rewrite Qplus_0_l. exact Hfl. }
    eapply Qlt_le_trans; [exact Hlf|].
    change 1%Q with (inject_Z 1). rewrite <- !inject_Z_plus, <- Zle_Qle. lia.
Qed.

(** Two lights on a dark pixel, by the sum of their contributions. *)
Lemma night_channel_pair (c1 c2 : Q) :
  (0 <= c1)%Q -> (0 <= c2)%Q -> (255 < c1 + c2)%Q ->
  254 <= night_channel fl (night_channel fl 0 c1) c2 <= 255
  /\ ((256 <= c1 + c2)%Q -> night_channel fl (night_channel fl 0 c1) c2 = 255).
Proof.
  intros H1 H2 Hsum.
  pose proof (night_channel_range (night_channel fl 0 c1) c2) as Hr.
  destruct (first_store_loses_less_than_one c1) as [E|Hlost].
  - (* the first light alone fills the channel *)
    rewrite E in *.
    assert (Hfull : night_channel fl 255 c2 = 255).
    { apply night_channel_saturates. change (inject_Z 255) with 255%Q. lra. }
    rewrite Hfull. split; [lia|reflexivity].
  - assert (H254 : (inject_Z 254 <= inject_Z (night_channel fl 0 c1) + c2)%Q).
    { change (inject_Z 254) with 254%Q. lra. }
    pose proof (night_channel_at_least 254 _ c2 ltac:(lia) H254). split; [lia|].
    intros H256. apply night_channel_saturates. lra.
Qed.


End Saturation.




End CompositingFacts.

(* ===================================================================== *)
(** * Facts: the synthesizers that seed the generator before they draw    *)
(* ===================================================================== *)

Module SynthFacts.
Import Download Compositing Synth.

Section WithNumpy.
Context `{Numpy}.

(** The cloud layer of [create_earth_textures] seeds the generator itself:
    what it draws does not depend on the state it finds. *)
Lemma seeded_clouds_are_deterministic (p : promotion) (width height : Z)
    (s1 s2 : rng_state) :
  create_clouds p width height s1 = create_clouds p width height s2.
Proof. reflexivity. Qed.

(** So does [create_clouds_map] of [fix_textures.py], the only creator of
    that script that draws; a run of the script writes the same files from
    any state of the generator. *)
Lemma seeded_cloud_map_is_deterministic (p : promotion) (width height : Z)
    (s1 s2 : rng_state) :
  FixTexturesRun.create_clouds_map p width height s1
  = FixTexturesRun.create_clouds_map p width height s2.
Proof. reflexivity. Qed.

Lemma fix_textures_ignores_the_generator `{Imaging} (p : promotion)
    (s1 s2 : rng_state) (w : world) :
  FixTexturesRun.fix_textures p s1 w = FixTexturesRun.fix_textures p s2 w.
Proof. reflexivity. Qed.

End WithNumpy.

End SynthFacts.

(* ===================================================================== *)
(** * Facts: the generated script of fetch_earth_textures_v2.py           *)
(* ===================================================================== *)

Module GenerateEarthTexturesFacts.
Import Compositing CompositingFacts Synth GenerateEarthTextures.

Lemma clip_to_uint8_spec (v : Q) :
  clip_to_uint8 v = py_int (clip v) /\ 0 <= clip_to_uint8 v <= 255.
Proof.
  unfold clip_to_uint8, CreateEarthTexturesNight.astype_uint8.
  destruct (clip_range v) as [H0 H1].
  pose proof (py_int_range (clip v) H0 H1) as Hr.
  rewrite Z.mod_small by lia. split; [reflexivity|exact Hr].
Qed.

Section WithNumpy.
Context `{Numpy}.

(** The lights are drawn at the places the generator gives, whatever the
    day array holds: the generator ends the loop in the same state. *)
Lemma lights_leave_the_same_state (day1 day2 : raster rgb) (rounds : list nat)
    (night1 night2 : raster rgb) (s : rng_state) :
  (loop (city_light day1) rounds night1 s).2
  = (loop (city_light day2) rounds night2 s).2.
Proof.
  revert night1 night2 s.
  induction rounds as [|round rounds IH]; intros night1 night2 s; cbn [loop].
  - reflexivity.
  - unfold city_light at 1 3.
    destruct (randint 0 width s) as [x s1]. destruct (randint 0 height s1) as [y s2].
    apply IH.
Qed.

(** The night array is a function of the day array. *)
Lemma lights_follow_the_day (day1 day2 : raster rgb) (rounds : list nat)
    (night1 night2 : raster rgb) (s : rng_state) :
  (forall at_, day1 at_ = day2 at_) ->
  (forall at_, night1 at_ = night2 at_) ->
  forall at_, (loop (city_light day1) rounds night1 s).1 at_
              = (loop (city_light day2) rounds night2 s).1 at_.
Proof.
  intros Hday. revert night1 night2 s.
  induction rounds as [|round rounds IH]; intros night1 night2 s Hnight; cbn [loop].
  - exact Hnight.
  - unfold city_light at 1 3.
    destruct (randint 0 width s) as [x s1]. destruct (randint 0 height s1) as [y s2].
    apply IH. intros at_. rewrite (Hday (y, x)).
    destruct (100 <? (day2 (y, x)).1.1); [|apply Hnight].
    unfold set_pixel. destruct (decide (at_ = (y, x))); [reflexivity|apply Hnight].
Qed.

(** The first element of the day array takes the first three draws. *)
Lemma first_pixel_of_the_day (s : rng_state) :
  day_texture s (0, 0)
  = (clip_to_uint8 (70 + (normal 0 10 s).1),
     clip_to_uint8 (130 + (normal 0 10 (normal 0 10 s).2).1),
     clip_to_uint8 (180 + (normal 0 10 (normal 0 10 (normal 0 10 s).2).2).1)).
Proof. reflexivity. Qed.

(** C2, the runs that break the claim.  The generated script draws the
    noise of the day array from the generator as the new process finds it,
    and calls [np.random.seed(42)] only afterwards, before the city lights.
    So, for two runs that start from the states [s1] and [s2]: the cloud
    array is the same and the generator ends in the same state; the night and
    specular arrays are the same wherever the day arrays are; but the first
    red value of the day array is 70 plus the first draw from the state found,
    clipped and truncated, and the day arrays differ as soon as these two
    values do. *)
Theorem unseeded_noise_reaches_the_day_texture (s1 s2 : rng_state) :
  clouds (generate s1).1 = clouds (generate s2).1
  /\ (generate s1).2 = (generate s2).2
  /\ ((forall at_, day (generate s1).1 at_ = day (generate s2).1 at_) ->
      forall at_, night (generate s1).1 at_ = night (generate s2).1 at_
                  /\ specular (generate s1).1 at_ = specular (generate s2).1 at_)
  /\ (day (generate s1).1 (0, 0)).1.1 = py_int (clip (70 + (normal 0 10 s1).1))
  /\ (py_int (clip (70 + (normal 0 10 s1).1)) <> py_int (clip (70 + (normal 0 10 s2).1)) ->
      day (generate s1).1 <> day (generate s2).1).
Proof.
  assert (Hday : forall s, day (generate s).1 = day_texture s).
  { intros s. unfold generate.
    destruct (night_texture (day_texture s)) as [n s']. by destruct (loop _ _ _ s'). }
  assert (Hnight : forall s, night (generate s).1 = (night_texture (day_texture s)).1).
  { intros s. unfold generate.
    destruct (night_texture (day_texture s)) as [n s']. by destruct (loop _ _ _ s'). }
  assert (Hspec : forall s, specular (generate s).1 = specular_texture (day_texture s)).
  { intros s. unfold generate.
    destruct (night_texture (day_texture s)) as [n s']. by destruct (loop _ _ _ s'). }
  assert (Hrest : forall s,
             (clouds (generate s).1, (generate s).2)
             = loop cloud_disc (seq 0 100) (fun _ => (0, 0, 0, 0))
                    (night_texture (day_texture s)).2).
  { intros s. unfold generate.
    destruct (night_texture (day_texture s)) as [n s']. cbn [snd].
    by destruct (loop _ _ _ s'). }
  assert (Hstate : (night_texture (day_texture s1)).2 = (night_texture (day_texture s2)).2)
    by apply lights_leave_the_same_state.
  pose proof (Hrest s1) as R1. pose proof (Hrest s2) as R2. rewrite Hstate, <- R2 in R1.
  split; [congruence|]. split; [congruence|].
  assert (Hred : forall s, (day (generate s).1 (0, 0)).1.1
                           = py_int (clip (70 + (normal 0 10 s).1))).
  { intros s. rewrite Hday, first_pixel_of_the_day. cbn [fst].
    apply clip_to_uint8_spec. }
  split; [|split; [apply Hred|]].
  - intros Hsame at_. rewrite !Hday in Hsame. rewrite !Hnight, !Hspec. split.
    + apply lights_follow_the_day; [exact Hsame|reflexivity].
    + unfold specular_texture. by rewrite Hsame.
  - intros Hne E. apply Hne. rewrite <- !Hred. by rewrite E.
Qed.

End WithNumpy.

(** Two runs, on a generator read from a tape.  In one the first draw is 0,
    in the other 1/2, a noise of 5: the first pixel of the day array is
    (70, 130, 180) in one and (75, 130, 180) in the other. *)
Lemma unseeded_noise_reaches_the_day_texture_witness :
  (day (@generate Examples.tape_numpy [0%Q]).1 (0, 0)).1.1 = 70
  /\ (day (@generate Examples.tape_numpy [1 # 2]).1 (0, 0)).1.1 = 75
  /\ day (@generate Examples.tape_numpy [0%Q]).1
     <> day (@generate Examples.tape_numpy [1 # 2]).1.
Proof.
  destruct (@unseeded_noise_reaches_the_day_texture Examples.tape_numpy [0%Q] [1 # 2])
    as (_ & _ & _ & R1 & Hne).
  destruct (@unseeded_noise_reaches_the_day_texture Examples.tape_numpy [1 # 2] [0%Q])
    as (_ & _ & _ & R2 & _).
  split; [rewrite R1; vm_compute; reflexivity|].
  split; [rewrite R2; vm_compute; reflexivity|].
  apply Hne. vm_compute. discriminate.
Defined.

(** A draw of four standard deviations on a pixel of the ocean makes it pass
    the land test of the city lights and fail the water test of the specular
    map: the night and specular arrays change with the day array. *)
Lemma noise_changes_the_night_and_specular_arrays :
  night (@generate Examples.tape_numpy []).1 (0, 0) = (0, 0, 0)
  /\ night (@generate Examples.tape_numpy [4%Q]).1 (0, 0) = (255, 200, 100)
  /\ specular (@generate Examples.tape_numpy []).1 (0, 0) = 255
  /\ specular (@generate Examples.tape_numpy [4%Q]).1 (0, 0) = 0.
Proof. repeat split; vm_compute; reflexivity. Qed.

End GenerateEarthTexturesFacts.

(* ===================================================================== *)
(** * Facts: what a computation may do to the catalog and how it may end  *)
(* ===================================================================== *)

Module IngestFacts.
Import Json Sqlite Ingest.

(** The committed database and the log of commits are left as they are. *)
Definition keeps_catalog {A} (m : py world A) : Prop :=
  forall w, disk (m w).2 = disk w /\ commits (m w).2 = commits w.

(** The computation returns; no exception leaves it. *)
Definition never_raises {A} (m : py world A) : Prop :=
  forall w, exists a, (m w).1 = inr a.

Lemma keeps_ret {A} (a : A) : keeps_catalog (ret a).
Proof. intros w. split; reflexivity. Qed.

Lemma keeps_raise {A} (e : exn) : keeps_catalog (@raise world A e).
Proof. intros w. split; reflexivity. Qed.

Lemma keeps_bind {A B} (m : py world A) (k : A -> py world B) :
  keeps_catalog m -> (forall a, keeps_catalog (k a)) -> keeps_catalog (bind m k).
Proof.
  intros Hm Hk w. unfold bind. specialize (Hm w).
  destruct (m w) as [[e|a] w1]; cbn in *; [exact Hm|].
  destruct (Hk a w1) as [D C]. destruct Hm as [D1 C1]. split; congruence.
Qed.

Lemma keeps_try {A} (body : py world A) (handler : exn -> py world A) :
  keeps_catalog body -> (forall e, keeps_catalog (handler e)) ->
  keeps_catalog (try_except body handler).
Proof.
  intros Hm Hk w. unfold try_except. specialize (Hm w).
  destruct (body w) as [[e|a] w1]; cbn in *; [|exact Hm].
  destruct (Hk e w1) as [D C]. destruct Hm as [D1 C1]. split; congruence.
Qed.

Lemma keeps_modify (f : world -> world) :
  (forall w, disk (f w) = disk w /\ commits (f w) = commits w) ->
  keeps_catalog (modify f).
Proof. intros Hf w. exact (Hf w). Qed.

Lemma keeps_lift {A} (r : exn + A) : keeps_catalog (lift r).
Proof. destruct r; [apply keeps_raise|apply keeps_ret]. Qed.

Lemma keeps_lift_opt {A} (e : exn) (o : option A) : keeps_catalog (lift_opt e o).
Proof. destruct o; [apply keeps_ret|apply keeps_raise]. Qed.

Lemma keeps_for_each {A} (xs : list A) (body : A -> py world unit) :
  (forall x, keeps_catalog (body x)) -> keeps_catalog (for_each xs body).
Proof.
  intros Hb. induction xs as [|x xs IH]; cbn [for_each]; [apply keeps_ret|].
  apply keeps_bind; [apply Hb|intros _; exact IH].
Qed.

Lemma keeps_map_py {A B} (f : A -> py world B) (xs : list A) :
  (forall x, keeps_catalog (f x)) -> keeps_catalog (map_py f xs).
Proof.
  intros Hf. induction xs as [|x xs IH]; cbn [map_py]; [apply keeps_ret|].
  apply keeps_bind; [apply Hf|intros y].
  apply keeps_bind; [exact IH|intros ys; apply keeps_ret].
Qed.

Lemma keeps_fold_py {A B} (f : B -> A -> py world B) (xs : list A) (acc : B) :
  (forall b x, keeps_catalog (f b x)) -> keeps_catalog (fold_py f xs acc).
Proof.
  intros Hf. revert acc. induction xs as [|x xs IH]; intros acc; cbn [fold_py];
    [apply keeps_ret|].
  apply keeps_bind; [apply Hf|intros b; apply IH].
Qed.

Lemma keeps_requests_get (p : provider) (url : string) : keeps_catalog (requests_get p url).
Proof.
  intros w. unfold requests_get. cbn.
  destruct (pending w) as [|reply rest]; cbn; [split; reflexivity|].
  destruct (answer reply); cbn; split; reflexivity.
Qed.

Lemma keeps_sleep (seconds : Z) : keeps_catalog (sleep seconds).
Proof. apply keeps_modify. intros w. split; reflexivity. Qed.

Lemma keeps_now : keeps_catalog now.
Proof. intros w. split; reflexivity. Qed.

Lemma keeps_db_fault : keeps_catalog db_fault.
Proof. intros w. unfold db_fault. destruct (db_faults w) as [|[|] rest]; split; reflexivity. Qed.

Lemma keeps_execute (txn : list stmt) (s : stmt) : keeps_catalog (execute txn s).
Proof. apply keeps_bind; [apply keeps_db_fault|intros _; apply keeps_ret]. Qed.

Lemma keeps_raise_for_status (r : http_response) : keeps_catalog (raise_for_status r).
Proof. unfold raise_for_status. destruct (_ && _); [apply keeps_raise|apply keeps_ret]. Qed.

Lemma keeps_write_file (path : string) (data : bytes) :
  keeps_catalog (modify (write_file path data)).
Proof. apply keeps_modify. intros w. split; reflexivity. Qed.

Lemma keeps_count_api_calls (key : string) (n : Z) :
  keeps_catalog (modify (count_api_calls key n)).
Proof. apply keeps_modify. intros w. split; reflexivity. Qed.

(** Goals [keeps_catalog m] for a script [m] built from the steps above. *)
Ltac keeps_step :=
  first
    [ apply keeps_ret | apply keeps_raise | apply keeps_lift | apply keeps_lift_opt
    | apply keeps_requests_get | apply keeps_sleep | apply keeps_now
    | apply keeps_execute | apply keeps_raise_for_status | apply keeps_write_file
    | apply keeps_count_api_calls | apply keeps_db_fault
    | apply keeps_bind; [|intros ?]
    | apply keeps_try; [|intros ?]
    | apply keeps_for_each; intros ?
    | apply keeps_map_py; intros ?
    | apply keeps_fold_py; intros ? ?
    | match goal with
      | |- keeps_catalog (if ?b then _ else _) => destruct b
      | |- keeps_catalog (match ?x with _ => _ end) => destruct x
      end ].

Ltac keeps := repeat keeps_step.

(** ** Ending without an exception *)

Lemma try_except_never_raises {A} (body : py world A) (fallback : A) :
  never_raises (try_except body (fun _ => ret fallback)).
Proof.
  intros w. unfold try_except. destruct (body w) as [[e|a] w1]; cbn; eauto.
Qed.

Lemma never_raises_sleep (seconds : Z) : never_raises (sleep seconds).
Proof. intros w. by exists tt. Qed.

(** ** Stepping through a sequence *)

Lemma bind_inv {S A B} (m : py S A) (k : A -> py S B) (w : S) (r : exn + B) (w' : S) :
  bind m k w = (r, w') ->
  (exists e, m w = (inl e, w') /\ r = inl e)
  \/ (exists a w1, m w = (inr a, w1) /\ k a w1 = (r, w')).
Proof.
  unfold bind. destruct (m w) as [[e|a] w1]; intros E.
  - left. exists e. by inversion E.
  - right. eauto.
Qed.

Lemma keeps_run {A} (m : py world A) (w : world) (r : exn + A) (w' : world) :
  keeps_catalog m -> m w = (r, w') -> disk w' = disk w /\ commits w' = commits w.
Proof. intros Hm E. specialize (Hm w). by rewrite E in Hm. Qed.

Lemma bind_quiet {A B} (m : py world A) (k : A -> py world B) (w : world)
    (r : exn + B) (w' : world) :
  never_raises m -> keeps_catalog m ->
  bind m k w = (r, w') ->
  exists a w1, m w = (inr a, w1) /\ k a w1 = (r, w')
               /\ disk w1 = disk w /\ commits w1 = commits w.
Proof.
  intros Hn Hk E. apply bind_inv in E as [(e & E1 & _)|(a & w1 & E1 & E)].
  - destruct (Hn w) as [a Ha]. rewrite E1 in Ha. discriminate.
  - destruct (keeps_run _ _ _ _ Hk E1) as [D C]. eauto 10.
Qed.

(** ** The shape of what one call of [save_park_data] commits

    A transaction for park [pid]: the upsert of the park first, then only
    inserts of images that refer to it. *)
Definition entity_txn (pid : Z) (txn : list stmt) : Prop :=
  exists row inserts,
    txn = InsertOrReplacePark row :: map InsertImage inserts
    /\ p_id row = pid
    /\ Forall (fun i => i_park_id i = pid) inserts.

(** [execute] either raises, or extends the open transaction by its
    statement; the file is not touched. *)
Lemma execute_inv (txn : list stmt) (s : stmt) (w : world) (r : exn + list stmt)
    (w' : world) :
  execute txn s w = (r, w') ->
  disk w' = disk w /\ commits w' = commits w
  /\ (r = inl SqliteError \/ r = inr (txn ++ [s])).
Proof.
  intros E. destruct (keeps_run _ _ _ _ (keeps_execute txn s) E) as [D C].
  split; [exact D|]. split; [exact C|].
  unfold execute, bind, db_fault in E.
  destruct (db_faults w) as [|[|] rest]; cbn in E; inversion E; auto.
Qed.

(** [commit] either raises and leaves the file as it was, or puts the whole
    transaction in the file at once. *)
Lemma commit_inv (txn : list stmt) (w : world) (r : exn + unit) (w' : world) :
  commit txn w = (r, w') ->
  (r = inl SqliteError /\ disk w' = disk w /\ commits w' = commits w)
  \/ (r = inr tt /\ disk w' = exec_all (disk w) txn /\ commits w' = commits w ++ [txn]).
Proof.
  unfold commit, bind, db_fault.
  destruct (db_faults w) as [|[|] rest]; cbn; intros E; inversion E; auto.
Qed.

Lemma bind_param_error (j : json) (e : exn) : bind_param j = inl e -> e = SqliteError.
Proof. destruct j; cbn; congruence. Qed.

Lemma lift_bind_param_inv (j : json) (w : world) (r : exn + sql_value) (w' : world) :
  lift (bind_param j) w = (r, w') ->
  w' = w /\ (r = inl SqliteError \/ exists v, r = inr v).
Proof.
  unfold lift. destruct (bind_param j) as [e|v] eqn:E; intros Hr; inversion Hr; subst.
  - apply bind_param_error in E as ->. auto.
  - eauto.
Qed.

(** The parks of a run and the transactions it committed, one for one. *)
Definition one_txn_per_park (ps : list park) (txns : list (list stmt)) : Prop :=
  Forall2 (fun p txn => entity_txn (id p) txn) ps txns.

(** What a loop over the parks does to the catalog when each round either
    commits the transaction of its park or raises SQLite's error without
    committing anything. *)
Definition round_ok (body : park -> py world unit) : Prop :=
  forall p w r w',
    body p w = (r, w') ->
    match r with
    | inl e => e = SqliteError /\ disk w' = disk w /\ commits w' = commits w
    | inr _ => exists txn, entity_txn (id p) txn
                           /\ disk w' = exec_all (disk w) txn
                           /\ commits w' = commits w ++ [txn]
    end.

Lemma for_each_rounds (body : park -> py world unit) (ps : list park) (w : world)
    (r : exn + unit) (w' : world) :
  round_ok body ->
  for_each ps body w = (r, w') ->
  exists saved txns,
    saved `prefix_of` ps
    /\ one_txn_per_park saved txns
    /\ commits w' = commits w ++ txns
    /\ disk w' = foldl exec_all (disk w) txns
    /\ match r with
       | inr _ => saved = ps
       | inl e => e = SqliteError /\ saved <> ps
       end.
Proof.
  intros Hbody. revert w. induction ps as [|p ps IH]; intros w; cbn [for_each].
  - intros E. inversion E; subst. exists [], []. rewrite app_nil_r.
    repeat split; auto. constructor.
  - intros E. apply bind_inv in E as [(e & E1 & ->)|([] & w1 & E1 & E)].
    + apply Hbody in E1 as (-> & D & C). exists [], []. rewrite app_nil_r.
      repeat split; auto; [apply prefix_nil|constructor].
    + apply Hbody in E1 as (txn & Ht & D1 & C1).
      apply IH in E as (saved & txns & Hpre & Hall & C & D & Hr).
      exists (p :: saved), (txn :: txns). split; [by apply prefix_cons|].
      split; [by constructor|]. split; [rewrite C, C1, <- app_assoc; reflexivity|].
      split; [rewrite D, D1; reflexivity|].
      destruct r as [e|?]; [|congruence].
      destruct Hr as [-> Hne]. split; [reflexivity|congruence].
Qed.

End IngestFacts.

(* ===================================================================== *)
(** * Facts: fetch_assets_mvp.py                                          *)
(* ===================================================================== *)

Module FetchAssetsMvpFacts.
Import Json Sqlite Ingest IngestFacts FetchAssetsMvp.

Section WithLib.
Context `{Lib}.

(** ** The provider and image steps swallow their errors *)

Lemma fetch_unsplash_photos_never_raises park_name count :
  never_raises (fetch_unsplash_photos park_name count).
Proof. apply try_except_never_raises. Qed.

Lemma fetch_nps_data_never_raises park_code : never_raises (fetch_nps_data park_code).
Proof. apply try_except_never_raises. Qed.

Lemma fetch_nasa_satellite_image_never_raises lat lon :
  never_raises (fetch_nasa_satellite_image lat lon).
Proof. apply try_except_never_raises. Qed.

Lemma download_and_process_image_never_raises url park_id image_type :
  never_raises (download_and_process_image url park_id image_type).
Proof. apply try_except_never_raises. Qed.

(** ... and none of them writes to the catalog. *)

Lemma keeps_unsplash_photo item : keeps_catalog (unsplash_photo item).
Proof. unfold unsplash_photo. keeps. Qed.

Lemma keeps_fetch_unsplash_photos park_name count :
  keeps_catalog (fetch_unsplash_photos park_name count).
Proof. unfold fetch_unsplash_photos. keeps. Qed.

Lemma keeps_fetch_nps_data park_code : keeps_catalog (fetch_nps_data park_code).
Proof. unfold fetch_nps_data. keeps. Qed.

Lemma keeps_fetch_nasa_satellite_image lat lon :
  keeps_catalog (fetch_nasa_satellite_image lat lon).
Proof. unfold fetch_nasa_satellite_image. keeps. Qed.

Lemma keeps_download_and_process_image url park_id image_type :
  keeps_catalog (download_and_process_image url park_id image_type).
Proof. unfold download_and_process_image. keeps. Qed.

(** ** The catalog write *)

Lemma save_photo_inv park_id txn ph w r w' :
  save_photo park_id txn ph w = (r, w') ->
  disk w' = disk w /\ commits w' = commits w
  /\ match r with
     | inl e => e = SqliteError
     | inr txn' => txn' = txn
                   \/ exists i, txn' = txn ++ [InsertImage i] /\ i_park_id i = park_id
     end.
Proof.
  unfold save_photo. intros E.
  apply bind_inv in E as [(e & E1 & ->)|(done & w1 & E1 & E)].
  { destruct (download_and_process_image_never_raises (ph_url ph) park_id "photo" w)
      as [a Ha]. rewrite E1 in Ha. discriminate. }
  destruct (keeps_run _ _ _ _ (keeps_download_and_process_image _ _ _) E1) as [D1 C1].
  destruct done as [pr|].
  - apply bind_inv in E as [(e & E2 & ->)|(t & w2 & E2 & E)]; [discriminate|].
    inversion E2; subst w2 t; clear E2.
    apply bind_inv in E as [(e & E3 & ->)|(url_v & w3 & E3 & E)].
    + destruct (ph_url ph); cbn in E3; inversion E3; subst; auto.
    + assert (w3 = w1) as -> by (destruct (ph_url ph); cbn in E3; by inversion E3).
      apply execute_inv in E as (D & C & [->| ->]).
      * repeat split; congruence.
      * split; [congruence|]. split; [congruence|]. right. eexists. split; reflexivity.
  - inversion E; subst. auto.
Qed.

Lemma save_photos_inv park_id photos txn w r w' :
  fold_py (save_photo park_id) photos txn w = (r, w') ->
  disk w' = disk w /\ commits w' = commits w
  /\ match r with
     | inl e => e = SqliteError
     | inr txn' => exists inserts,
                     txn' = txn ++ map InsertImage inserts
                     /\ Forall (fun i => i_park_id i = park_id) inserts
                     /\ (length inserts <= length photos)%nat
     end.
Proof.
  revert txn w. induction photos as [|ph photos IH]; intros txn w; cbn [fold_py].
  - intros E. inversion E; subst. repeat split; auto.
    exists []. cbn. rewrite app_nil_r. repeat split; auto.
  - intros E. apply bind_inv in E as [(e & E1 & ->)|(txn1 & w1 & E1 & E)].
    + apply save_photo_inv in E1 as (D & C & He). auto.
    + apply save_photo_inv in E1 as (D1 & C1 & H1).
      apply IH in E as (D & C & Hr).
      split; [congruence|]. split; [congruence|].
      destruct r as [e|txn']; [exact Hr|].
      destruct Hr as (inserts & -> & Hall & Hlen).
      destruct H1 as [->|(i & -> & Hi)].
      * exists inserts. repeat split; auto. cbn. lia.
      * exists (i :: inserts). cbn [map]. rewrite <- app_assoc. repeat split; auto.
        cbn. lia.
Qed.

Lemma park_statement_inv p nps t w r w' :
  park_statement p nps t w = (r, w') ->
  w' = w
  /\ (r = inl SqliteError
      \/ exists row, r = inr (InsertOrReplacePark row) /\ p_id row = id p).
Proof.
  unfold park_statement, bind, lift, raise, ret.
  set (j1 := match nps with Some d => description d | None => JStr (summary p) end).
  set (j2 := match nps with Some d => weather_info d | None => JStr "" end).
  destruct (bind_param j1) as [e1|sv] eqn:E1.
  { intros E; inversion E; subst. apply bind_param_error in E1 as ->.
    split; [reflexivity|by left]. }
  destruct (bind_param j2) as [e2|cv] eqn:E2.
  { intros E; inversion E; subst. apply bind_param_error in E2 as ->.
    split; [reflexivity|by left]. }
  intros E; inversion E; subst. split; [reflexivity|]. right. eexists. split; reflexivity.
Qed.

(** One call of [save_park_data]: if it returns, exactly one transaction was
    committed, made of the upsert of the park followed by the inserts of its
    images; if it raises, nothing was committed. *)
Lemma save_park_data_inv p photos nps satellite w r w' :
  save_park_data p photos nps satellite w = (r, w') ->
  match r with
  | inl e => e = SqliteError /\ disk w' = disk w /\ commits w' = commits w
  | inr _ => exists txn,
               entity_txn (id p) txn
               /\ (length txn <= 1 + length photos)%nat
               /\ disk w' = exec_all (disk w) txn
               /\ commits w' = commits w ++ [txn]
  end.
Proof.
  unfold save_park_data. intros E.
  apply bind_inv in E as [(e & E1 & ->)|(t & w1 & E1 & E)]; [discriminate|].
  inversion E1; subst w1 t; clear E1.
  apply bind_inv in E as [(e & E2 & ->)|(upsert & w2 & E2 & E)].
  { apply park_statement_inv in E2 as (-> & [[= ->]|(row & [=] & _)]). auto. }
  apply park_statement_inv in E2 as (-> & [[=]|(row & [= ->] & Hrow)]).
  apply bind_inv in E as [(e & E3 & ->)|(txn & w3 & E3 & E)].
  { apply execute_inv in E3 as (D & C & [[=]|[=]]). subst. auto. }
  apply execute_inv in E3 as (D3 & C3 & [[=]|[= ->]]).
  apply bind_inv in E as [(e & E4 & ->)|(txn' & w4 & E4 & E)].
  { apply save_photos_inv in E4 as (D & C & ->). split; [reflexivity|]. split; congruence. }
  apply save_photos_inv in E4 as (D4 & C4 & inserts & -> & Hall & Hlen).
  apply commit_inv in E as [(-> & D & C)|(-> & D & C)].
  - split; [reflexivity|]. split; congruence.
  - eexists. split; [|split; [|split; [rewrite D, D4, D3; reflexivity
                                     |rewrite C, C4, C3; reflexivity]]].
    + exists row, inserts. cbn. auto.
    + cbn. rewrite length_map. lia.
Qed.

Lemma process_park_round : round_ok process_park.
Proof.
  intros p w r w' E. unfold process_park in E.
  apply bind_quiet in E as (photos & w1 & _ & E & D1 & C1);
    [|apply fetch_unsplash_photos_never_raises|apply keeps_fetch_unsplash_photos].
  apply bind_quiet in E as ([] & w2 & _ & E & D2 & C2);
    [|apply never_raises_sleep|apply keeps_sleep].
  apply bind_quiet in E as (nps & w3 & _ & E & D3 & C3);
    [|apply fetch_nps_data_never_raises|apply keeps_fetch_nps_data].
  apply bind_quiet in E as ([] & w4 & _ & E & D4 & C4);
    [|apply never_raises_sleep|apply keeps_sleep].
  apply bind_quiet in E as (sat & w5 & _ & E & D5 & C5);
    [|apply fetch_nasa_satellite_image_never_raises|apply keeps_fetch_nasa_satellite_image].
  apply bind_quiet in E as ([] & w6 & _ & E & D6 & C6);
    [|apply never_raises_sleep|apply keeps_sleep].
  apply save_park_data_inv in E.
  assert (Dw : disk w6 = disk w) by congruence.
  assert (Cw : commits w6 = commits w) by congruence.
  destruct r as [e|u].
  - destruct E as (-> & D & C). split; [reflexivity|]. split; congruence.
  - destruct E as (txn & Ht & _ & D & C). exists txn. split; [exact Ht|].
    split; congruence.
Qed.


(** ** The derivatives of an image *)

(** A derivative of size [d] made for the box [box] from a source of size
    [size]: inside the box, not larger than the source, at least one pixel,
    proportions kept up to one pixel. *)
Definition fits_preset (d box size : Z * Z) : Prop :=
  (1 <= d.1 <= box.1)%Z /\ (1 <= d.2 <= box.2)%Z
  /\ (d.1 <= size.1)%Z /\ (d.2 <= size.2)%Z
  /\ PillowFacts.aspect_within_one_pixel size.1 size.2 d.1 d.2.

Lemma thumbnail_fits (size : Z * Z) (pixels : raster) (box : Z * Z) :
  (1 <= size.1)%Z -> (1 <= size.2)%Z -> (1 <= box.1)%Z -> (1 <= box.2)%Z ->
  fits_preset (thumbnail size pixels box).1 box size.
Proof.
  intros H1 H2 H3 H4. unfold thumbnail, fits_preset. cbn [fst snd].
  destruct (PillowFacts.thumbnail_size_bounds size.1 size.2 box.1 box.2 H1 H2 H3 H4)
    as (A & B & C & D & E).
  auto.
Qed.

(** What a successful call of [download_and_process_image] returns and
    writes: the three derivatives of [sizes], in that order, and the
    placeholder made from the tiny version. *)
Lemma download_and_process_image_ok (u : string) (park_id : Z) (image_type : string)
    (w : world) (reply : net_reply) (rest : list net_reply) (resp : http_response)
    (size : Z * Z) (pixels : raster) (original medium thumb tiny : bytes) :
  pending w = reply :: rest ->
  answer reply = Some resp ->
  (400 <=? status_code resp) && (status_code resp <? 600) = false ->
  image_open (content resp) = Some (size, pixels) ->
  save_jpeg (thumbnail size pixels (1920, 1080)).1
            (thumbnail size pixels (1920, 1080)).2 85 = Some original ->
  save_jpeg (thumbnail size pixels (800, 600)).1
            (thumbnail size pixels (800, 600)).2 85 = Some medium ->
  save_jpeg (thumbnail size pixels (400, 300)).1
            (thumbnail size pixels (400, 300)).2 85 = Some thumb ->
  save_jpeg (tiny_version size pixels).1 (tiny_version size pixels).2 20 = Some tiny ->
  let fname := image_filename u park_id image_type in
  (download_and_process_image (JStr u) park_id image_type w).1
  = inr (Some (Processed fname ("data:image/jpeg;base64," +:+ b64encode tiny)
                 size.1 size.2))
  /\ files (download_and_process_image (JStr u) park_id image_type w).2
     = <[output_dir +:+ "/" +:+ "thumb" +:+ "_" +:+ fname := thumb]>
         (<[output_dir +:+ "/" +:+ "medium" +:+ "_" +:+ fname := medium]>
            (<[output_dir +:+ "/" +:+ "original" +:+ "_" +:+ fname := original]>
               (files w))).
Proof.
  intros Hp Ha Hst Himg H1 H2 H3 Ht fname.
  unfold download_and_process_image, try_except, bind, requests_get, raise_for_status.
  cbn [ret log_call pending]. rewrite Hp, Ha, Hst. cbn [ret lift_opt].
  rewrite Himg. cbn [ret lift_opt for_each sizes bind fst snd].
  unfold bind. rewrite H1. cbn [lift_opt ret modify]. rewrite H2. cbn [lift_opt ret modify].
  rewrite H3. cbn [lift_opt ret modify]. unfold blur_placeholder. rewrite Ht.
  cbn. split; reflexivity.
Qed.

(** C4.  For every decoded source of at least one pixel in each direction:
    each derivative made for a preset of [sizes] fits inside the preset's
    box, is not larger than the source in either direction (no upscaling) and
    keeps the source proportions up to one pixel; the tiny version is at most
    20 pixels in its larger direction, and the placeholder is the base64 text
    of its JPEG encoding at quality 20 behind the prefix of an inline image;
    a successful [download_and_process_image] writes these derivatives,
    encoded at quality 85, and returns this placeholder. *)
Theorem derivatives_fit_their_presets (size : Z * Z) (pixels : raster) :
  (1 <= size.1)%Z -> (1 <= size.2)%Z ->
  Forall (fun entry => fits_preset (thumbnail size pixels entry.2).1 entry.2 size) sizes
  /\ fits_preset (tiny_version size pixels).1 (20, 20) size
  /\ (Z.max (tiny_version size pixels).1.1 (tiny_version size pixels).1.2 <= 20)%Z
  /\ blur_placeholder size pixels
     = (fun data => "data:image/jpeg;base64," +:+ b64encode data)
         <$> save_jpeg (tiny_version size pixels).1 (tiny_version size pixels).2 20
  /\ (forall u park_id image_type w reply rest resp original medium thumb tiny,
        pending w = reply :: rest ->
        answer reply = Some resp ->
        (400 <=? status_code resp) && (status_code resp <? 600) = false ->
        image_open (content resp) = Some (size, pixels) ->
        save_jpeg (thumbnail size pixels (1920, 1080)).1
                  (thumbnail size pixels (1920, 1080)).2 85 = Some original ->
        save_jpeg (thumbnail size pixels (800, 600)).1
                  (thumbnail size pixels (800, 600)).2 85 = Some medium ->
        save_jpeg (thumbnail size pixels (400, 300)).1
                  (thumbnail size pixels (400, 300)).2 85 = Some thumb ->
        save_jpeg (tiny_version size pixels).1 (tiny_version size pixels).2 20
        = Some tiny ->
        (download_and_process_image (JStr u) park_id image_type w).1
        = inr (Some (Processed (image_filename u park_id image_type)
                       ("data:image/jpeg;base64," +:+ b64encode tiny) size.1 size.2))
        /\ Forall (fun entry =>
             files (download_and_process_image (JStr u) park_id image_type w).2
               !! (output_dir +:+ "/" +:+ entry.1 +:+ "_"
                   +:+ image_filename u park_id image_type)
             = save_jpeg (thumbnail size pixels entry.2).1
                         (thumbnail size pixels entry.2).2 85) sizes).
Proof.
  intros Hw Hh.
  assert (Htiny : fits_preset (tiny_version size pixels).1 (20, 20) size)
    by (apply thumbnail_fits; cbn; lia).
  split.
  { unfold sizes. repeat (apply Forall_cons_2; [apply thumbnail_fits; cbn; lia|]).
    apply Forall_nil_2. }
  split; [exact Htiny|]. split.
  { destruct Htiny as (A & B & _). cbn [fst snd] in A, B. lia. }
  split; [reflexivity|].
  intros u park_id image_type w reply rest resp original medium thumb tiny
         Hp Ha Hst Himg H1 H2 H3 Ht.
  destruct (download_and_process_image_ok u park_id image_type w reply rest resp
              size pixels original medium thumb tiny Hp Ha Hst Himg H1 H2 H3 Ht)
    as [Hr Hf].
  split; [exact Hr|]. rewrite Hf.
  unfold sizes.
  apply Forall_cons_2; [|apply Forall_cons_2; [|apply Forall_cons_2; [|apply Forall_nil_2]]];
    cbn [fst snd].
  - rewrite H1, lookup_insert_ne, lookup_insert_ne, lookup_insert_eq; [done| |];
      intros E; cbv -[image_filename] in E; discriminate E.
  - rewrite H2, lookup_insert_ne, lookup_insert_eq; [done|].
    intros E; cbv -[image_filename] in E; discriminate E.
  - by rewrite H3, lookup_insert_eq.
Qed.

End WithLib.

End FetchAssetsMvpFacts.

(* ===================================================================== *)
(** * Facts: fetch_world_parks_data.py                                    *)
(* ===================================================================== *)

Module FetchWorldParksFacts.
Import Json Sqlite Ingest IngestFacts FetchWorldParks.

Section WithLib.
Context `{Lib}.

Lemma validate_location_with_nasa_never_raises lat lon :
  never_raises (validate_location_with_nasa lat lon).
Proof. apply try_except_never_raises. Qed.

Lemma fetch_nps_images_never_raises park_code : never_raises (fetch_nps_images park_code).
Proof. apply try_except_never_raises. Qed.

Lemma world_unsplash_photos_never_raises park_name country count :
  never_raises (fetch_unsplash_photos park_name country count).
Proof. apply try_except_never_raises. Qed.

Lemma generate_blur_hash_never_raises image_url : never_raises (generate_blur_hash image_url).
Proof. apply try_except_never_raises. Qed.

Lemma keeps_validate_location_with_nasa lat lon :
  keeps_catalog (validate_location_with_nasa lat lon).
Proof. unfold validate_location_with_nasa, nasa_image_lookup, save_nasa_image. keeps. Qed.

Lemma keeps_fetch_nps_images park_code : keeps_catalog (fetch_nps_images park_code).
Proof. unfold fetch_nps_images. keeps. Qed.

Lemma keeps_world_unsplash_photos park_name country count :
  keeps_catalog (fetch_unsplash_photos park_name country count).
Proof. unfold fetch_unsplash_photos. keeps. Qed.

Lemma keeps_generate_blur_hash image_url : keeps_catalog (generate_blur_hash image_url).
Proof. unfold generate_blur_hash. keeps. Qed.

(** A round of one of the three insert loops: the open transaction is
    extended by at most one insert for the park, or SQLite's error is raised. *)
Definition insert_round {A} (park_id : Z) (round : list stmt -> A -> py world (list stmt))
  : Prop :=
  forall txn x w r w',
    round txn x w = (r, w') ->
    disk w' = disk w /\ commits w' = commits w
    /\ match r with
       | inl e => e = SqliteError
       | inr txn' => exists i, txn' = txn ++ [InsertImage i] /\ i_park_id i = park_id
       end.

Lemma fold_insert_rounds {A} park_id (round : list stmt -> A -> py world (list stmt))
    (xs : list A) txn w r w' :
  insert_round park_id round ->
  fold_py round xs txn w = (r, w') ->
  disk w' = disk w /\ commits w' = commits w
  /\ match r with
     | inl e => e = SqliteError
     | inr txn' => exists inserts,
                     txn' = txn ++ map InsertImage inserts
                     /\ Forall (fun i => i_park_id i = park_id) inserts
                     /\ length inserts = length xs
     end.
Proof.
  intros Hround. revert txn w. induction xs as [|x xs IH]; intros txn w; cbn [fold_py].
  - intros E. inversion E; subst. repeat split; auto.
    exists []. cbn. rewrite app_nil_r. repeat split; auto.
  - intros E. apply bind_inv in E as [(e & E1 & ->)|(txn1 & w1 & E1 & E)].
    + apply Hround in E1 as (D & C & He). auto.
    + apply Hround in E1 as (D1 & C1 & i & -> & Hi).
      apply IH in E as (D & C & Hr).
      split; [congruence|]. split; [congruence|].
      destruct r as [e|txn']; [exact Hr|].
      destruct Hr as (inserts & -> & Hall & Hlen).
      exists (i :: inserts). cbn [map]. rewrite <- app_assoc. repeat split; auto.
      cbn. lia.
Qed.

Lemma save_nps_image_round park_id : insert_round park_id (save_nps_image park_id).
Proof.
  intros txn img w r w' E. unfold save_nps_image in E.
  apply bind_quiet in E as (blur & w1 & _ & E & D1 & C1);
    [|apply generate_blur_hash_never_raises|apply keeps_generate_blur_hash].
  apply bind_inv in E as [(e & E2 & ->)|(t & w2 & E2 & E)]; [discriminate|].
  inversion E2; subst w2 t; clear E2.
  apply bind_inv in E as [(e & E3 & ->)|(url_v & w3 & E3 & E)].
  - apply lift_bind_param_inv in E3 as (-> & [[= ->]|(v & [=])]). auto.
  - apply lift_bind_param_inv in E3 as (-> & _).
    apply execute_inv in E as (D & C & [->| ->]).
    + repeat split; congruence.
    + split; [congruence|]. split; [congruence|]. eexists. split; reflexivity.
Qed.

Lemma save_unsplash_photo_round park_id : insert_round park_id (save_unsplash_photo park_id).
Proof.
  intros txn ph w r w' E. unfold save_unsplash_photo in E.
  apply bind_inv in E as [(e & E2 & ->)|(t & w2 & E2 & E)]; [discriminate|].
  inversion E2; subst w2 t; clear E2.
  apply bind_inv in E as [(e & E3 & ->)|(url_v & w3 & E3 & E)];
    apply lift_bind_param_inv in E3 as (-> & [[= ->]|(v1 & [=])]); auto.
  apply bind_inv in E as [(e & E3 & ->)|(blur_v & w3 & E3 & E)];
    apply lift_bind_param_inv in E3 as (-> & [[= ->]|(v2 & [=])]); auto.
  apply bind_inv in E as [(e & E3 & ->)|(wv & w3 & E3 & E)];
    apply lift_bind_param_inv in E3 as (-> & [[= ->]|(v3 & [=])]); auto.
  apply bind_inv in E as [(e & E3 & ->)|(hv & w3 & E3 & E)];
    apply lift_bind_param_inv in E3 as (-> & [[= ->]|(v4 & [=])]); auto.
  apply execute_inv in E as (D & C & [->| ->]).
  - repeat split; congruence.
  - split; [congruence|]. split; [congruence|]. eexists. split; reflexivity.
Qed.

(** How many rows [save_park_data] inserts for the satellite image. *)
Definition satellite_rows (satellite_url : option string) : nat :=
  match satellite_url with
  | Some url => if String.eqb url "" then 0 else 1
  | None => 0
  end.

Lemma save_satellite_inv park_id txn satellite_url w r w' :
  save_satellite park_id txn satellite_url w = (r, w') ->
  disk w' = disk w /\ commits w' = commits w
  /\ match r with
     | inl e => e = SqliteError
     | inr txn' => exists inserts,
                     txn' = txn ++ map InsertImage inserts
                     /\ Forall (fun i => i_park_id i = park_id) inserts
                     /\ length inserts = satellite_rows satellite_url
     end.
Proof.
  unfold save_satellite, satellite_rows. intros E.
  destruct satellite_url as [url|]; [destruct (String.eqb url "")|].
  - inversion E; subst. repeat split; auto. exists []. cbn. rewrite app_nil_r. auto.
  - apply bind_inv in E as [(e & E2 & ->)|(t & w2 & E2 & E)]; [discriminate|].
    inversion E2; subst w2 t; clear E2.
    apply execute_inv in E as (D & C & [->| ->]); [auto|].
    repeat split; auto. eexists [_]. cbn. repeat split; auto.
  - inversion E; subst. repeat split; auto. exists []. cbn. rewrite app_nil_r. auto.
Qed.

(** One call of [save_park_data]: if it returns, exactly one transaction was
    committed: the upsert of the park, then one insert per NPS image, per
    Unsplash photo and for the satellite image; if it raises, nothing was
    committed. *)
Lemma world_save_park_data_inv p nps_images unsplash_photos nasa_validated satellite_url
    w r w' :
  save_park_data p nps_images unsplash_photos nasa_validated satellite_url w = (r, w') ->
  match r with
  | inl e => e = SqliteError /\ disk w' = disk w /\ commits w' = commits w
  | inr _ => exists txn,
               entity_txn (id p) txn
               /\ length txn = (1 + length nps_images + length unsplash_photos
                                + satellite_rows satellite_url)%nat
               /\ disk w' = exec_all (disk w) txn
               /\ commits w' = commits w ++ [txn]
  end.
Proof.
  unfold save_park_data. intros E.
  apply bind_inv in E as [(e & E1 & ->)|(t & w1 & E1 & E)]; [discriminate|].
  inversion E1; subst w1 t; clear E1.
  apply bind_inv in E as [(e & E3 & ->)|(txn & w3 & E3 & E)].
  { apply execute_inv in E3 as (D & C & [[=]|[=]]). subst. auto. }
  apply execute_inv in E3 as (D3 & C3 & [[=]|[= ->]]).
  apply bind_inv in E as [(e & E4 & ->)|(txn1 & w4 & E4 & E)].
  { apply (fold_insert_rounds (id p)) in E4 as (D & C & ->);
      [|apply save_nps_image_round]. split; [reflexivity|]. split; congruence. }
  apply (fold_insert_rounds (id p)) in E4 as (D4 & C4 & ins1 & -> & Hall1 & Hlen1);
    [|apply save_nps_image_round].
  apply bind_inv in E as [(e & E5 & ->)|(txn2 & w5 & E5 & E)].
  { apply (fold_insert_rounds (id p)) in E5 as (D & C & ->);
      [|apply save_unsplash_photo_round]. split; [reflexivity|]. split; congruence. }
  apply (fold_insert_rounds (id p)) in E5 as (D5 & C5 & ins2 & -> & Hall2 & Hlen2);
    [|apply save_unsplash_photo_round].
  apply bind_inv in E as [(e & E6 & ->)|(txn3 & w6 & E6 & E)].
  { apply save_satellite_inv in E6 as (D & C & ->). split; [reflexivity|]. split; congruence. }
  apply save_satellite_inv in E6 as (D6 & C6 & ins3 & -> & Hall3 & Hlen3).
  apply commit_inv in E as [(-> & D & C)|(-> & D & C)].
  - split; [reflexivity|]. split; congruence.
  - eexists. split; [|split; [|split; [rewrite D, D6, D5, D4, D3; reflexivity
                                     |rewrite C, C6, C5, C4, C3; reflexivity]]].
    + unfold park_statement. eexists _, (ins1 ++ ins2 ++ ins3).
      split.
      { cbn. rewrite !map_app, <- !app_assoc. reflexivity. }
      split; [reflexivity|].
      repeat (apply Forall_app; split); assumption.
    + cbn. rewrite !length_app, !length_map. lia.
Qed.

Lemma world_process_park_round : round_ok process_park.
Proof.
  intros p w r w' E. unfold process_park in E.
  apply bind_quiet in E as (validated & w1 & _ & E & D1 & C1);
    [|apply validate_location_with_nasa_never_raises|apply keeps_validate_location_with_nasa].
  apply bind_quiet in E as ([] & w2 & _ & E & D2 & C2);
    [|apply never_raises_sleep|apply keeps_sleep].
  apply bind_quiet in E as (nps_images & w3 & _ & E & D3 & C3).
  2:{ destruct (String.eqb (country p) "United States").
      - intros w0. unfold bind.
        destruct (fetch_nps_images_never_raises (nps_code_of (code p)) w0) as [a Ha].
        destruct (fetch_nps_images _ w0) as [[e|imgs] w0']; cbn in *; [discriminate|].
        eauto.
      - intros w0. eexists. reflexivity. }
  2:{ destruct (String.eqb (country p) "United States"); keeps. }
  apply bind_quiet in E as (photos & w4 & _ & E & D4 & C4);
    [|apply world_unsplash_photos_never_raises|apply keeps_world_unsplash_photos].
  apply bind_quiet in E as ([] & w5 & _ & E & D5 & C5);
    [|apply never_raises_sleep|apply keeps_sleep].
  apply world_save_park_data_inv in E.
  assert (Dw : disk w5 = disk w) by congruence.
  assert (Cw : commits w5 = commits w) by congruence.
  destruct r as [e|u].
  - destruct E as (-> & D & C). split; [reflexivity|]. split; congruence.
  - destruct E as (txn & Ht & _ & D & C). exists txn. split; [exact Ht|].
    split; congruence.
Qed.

(** ** The NASA step *)

(** The two NASA requests of one validation: the second leaves as soon as
    the first is answered. *)
Lemma nasa_second_request_follows_at_once (lat lon : Q) (w : world)
    (r1 r2 : net_reply) (rest : list net_reply) (resp : http_response)
    (fields : list (string * json)) (n : Z) :
  pending w = r1 :: r2 :: rest ->
  answer r1 = Some resp ->
  status_code resp = 200 ->
  json_body resp = Some (JObj fields) ->
  assoc "count" fields = Some (JInt n) ->
  (0 < n)%Z ->
  calls (validate_location_with_nasa lat lon w).2
  = calls w ++ [Call Nasa "https://api.nasa.gov/planetary/earth/assets" (clock w);
                Call Nasa "https://api.nasa.gov/planetary/earth/imagery"
                     (clock w + Z.of_nat (latency r1))].
Proof.
  intros Hp Ha Hst Hj Hc Hn.
  unfold validate_location_with_nasa, nasa_image_lookup, try_except, bind, requests_get,
    response_json, save_nasa_image, bind.
  cbn. rewrite Hp, Ha. cbn. rewrite Hst. cbn. rewrite Hj. cbn. rewrite Hc. cbn.
  apply Z.ltb_lt in Hn. rewrite Hn. cbn.
  destruct (answer r2) as [img|]; cbn; [|by rewrite <- app_assoc].
  destruct ((status_code img =? 200)%Z && is_image img); cbn; by rewrite <- app_assoc.
Qed.

(** [time.sleep(0)] changes nothing. *)
Lemma sleep_zero (w : world) : sleep 0 w = (inr tt, w).
Proof.
  unfold sleep, modify, advance. destruct w; cbn. by rewrite Z.add_0_r.
Qed.

(** C10.  [validate_location_with_nasa] always returns.  Its flag is
    [False] exactly when an exception was raised while the request was made
    and handled (inside the [try]), and then no url comes with it; in
    particular a request that gets no answer gives [(False, None)].  Without
    an exception the flag is [True] whatever the provider said: an answer
    with a status other than 200 gives [(True, None)], and so does a 200
    answer that reports no asset (no [count], or a count of zero or less). *)
Theorem nasa_flag_only_tells_no_exception (lat lon : Q) (w : world) :
  (exists flag url,
      (validate_location_with_nasa lat lon w).1 = inr (flag, url)
      /\ (flag = false <-> exists e, (nasa_image_lookup lat lon w).1 = inl e)
      /\ (flag = false -> url = None))
  /\ (forall reply rest resp,
        pending w = reply :: rest -> answer reply = Some resp ->
        status_code resp <> 200 ->
        (validate_location_with_nasa lat lon w).1 = inr (true, None))
  /\ (forall reply rest resp fields,
        pending w = reply :: rest -> answer reply = Some resp ->
        status_code resp = 200 -> json_body resp = Some (JObj fields) ->
        (assoc "count" fields = None
         \/ exists n, assoc "count" fields = Some (JInt n) /\ (n <= 0)%Z) ->
        (validate_location_with_nasa lat lon w).1 = inr (true, None))
  /\ (forall reply rest,
        pending w = [] \/ (pending w = reply :: rest /\ answer reply = None) ->
        (validate_location_with_nasa lat lon w).1 = inr (false, None)).
Proof.
  split.
  { unfold validate_location_with_nasa, try_except, bind.
    destruct (nasa_image_lookup lat lon w) as [[e|[path|]] w1]; cbn.
    - exists false, None. repeat split; eauto.
    - exists true, (Some path). repeat split; try discriminate.
      intros [e He]. discriminate.
    - exists true, None. repeat split; try discriminate.
      intros [e He]. discriminate. }
  split.
  { intros reply rest resp Hp Ha Hst.
    unfold validate_location_with_nasa, nasa_image_lookup, try_except, bind, requests_get.
    cbn. rewrite Hp, Ha. cbn.
    apply Z.eqb_neq in Hst. rewrite Hst. reflexivity. }
  split.
  { intros reply rest resp fields Hp Ha Hst Hj Hc.
    unfold validate_location_with_nasa, nasa_image_lookup, try_except, bind, requests_get,
      response_json.
    cbn. rewrite Hp, Ha. cbn. rewrite Hst. cbn. rewrite Hj. cbn.
    destruct Hc as [->|(n & -> & Hn)]; cbn; [reflexivity|].
    apply Z.ltb_ge in Hn. rewrite Hn. reflexivity. }
  intros reply rest [Hp|[Hp Ha]];
    unfold validate_location_with_nasa, nasa_image_lookup, try_except, bind, requests_get;
    cbn; rewrite Hp; [reflexivity|]. rewrite Ha. reflexivity.
Qed.

End WithLib.

End FetchWorldParksFacts.

(* ===================================================================== *)
(** * The catalog writer: what a run commits                              *)
(* ===================================================================== *)

Module CatalogFacts.
Import Json Sqlite Ingest IngestFacts Examples.

(** ** Inserts append *)

Lemma image_rows_app (txn txn' : list stmt) :
  image_rows (txn ++ txn') = image_rows txn ++ image_rows txn'.
Proof. unfold image_rows. apply omap_app. Qed.

Lemma exec_all_images (db : database) (txn : list stmt) :
  images (exec_all db txn) = images db ++ image_rows txn.
Proof.
  unfold exec_all. revert db. induction txn as [|s txn IH]; intros db; cbn [foldl].
  - cbn. by rewrite app_nil_r.
  - rewrite IH. destruct s as [row|row]; cbn; [reflexivity|].
    rewrite <- app_assoc. reflexivity.
Qed.

Lemma exec_commits_images (db : database) (txns : list (list stmt)) :
  images (foldl exec_all db txns) = images db ++ image_rows (concat txns).
Proof.
  revert db. induction txns as [|txn txns IH]; intros db; cbn [foldl concat].
  - cbn. by rewrite app_nil_r.
  - rewrite IH, exec_all_images, image_rows_app, app_assoc. reflexivity.
Qed.

(** ** Entities before their assets

    Going through the statements in the order they were committed, every
    image row refers to a park upserted before it. *)
Fixpoint entities_first (seen : list Z) (log : list stmt) : Prop :=
  match log with
  | [] => True
  | InsertOrReplacePark row :: rest => entities_first (p_id row :: seen) rest
  | InsertImage row :: rest => i_park_id row ∈ seen /\ entities_first seen rest
  end.

Definition referential_order (log : list (list stmt)) : Prop :=
  entities_first [] (concat log).

Lemma entities_first_mono (seen seen' : list Z) (log : list stmt) :
  seen ⊆ seen' -> entities_first seen log -> entities_first seen' log.
Proof.
  revert seen seen'. induction log as [|[row|row] log IH]; intros seen seen' Hsub; cbn.
  - done.
  - apply IH. intros x Hx. apply elem_of_cons in Hx as [->|Hx].
    + apply elem_of_cons. by left.
    + apply elem_of_cons. right. by apply Hsub.
  - intros [Hin Hrest]. split; [by apply Hsub|by eapply IH].
Qed.

Lemma entities_first_app (seen : list Z) (log log' : list stmt) :
  entities_first seen log ->
  (forall seen', entities_first seen' log') ->
  entities_first seen (log ++ log').
Proof.
  revert seen. induction log as [|[row|row] log IH]; intros seen; cbn.
  - intros _ H. apply H.
  - intros H1 H2. by apply IH.
  - intros [Hin H1] H2. split; [exact Hin|by apply IH].
Qed.

Lemma entity_txn_entities_first (pid : Z) (txn : list stmt) (seen : list Z) :
  entity_txn pid txn -> entities_first seen txn.
Proof.
  intros (row & inserts & -> & Hrow & Hall). cbn.
  assert (Hin : pid ∈ p_id row :: seen) by (rewrite Hrow; apply elem_of_cons; by left).
  revert Hin. generalize (p_id row :: seen). clear Hrow.
  induction Hall as [|i inserts Hi _ IH]; intros seen' Hin; cbn; [done|].
  split; [by rewrite Hi|by apply IH].
Qed.

Lemma one_txn_per_park_entities_first (ps : list park) (txns : list (list stmt))
    (seen : list Z) :
  one_txn_per_park ps txns -> entities_first seen (concat txns).
Proof.
  intros Hall. revert seen. induction Hall as [|p txn ps txns Ht _ IH]; intros seen; cbn.
  - done.
  - apply entities_first_app; [by eapply entity_txn_entities_first|apply IH].
Qed.

Lemma referential_order_app (log : list (list stmt)) (ps : list park)
    (txns : list (list stmt)) :
  referential_order log -> one_txn_per_park ps txns -> referential_order (log ++ txns).
Proof.
  unfold referential_order. intros Hlog Hall. rewrite concat_app.
  apply entities_first_app; [exact Hlog|].
  intros seen'. by eapply one_txn_per_park_entities_first.
Qed.

(** What a run of either orchestrator leaves in the catalog. *)
Definition run_commits (parks_of_run : list park) (w w' : world) : Prop :=
  exists saved txns,
    saved `prefix_of` parks_of_run
    /\ one_txn_per_park saved txns
    /\ commits w' = commits w ++ txns
    /\ disk w' = foldl exec_all (disk w) txns.

Lemma run_commits_for_each (body : park -> py world unit) (ps : list park) (w : world) :
  round_ok body -> run_commits ps w (for_each ps body w).2.
Proof.
  intros Hbody. destruct (for_each ps body w) as [r w'] eqn:E.
  destruct (for_each_rounds _ _ _ _ _ Hbody E) as (saved & txns & Hpre & Hall & C & D & _).
  exists saved, txns. auto.
Qed.



(** C1 (as amended).  The image inserts of [save_park_data] are not
    deduplicated: an insert appends its row whatever the table holds, a row
    with the same park, type and url included; a transaction, and a whole run
    of either orchestrator, adds exactly as many image rows as it has image
    statements, so committing the same asset set a second time adds its rows
    a second time. *)
Theorem image_inserts_always_append `{Lib} (all_parks : list park)
    (limit : option Z) (w : world) :
  (forall db row, images (exec db (InsertImage row)) = images db ++ [row])
  /\ (forall db txn,
        length (images (exec_all (exec_all db txn) txn))
        = (length (images db) + 2 * length (image_rows txn))%nat)
  /\ (exists txns,
        commits (FetchAssetsMvp.fetch_all_assets all_parks limit w).2 = commits w ++ txns
        /\ images (disk (FetchAssetsMvp.fetch_all_assets all_parks limit w).2)
           = images (disk w) ++ image_rows (concat txns))
  /\ (exists txns,
        commits (FetchWorldParks.fetch_all_parks_data all_parks limit w).2
        = commits w ++ txns
        /\ images (disk (FetchWorldParks.fetch_all_parks_data all_parks limit w).2)
           = images (disk w) ++ image_rows (concat txns)).
Proof.
  split; [reflexivity|]. split.
  { intros db txn. rewrite !exec_all_images, !length_app. lia. }
  split.
  - destruct (run_commits_for_each _ (FetchAssetsMvp.parks_to_process all_parks limit) w
                FetchAssetsMvpFacts.process_park_round) as (saved & txns & _ & _ & C & D).
    exists txns. split; [exact C|].
    unfold FetchAssetsMvp.fetch_all_assets. rewrite D. apply exec_commits_images.
  - destruct (run_commits_for_each _ (FetchAssetsMvp.parks_to_process all_parks limit) w
                FetchWorldParksFacts.world_process_park_round) as (saved & txns & _ & _ & C & D).
    exists txns. split; [exact C|].
    unfold FetchWorldParks.fetch_all_parks_data. rewrite D. apply exec_commits_images.
Qed.

(** The same park and the same answers of the providers, twice. *)
Definition same_answers_twice : world :=
  fresh [nasa_not_found; unsplash_one_photo; nasa_not_found; unsplash_one_photo].

Definition after_first_run : world :=
  (@FetchWorldParks.fetch_all_parks_data toy_lib [serengeti] None same_answers_twice).2.

Definition after_second_run : world :=
  (@FetchWorldParks.fetch_all_parks_data toy_lib [serengeti] None after_first_run).2.

(** The deduplication key of the specification, without the hashing. *)
Definition dedup_key (row : image_row) : Z * string * sql_value :=
  (i_park_id row, i_type row, i_url row).

(** C1, counterexample to the claim as stated: the ingestion run twice over
    the same park with the same provider answers leaves two image rows with
    the same key, where one run leaves one. *)
Lemma second_run_duplicates_the_asset :
  length (images (disk after_first_run)) = 1%nat
  /\ length (images (disk after_second_run)) = 2%nat
  /\ map dedup_key (images (disk after_second_run))
     = [(2, "photo"%string,
         SqlText "https://images.unsplash.com/photo-1?w=1920&h=1080&fit=crop&q=80");
        (2, "photo"%string,
         SqlText "https://images.unsplash.com/photo-1?w=1920&h=1080&fit=crop&q=80")]
  /\ size (parks (disk after_second_run)) = 1%nat.
Proof. vm_compute. repeat split; reflexivity. Qed.

End CatalogFacts.

(* ===================================================================== *)
(** * The orchestrators on concrete runs                                  *)
(* ===================================================================== *)

Module OrchestratorFacts.
Import Json Sqlite Ingest IngestFacts Examples.

(** ** fetch_assets_mvp.py *)

Lemma derivatives_fit_their_presets_witness :
  (Z.max (@FetchAssetsMvp.tiny_version toy_lib (4000, 3000) tt).1.1
         (@FetchAssetsMvp.tiny_version toy_lib (4000, 3000) tt).1.2 <= 20)%Z.
Proof.
  destruct (@FetchAssetsMvpFacts.derivatives_fit_their_presets toy_lib (4000, 3000) tt)
    as (_ & _ & Hmax & _).
  - cbn. lia.
  - cbn. lia.
  - exact Hmax.
Defined.


(** Yosemite first: Unsplash and NASA do not answer, NPS answers with a
    description that is a JSON object. *)
Definition structured_description_run : world :=
  fresh [no_answer; nps_structured_description; no_answer;
         unsplash_one_photo; no_answer; no_answer; image_download].


(** ** fetch_world_parks_data.py *)

(** NASA knows the place and serves an image; then Unsplash answers. *)
Definition nasa_finds_the_park : world :=
  fresh [nasa_one_asset; nasa_image; unsplash_one_photo].

(** C9, the run that breaks the claim: the two NASA requests of one
    validation start 150 ms apart, the time the first answer took, although
    [RATE_LIMIT_DELAY] asks for 2 seconds between API calls; the pause comes
    only after both. *)
Theorem nasa_requests_are_not_spaced :
  map (fun c => (call_provider c, call_time c))
      (calls (@FetchWorldParks.fetch_all_parks_data toy_lib [serengeti] None
                nasa_finds_the_park).2)
  = [(Nasa, 0%Z); (Nasa, 150%Z); (Unsplash, 2450%Z)]
  /\ (150 - 0 < 1000 * FetchWorldParks.RATE_LIMIT_DELAY)%Z.
Proof. vm_compute. split; reflexivity. Qed.

Lemma nasa_flag_only_tells_no_exception_witness :
  (@FetchWorldParks.validate_location_with_nasa toy_lib 0 0 (fresh [nasa_not_found])).1
  = inr (true, None)
  /\ (@FetchWorldParks.validate_location_with_nasa toy_lib 0 0 (fresh [nasa_no_assets])).1
     = inr (true, None)
  /\ (@FetchWorldParks.validate_location_with_nasa toy_lib 0 0 (fresh [no_answer])).1
     = inr (false, None).
Proof.
  split; [|split].
  - destruct (@FetchWorldParksFacts.nasa_flag_only_tells_no_exception toy_lib 0 0
                (fresh [nasa_not_found])) as (_ & H404 & _).
    eapply H404; [reflexivity|reflexivity|]. cbn. lia.
  - destruct (@FetchWorldParksFacts.nasa_flag_only_tells_no_exception toy_lib 0 0
                (fresh [nasa_no_assets])) as (_ & _ & Hzero & _).
    eapply Hzero; [reflexivity|reflexivity|reflexivity|reflexivity|].
    right. exists 0%Z. split; [reflexivity|lia].
  - destruct (@FetchWorldParksFacts.nasa_flag_only_tells_no_exception toy_lib 0 0
                (fresh [no_answer])) as (_ & _ & _ & Hnone).
    apply (Hnone no_answer []). right. split; reflexivity.
Defined.

End OrchestratorFacts.

(* ===================================================================== *)
(** * Facts: framing a computation by a relation between states           *)
(* ===================================================================== *)

Module Frames.

Section Steps.
Context {S : Type} (R : S -> S -> Prop) `{!Reflexive R} `{!Transitive R}.

(** Whatever the computation returns or raises, the state it leaves is
    related to the state it found. *)
Definition steps {A} (m : py S A) : Prop := forall w, R w (m w).2.

Lemma steps_ret {A} (a : A) : steps (ret a).
Proof. intros w. cbn. reflexivity. Qed.

Lemma steps_raise {A} (e : exn) : steps (@raise S A e).
Proof. intros w. cbn. reflexivity. Qed.

Lemma steps_bind {A B} (m : py S A) (k : A -> py S B) :
  steps m -> (forall a, steps (k a)) -> steps (bind m k).
Proof.
  intros Hm Hk w. unfold bind. specialize (Hm w).
  destruct (m w) as [[e|a] w1]; cbn in *; [exact Hm|].
  etransitivity; [exact Hm|apply Hk].
Qed.

Lemma steps_try {A} (body : py S A) (handler : exn -> py S A) :
  steps body -> (forall e, steps (handler e)) -> steps (try_except body handler).
Proof.
  intros Hm Hk w. unfold try_except. specialize (Hm w).
  destruct (body w) as [[e|a] w1]; cbn in *; [|exact Hm].
  etransitivity; [exact Hm|apply Hk].
Qed.

Lemma steps_lift_opt {A} (e : exn) (o : option A) : steps (lift_opt e o).
Proof. destruct o; [apply steps_ret|apply steps_raise]. Qed.

Lemma steps_for_each {A} (xs : list A) (body : A -> py S unit) :
  (forall x, steps (body x)) -> steps (for_each xs body).
Proof.
  intros Hb. induction xs as [|x xs IH]; cbn [for_each]; [apply steps_ret|].
  apply steps_bind; [apply Hb|intros _; exact IH].
Qed.

Lemma steps_map_py {A B} (f : A -> py S B) (xs : list A) :
  (forall x, steps (f x)) -> steps (map_py f xs).
Proof.
  intros Hf. induction xs as [|x xs IH]; cbn [map_py]; [apply steps_ret|].
  apply steps_bind; [apply Hf|intros y].
  apply steps_bind; [exact IH|intros ys; apply steps_ret].
Qed.

Lemma steps_fold_py {A B} (f : B -> A -> py S B) (xs : list A) (acc : B) :
  (forall b x, steps (f b x)) -> steps (fold_py f xs acc).
Proof.
  intros Hf. revert acc. induction xs as [|x xs IH]; intros acc; cbn [fold_py];
    [apply steps_ret|].
  apply steps_bind; [apply Hf|intros b; apply IH].
Qed.

Lemma steps_modify (f : S -> S) : (forall w, R w (f w)) -> steps (modify f).
Proof. intros Hf w. apply Hf. Qed.

Lemma steps_run {A} (m : py S A) (w : S) (r : exn + A) (w' : S) :
  steps m -> m w = (r, w') -> R w w'.
Proof. intros Hm E. specialize (Hm w). by rewrite E in Hm. Qed.

End Steps.

(** Goals [steps R m] for a script [m]: the structure of the script is
    followed, [prim] closes the steps that are particular to [R]. *)
Ltac frame_step prim :=
  first
    [ solve [apply steps_ret; typeclasses eauto]
    | solve [apply steps_raise; typeclasses eauto]
    | solve [apply steps_lift_opt; typeclasses eauto]
    | prim
    | apply steps_bind; [typeclasses eauto .. | | intros ?]
    | apply steps_try; [typeclasses eauto .. | | intros ?]
    | apply steps_for_each; [typeclasses eauto .. | intros ?]
    | apply steps_map_py; [typeclasses eauto .. | intros ?]
    | apply steps_fold_py; [typeclasses eauto .. | intros ? ?]
    | match goal with
      | |- steps _ (if ?b then _ else _) => destruct b
      | |- steps _ (match ?x with _ => _ end) => destruct x
      end ].

Ltac frame prim := repeat (frame_step prim).

(** ** Running a script backwards from its result *)

Lemma try_inv {S A} (body : py S A) (handler : exn -> py S A) (w : S)
    (r : exn + A) (w' : S) :
  try_except body handler w = (r, w') ->
  (exists a, body w = (inr a, w') /\ r = inr a)
  \/ (exists e w1, body w = (inl e, w1) /\ handler e w1 = (r, w')).
Proof.
  unfold try_except. destruct (body w) as [[e|a] w1]; intros E.
  - right. eauto.
  - left. exists a. by inversion E.
Qed.

(** A step that leaves the state alone. *)
Definition pure_step {S A} (m : py S A) : Prop := steps eq m.

Lemma pure_run {S A} (m : py S A) (w : S) (r : exn + A) (w' : S) :
  pure_step m -> m w = (r, w') -> w' = w.
Proof. intros Hm E. symmetry. by eapply (steps_run eq). Qed.

Lemma map_py_length {S A B} (f : A -> py S B) (xs : list A) (w : S)
    (ys : list B) (w' : S) :
  map_py f xs w = (inr ys, w') -> length ys = length xs.
Proof.
  revert w ys. induction xs as [|x xs IH]; intros w ys; cbn [map_py].
  - intros E. by inversion E.
  - intros E. apply IngestFacts.bind_inv in E as [(e & _ & [=])|(y & w1 & _ & E)].
    apply IngestFacts.bind_inv in E as [(e & _ & [=])|(ys' & w2 & E2 & E)].
    inversion E; subst. cbn. f_equal. by eapply IH.
Qed.

(** A loop keeps what each of its rounds keeps. *)
Lemma for_each_preserves {S A} (P : S -> Prop) (body : A -> py S unit) (xs : list A) :
  (forall x w, P w -> P (body x w).2) ->
  forall w, P w -> P (for_each xs body w).2.
Proof.
  intros Hb. induction xs as [|x xs IH]; intros w Hw; cbn [for_each]; [exact Hw|].
  unfold bind. specialize (Hb x w Hw).
  destruct (body x w) as [[e|[]] w1]; cbn in *; [exact Hb|]. by apply IH.
Qed.

End Frames.
(* ===================================================================== *)
(** * Facts: ingest_parks_quick.py                                        *)
(* ===================================================================== *)

Module IngestParksQuickFacts.
Import Json Sqlite Ingest IngestFacts Frames IngestParksQuick.

(** ** The mock gallery *)

(** The five predefined photos, each with its size parameters, rotated so
    that the photo of index [(park_id - 1) % 5] comes first. *)
Definition gallery (park_id : Z) : list mock_photo :=
  rotate (Z.to_nat ((park_id - 1) mod 5)) (map sized nature_photos).

Lemma get_mock_images_run (park_name : string) (park_id : Z) (w : world) :
  get_mock_images park_name park_id w = (inr (gallery park_id), w).
Proof.
  unfold get_mock_images, gallery.
  change (Z.of_nat (length nature_photos)) with 5.
  assert (Hk : (park_id - 1) mod 5 = 0 \/ (park_id - 1) mod 5 = 1
               \/ (park_id - 1) mod 5 = 2 \/ (park_id - 1) mod 5 = 3
               \/ (park_id - 1) mod 5 = 4).
  { pose proof (Z.mod_pos_bound (park_id - 1) 5 ltac:(lia)). lia. }
  destruct Hk as [-> | [-> | [-> | [-> | ->]]]]; reflexivity.
Qed.

Lemma rotate_Permutation {A} (n : nat) (l : list A) : rotate n l ≡ₚ l.
Proof.
  unfold rotate. rewrite Permutation_app_comm. by rewrite take_drop.
Qed.

(** X15.  For every park id, negative ones included, [get_mock_images]
    returns without raising and without touching anything, and its result is
    the list of the five predefined photos, each with the size parameters
    appended to its url, rotated to start at index [(park_id - 1) % 5]: five
    photos, each predefined photo exactly once, and the same gallery again
    for every park whose id differs by a multiple of five. *)
Theorem mock_gallery_is_a_rotation (park_name : string) (park_id : Z) (w : world) :
  get_mock_images park_name park_id w = (inr (gallery park_id), w)
  /\ length (gallery park_id) = 5%nat
  /\ gallery park_id ≡ₚ map sized nature_photos
  /\ (forall k, gallery (park_id + 5 * k) = gallery park_id).
Proof.
  split; [apply get_mock_images_run|].
  split; [unfold gallery; by rewrite length_rotate|].
  split; [apply rotate_Permutation|].
  intros k. unfold gallery. f_equal. f_equal.
  replace (park_id + 5 * k - 1) with (park_id - 1 + k * 5) by lia.
  apply Z.mod_add. lia.
Qed.

(** ** The single transaction *)

(** Only the script of SQLite's failures moved on. *)
Definition faults_only (w w' : world) : Prop := exists l, w' = set_db_faults l w.

#[local] Instance faults_only_refl : Reflexive faults_only.
Proof. intros w. exists (db_faults w). by destruct w. Qed.

#[local] Instance faults_only_trans : Transitive faults_only.
Proof. intros w1 w2 w3 [l1 ->] [l2 ->]. by exists l2. Qed.

Lemma faults_only_db_fault : steps faults_only db_fault.
Proof.
  intros w. unfold db_fault. destruct (db_faults w) as [|[|] rest] eqn:E; cbn.
  - reflexivity.
  - by exists rest.
  - by exists rest.
Qed.

Lemma db_fault_inv (w : world) (r : exn + unit) (w' : world) :
  db_fault w = (r, w') -> faults_only w w' /\ (r = inl SqliteError \/ r = inr tt).
Proof.
  intros E. split; [by eapply (steps_run faults_only), E; apply faults_only_db_fault|].
  unfold db_fault in E. destruct (db_faults w) as [|[|] rest]; inversion E; auto.
Qed.

Lemma execute_faults (txn : list stmt) (s : stmt) (w : world) (r : exn + list stmt)
    (w' : world) :
  execute txn s w = (r, w') ->
  faults_only w w' /\ (r = inl SqliteError \/ r = inr (txn ++ [s])).
Proof.
  unfold execute. intros E.
  apply bind_inv in E as [(e & E1 & ->)|([] & w1 & E1 & E)].
  - apply db_fault_inv in E1 as [F [[= ->]|[=]]]. auto.
  - apply db_fault_inv in E1 as [F _]. inversion E; subst. auto.
Qed.

Lemma faults_only_clock (w w' : world) : faults_only w w' -> clock w' = clock w.
Proof. by intros [l ->]. Qed.

Section WithLib.
Context `{Lib}.

(** The statements of one park, all stamped [t]. *)
Definition park_block (t : Z) (p : park) : list stmt :=
  park_statement p t
  :: map (fun entry => photo_statement p entry.1 entry.2 t) (enumerate (gallery (id p)))
  ++ [satellite_statement p t].

Lemma park_block_length (t : Z) (p : park) : length (park_block t p) = 7%nat.
Proof.
  unfold park_block, enumerate. cbn [length].
  rewrite length_app, length_map, length_zip, length_seq.
  unfold gallery. rewrite length_rotate. reflexivity.
Qed.

Lemma insert_mock_images_run (p : park) (entries : list (nat * mock_photo))
    (txn : list stmt) (w : world) (r : exn + list stmt) (w' : world) :
  fold_py (insert_mock_image p) entries txn w = (r, w') ->
  faults_only w w'
  /\ (r = inl SqliteError
      \/ r = inr (txn ++ map (fun entry => photo_statement p entry.1 entry.2 (clock w))
                             entries)).
Proof.
  revert txn w. induction entries as [|entry entries IH]; intros txn w; cbn [fold_py].
  - intros E. inversion E; subst. split; [reflexivity|]. right. cbn. by rewrite app_nil_r.
  - intros E. apply bind_inv in E as [(e & E1 & ->)|(txn1 & w1 & E1 & E)].
    + unfold insert_mock_image in E1.
      apply bind_inv in E1 as [(e' & [=] & _)|(t & w2 & [= <- <-] & E1)].
      apply execute_faults in E1 as [F [[= ->]|[=]]]. auto.
    + unfold insert_mock_image in E1.
      apply bind_inv in E1 as [(e' & [=] & _)|(t & w2 & [= <- <-] & E1)].
      apply execute_faults in E1 as [F [[=]|[= ->]]].
      apply IH in E as [F' Hr]. split; [by etransitivity|].
      destruct Hr as [->| ->]; [by left|right].
      rewrite (faults_only_clock _ _ F). cbn [map]. by rewrite <- app_assoc.
Qed.

Lemma ingest_park_run (txn : list stmt) (p : park) (w : world) (r : exn + list stmt)
    (w' : world) :
  ingest_park txn p w = (r, w') ->
  faults_only w w'
  /\ (r = inl SqliteError \/ r = inr (txn ++ park_block (clock w) p)).
Proof.
  unfold ingest_park. intros E.
  apply bind_inv in E as [(e & [=] & _)|(t & w1 & [= <- <-] & E)].
  apply bind_inv in E as [(e & E1 & ->)|(txn1 & w1 & E1 & E)].
  { apply execute_faults in E1 as [F [[= ->]|[=]]]. auto. }
  apply execute_faults in E1 as [F1 [[=]|[= ->]]].
  apply bind_inv in E as [(e & E0 & _)|(images & w0 & E0 & E)];
    rewrite get_mock_images_run in E0; [discriminate|].
  inversion E0; subst images w0; clear E0.
  apply bind_inv in E as [(e & E2 & ->)|(txn2 & w2 & E2 & E)].
  { apply insert_mock_images_run in E2 as [F2 [[= ->]|[=]]].
    split; [by etransitivity|by left]. }
  apply insert_mock_images_run in E2 as [F2 [[=]|[= ->]]].
  apply bind_inv in E as [(e & [=] & _)|(t' & w3 & [= <- <-] & E)].
  apply execute_faults in E as [F3 Hr].
  split; [etransitivity; [exact F1|]; by etransitivity|].
  destruct Hr as [->| ->]; [by left|right].
  rewrite (faults_only_clock _ _ F2), (faults_only_clock _ _ F1).
  unfold park_block. cbn [app]. rewrite <- !app_assoc. reflexivity.
Qed.

Lemma ingest_parks_run (parks : list park) (txn : list stmt) (w : world)
    (r : exn + list stmt) (w' : world) :
  fold_py ingest_park parks txn w = (r, w') ->
  faults_only w w'
  /\ (r = inl SqliteError \/ r = inr (txn ++ flat_map (park_block (clock w)) parks)).
Proof.
  revert txn w. induction parks as [|p parks IH]; intros txn w; cbn [fold_py].
  - intros E. inversion E; subst. split; [reflexivity|]. right. cbn. by rewrite app_nil_r.
  - intros E. apply bind_inv in E as [(e & E1 & ->)|(txn1 & w1 & E1 & E)].
    + apply ingest_park_run in E1 as [F [[= ->]|[=]]]. auto.
    + apply ingest_park_run in E1 as [F [[=]|[= ->]]].
      apply IH in E as [F' Hr]. split; [by etransitivity|].
      destruct Hr as [->| ->]; [by left|right].
      rewrite (faults_only_clock _ _ F). cbn [flat_map]. by rewrite <- app_assoc.
Qed.


End WithLib.

End IngestParksQuickFacts.
(* ===================================================================== *)
(** * Facts: what the texture downloads leave on disk                     *)
(* ===================================================================== *)

Module FetchHqContent.
Import Download FetchHq FetchHqFacts.

(** A response that [download_with_retry] takes: no 4xx/5xx status, and a
    stream that is not cut. *)
Definition taken (st : Z) : Prop := (400 <=? st) && (st <? 600) = false.

(** The replies consumed by a successful retry loop end with the response
    that was taken, and the file holds the body of that response. *)
Lemma retry_loop_success (url dest : string) (max_retries : nat) (attempts : list nat)
    (w w' : world) :
  retry_loop url dest max_retries attempts w = (inr true, w') ->
  exists failed st chunks,
    pending w = failed ++ Http st chunks false :: pending w'
    /\ (length failed < length attempts)%nat
    /\ taken st
    /\ fs w' !! dest = Some (concat chunks).
Proof.
  revert w. induction attempts as [|attempt rest IH]; intros w; cbn [retry_loop].
  - intros [=].
  - destruct (attempt_download_spec url dest attempt w) as (r & w1 & E & _ & P & Hr).
    rewrite E. destruct r as [e|b].
    + unfold bind at 1.
      assert (Hs : exists w2,
                 (if Z.of_nat attempt <? Z.of_nat max_retries - 1
                  then sleep 2 else ret tt) w1 = (inr tt, w2)
                 /\ pending w2 = pending w1).
      { destruct (_ <? _); eexists; split; reflexivity. }
      destruct Hs as (w2 & -> & P2). intros E'.
      apply IH in E' as (failed & st & chunks & Hp & Hlen & Hst & Hf).
      rewrite P2, P in Hp. destruct (pending w) as [|reply more]; cbn in Hp.
      { by destruct failed. }
      exists (reply :: failed), st, chunks. rewrite Hp. cbn. repeat split; auto. lia.
    + intros [= -> ->]. destruct (pending w) as [|[|st chunks [|]] more]; cbn in Hr, P;
        try discriminate.
      * destruct (_ && _); discriminate.
      * destruct ((400 <=? st) && (st <? 600)) eqn:Est; [discriminate|].
        destruct Hr as [_ Hf]. exists [], st, chunks. rewrite P. cbn.
        repeat split; auto. lia.
Qed.

(** X1.  Whenever the fallback loop of [main] over [download_with_retry]
    reports success, the destination file holds exactly the body of one
    response: the last reply the network gave to this loop, whose status was
    outside 4xx/5xx and whose stream was complete.  Every reply before it
    belonged to an attempt that failed, and whatever such an attempt had
    already written to the file (the beginning of a stream that was then cut)
    is gone: each attempt reopens the file for writing. *)
Theorem success_leaves_the_body_of_the_last_reply (urls : list string) (dest : string)
    (max_retries : nat) (w w' : world) :
  try_urls urls dest max_retries w = (inr true, w') ->
  exists failed st chunks,
    pending w = failed ++ Http st chunks false :: pending w'
    /\ (length failed < max_retries * length urls)%nat
    /\ taken st
    /\ fs w' !! dest = Some (concat chunks).
Proof.
  revert w. induction urls as [|url rest IH]; intros w; cbn [try_urls].
  - intros [=].
  - intros E. apply IngestFacts.bind_inv in E as [(e & _ & [=])|(ok & w1 & E1 & E)].
    destruct ok.
    + inversion E; subst w1; clear E. unfold download_with_retry in E1.
      apply retry_loop_success in E1 as (failed & st & chunks & Hp & Hlen & Hst & Hf).
      rewrite length_seq in Hlen.
      exists failed, st, chunks. repeat split; auto. cbn [length]. nia.
    + apply IH in E as (failed & st & chunks & Hp & Hlen & Hst & Hf).
      assert (Hpre : exists consumed, pending w = consumed ++ pending w1
                                      /\ (length consumed <= max_retries)%nat).
      { clear -E1. unfold download_with_retry in E1.
        assert (G : forall attempts w0,
                   retry_loop url dest max_retries attempts w0 = (inr false, w1) ->
                   exists consumed, pending w0 = consumed ++ pending w1
                                    /\ (length consumed <= length attempts)%nat).
        { induction attempts as [|attempt more IHa]; intros w0; cbn [retry_loop].
          - intros [= <-]. exists []. split; [reflexivity|cbn; lia].
          - destruct (attempt_download_spec url dest attempt w0)
              as (r & w2 & E & _ & P & Hr).
            rewrite E. destruct r as [e|b].
            + unfold bind at 1.
              assert (Hs : exists w3,
                         (if Z.of_nat attempt <? Z.of_nat max_retries - 1
                          then sleep 2 else ret tt) w2 = (inr tt, w3)
                         /\ pending w3 = pending w2).
              { destruct (_ <? _); eexists; split; reflexivity. }
              destruct Hs as (w3 & -> & P3). intros E'.
              apply IHa in E' as (consumed & Hp' & Hlen').
              rewrite P3, P in Hp'. destruct (pending w0) as [|reply more']; cbn in Hp'.
              * exists consumed. cbn [tail] in Hp'. split; [exact Hp'|cbn; lia].
              * exists (reply :: consumed). rewrite Hp'. cbn. split; [reflexivity|lia].
            + intros [= -> ->]. destruct (pending w0) as [|[|st chunks [|]] more']; cbn in Hr;
                try discriminate.
              * destruct (_ && _); discriminate.
              * destruct (_ && _); [discriminate|]. by destruct Hr. }
        apply G in E1 as (consumed & Hp & Hlen). rewrite length_seq in Hlen. eauto. }
      destruct Hpre as (consumed & Hp0 & Hlen0).
      exists (consumed ++ failed), st, chunks. rewrite Hp0, Hp, <- app_assoc.
      repeat split; auto. rewrite length_app. cbn [length]. nia.
Qed.

(** A 500, then a stream cut after two bytes, then a complete answer. *)
Definition third_time_lucky : world :=
  World [Http 500 [] false;
         Http 200 [[Byte.x01; Byte.x02]] true;
         Http 200 [[Byte.x03]] false] ∅ [].

Lemma success_leaves_the_body_of_the_last_reply_witness :
  exists failed st chunks,
    pending third_time_lucky
    = failed ++ Http st chunks false
               :: pending (try_urls ["a"] "earth_day_hq.jpg" 3 third_time_lucky).2
    /\ (length failed < 3 * length ["a"])%nat
    /\ taken st
    /\ fs (try_urls ["a"] "earth_day_hq.jpg" 3 third_time_lucky).2 !! "earth_day_hq.jpg"
       = Some (concat chunks).
Proof.
  apply (success_leaves_the_body_of_the_last_reply ["a"] "earth_day_hq.jpg" 3
           third_time_lucky).
  vm_compute. reflexivity.
Defined.

End FetchHqContent.

Module CreateEarthTexturesContent.
Import Download CreateEarthTextures.

(** The one kind of reply [create_earth_textures] writes to disk. *)
Definition is_200 (r : reply) : Prop :=
  exists chunks, r = Http 200 chunks false.

(** X2.  The download loop of [create_earth_textures] always returns.  When
    it reports failure it has written nothing: every file is as it was, since
    a body is written only once it has arrived whole with status 200.  When
    it reports success, the destination holds exactly the body of the first
    reply that came complete and with status 200, no other file changed, and
    at most one reply per candidate was consumed. *)
Theorem download_first_writes_only_a_whole_200 (urls : list string) (dest : string)
    (w : world) :
  exists ok w',
    download_first urls dest w = (inr ok, w')
    /\ if ok
       then exists before chunks,
              pending w = before ++ Http 200 chunks false :: pending w'
              /\ Forall (fun r => ~ is_200 r) before
              /\ (length before < length urls)%nat
              /\ fs w' = <[dest := concat chunks]> (fs w)
       else fs w' = fs w.
Proof.
  revert w. induction urls as [|url rest IH]; intros w; cbn [download_first].
  - exists false, w. split; reflexivity.
  - unfold bind, try_except, attempt_url, bind, requests_get, emit.
    destruct w as [p f t]. cbn [pending fs trace].
    destruct p as [|[|st chunks cut] more].
    + cbn. destruct (IH (World [] f (t ++ [EvGet url 0]))) as (ok & w' & E & Hok).
      rewrite E. exists ok, w'. split; [reflexivity|]. destruct ok; [|exact Hok].
      destruct Hok as (before & chunks & Hp & _). cbn in Hp. by destruct before.
    + cbn. destruct (IH (World more f (t ++ [EvGet url 0]))) as (ok & w' & E & Hok).
      rewrite E. exists ok, w'. split; [reflexivity|]. destruct ok; [|exact Hok].
      destruct Hok as (before & chunks & Hp & Hall & Hlen & Hf). cbn in Hp, Hf.
      exists (NoAnswer :: before), chunks. rewrite Hp. cbn.
      repeat split; auto; [|lia].
      constructor; [|exact Hall]. intros [c [=]].
    + cbn [status_code body_cut body_chunks]. destruct cut.
      * cbn. destruct (IH (World more f (t ++ [EvGet url 0]))) as (ok & w' & E & Hok).
        rewrite E. exists ok, w'. split; [reflexivity|]. destruct ok; [|exact Hok].
        destruct Hok as (before & chunks' & Hp & Hall & Hlen & Hf). cbn in Hp, Hf.
        exists (Http st chunks true :: before), chunks'. rewrite Hp. cbn.
        repeat split; auto; [|lia].
        constructor; [|exact Hall]. intros [c [=]].
      * cbn. destruct (Z.eqb_spec st 200) as [->|Hne].
        -- cbn. eexists true, _. split; [reflexivity|].
           exists [], chunks. cbn. repeat split; auto. lia.
        -- cbn. destruct (IH (World more f (t ++ [EvGet url 0]))) as (ok & w' & E & Hok).
           rewrite E. exists ok, w'. split; [reflexivity|]. destruct ok; [|exact Hok].
           destruct Hok as (before & chunks' & Hp & Hall & Hlen & Hf). cbn in Hp, Hf.
           exists (Http st chunks false :: before), chunks'. rewrite Hp. cbn.
           repeat split; auto; [|lia].
           constructor; [|exact Hall]. intros [c [= E200 _]]. contradiction.
Qed.

End CreateEarthTexturesContent.
(* ===================================================================== *)
(** * Facts: fetch_earth_textures.py                                      *)
(* ===================================================================== *)

Module FetchEarthTexturesFacts.
Import Download FetchEarthTextures.

Lemma append_chunks (dest : string) (chunks : list bytes) (base : gmap string bytes)
    (acc : bytes) (w : world) :
  fs w = <[dest := acc]> base ->
  exists w',
    for_each chunks (fun chunk => modify (append_file dest chunk)) w = (inr tt, w')
    /\ fs w' = <[dest := acc ++ concat chunks]> base
    /\ pending w' = pending w /\ trace w' = trace w.
Proof.
  revert acc w. induction chunks as [|c cs IH]; intros acc w Hf.
  - exists w. cbn. rewrite app_nil_r. auto.
  - cbn [for_each]. unfold bind at 1. cbn [modify].
    destruct (IH (acc ++ c) (append_file dest c w)) as (w' & E & F & P & T).
    { unfold append_file. cbn. rewrite Hf, lookup_insert_eq. cbn.
      apply insert_insert_eq. }
    exists w'. rewrite E. cbn [concat]. rewrite app_assoc. auto.
Qed.

(** Whether the reply lets [download_file] get as far as opening the file. *)
Definition opens_the_file (r : option reply) : bool :=
  match r with
  | Some (Http st _ _) => negb ((400 <=? st) && (st <? 600))
  | _ => false
  end.

(** One call of [download_file]: one request; the file is touched only if
    the reply has no error status, and then it holds what arrived of the
    body, the whole of it or, when the stream is cut, its beginning; the call
    returns only for a complete body. *)
Lemma download_file_spec (url dest : string) (w : world) :
  exists r w',
    download_file url dest w = (r, w')
    /\ trace w' = trace w ++ [EvGet url 0]
    /\ pending w' = tail (pending w)
    /\ match head (pending w) with
       | Some (Http st chunks cut) =>
           if (400 <=? st) && (st <? 600)
           then r = inl (HTTPError st) /\ fs w' = fs w
           else fs w' = <[dest := concat chunks]> (fs w)
                /\ r = (if cut then inl ChunkedEncodingError else inr tt)
       | _ => r = inl ConnectionError /\ fs w' = fs w
       end.
Proof.
  unfold download_file, bind, requests_get, emit. cbn [pending fs trace].
  destruct w as [p f t]; cbn [pending fs trace].
  destruct p as [|[|st chunks cut] rest]; cbn [head tail].
  - eexists _, _. repeat split; reflexivity.
  - eexists _, _. repeat split; reflexivity.
  - cbn [status_code body_chunks body_cut]. unfold FetchHq.raise_for_status.
    destruct ((400 <=? st) && (st <? 600)) eqn:Est.
    + eexists _, _. repeat split; reflexivity.
    + cbn [ret modify].
      destruct (append_chunks dest chunks f []
                  (write_file dest [] (World rest f (t ++ [EvGet url 0]))))
        as (w' & E & F & P & T); [reflexivity|].
      rewrite E. cbn in F, P, T. destruct cut; eexists _, _; repeat split; eauto.
Qed.

(** What one round may ask for: nothing, the primary url, or the primary
    url and then the fallback url. *)
Definition round_requests (entry : string * string) (urls : list string) : Prop :=
  urls = [] \/ urls = [entry.2]
  \/ exists fallback, lookup_name entry.1 fallback_textures = Some fallback
                      /\ urls = [entry.2; fallback].

Lemma fetch_with_fallback_run (entry : string * string) (w : world) :
  exists w' urls,
    fetch_with_fallback entry w = (inr tt, w')
    /\ trace w' = trace w ++ map (fun url => EvGet url 0) urls
    /\ round_requests entry urls
    /\ (urls = [] <-> path_exists (dest_path entry.1) w = true)
    /\ (forall path, path <> dest_path entry.1 -> fs w' !! path = fs w !! path)
    /\ (path_exists (dest_path entry.1) w = true -> w' = w).
Proof.
  unfold fetch_with_fallback, try_except.
  destruct (path_exists (dest_path entry.1) w) eqn:Hex.
  { exists w, []. cbn. rewrite app_nil_r. repeat split; auto. by left. }
  destruct (download_file_spec entry.2 (dest_path entry.1) w)
    as (r & w1 & E & T & P & Hr).
  rewrite E.
  assert (F1 : forall path, path <> dest_path entry.1 -> fs w1 !! path = fs w !! path).
  { intros path Hne. destruct (head (pending w)) as [[|st chunks cut]|].
    - by destruct Hr as [_ ->].
    - destruct (_ && _); [by destruct Hr as [_ ->]|].
      destruct Hr as [-> _]. by apply lookup_insert_ne.
    - by destruct Hr as [_ ->]. }
  destruct r as [e|[]].
  - destruct (lookup_name entry.1 fallback_textures) as [fallback|] eqn:Hfb.
    + destruct (download_file_spec fallback (dest_path entry.1) w1)
        as (r2 & w2 & E2 & T2 & P2 & Hr2).
      rewrite E2.
      assert (F2 : forall path, path <> dest_path entry.1 ->
                                fs w2 !! path = fs w1 !! path).
      { intros path Hne. destruct (head (pending w1)) as [[|st chunks cut]|].
        - by destruct Hr2 as [_ ->].
        - destruct (_ && _); [by destruct Hr2 as [_ ->]|].
          destruct Hr2 as [-> _]. by apply lookup_insert_ne.
        - by destruct Hr2 as [_ ->]. }
      exists w2, [entry.2; fallback].
      split; [by destruct r2 as [e2|[]]|].
      split; [rewrite T2, T, <- app_assoc; reflexivity|].
      split; [right; right; eauto|].
      split; [split; discriminate|].
      split; [|discriminate]. intros path Hne. rewrite F2, F1; auto.
    + exists w1, [entry.2]. split; [reflexivity|]. split; [exact T|].
      split; [right; by left|]. split; [split; discriminate|]. split; [exact F1|discriminate].
  - exists w1, [entry.2]. split; [reflexivity|]. split; [exact T|].
    split; [right; by left|]. split; [split; discriminate|]. split; [exact F1|discriminate].
Qed.

Lemma Forall2_impl_elem {A B} (P Q : A -> B -> Prop) (l : list A) (k : list B) :
  Forall2 P l k -> (forall x y, x ∈ l -> P x y -> Q x y) -> Forall2 Q l k.
Proof.
  induction 1 as [|x y l k Hxy _ IH]; intros Himp; constructor.
  - apply Himp; [apply elem_of_cons; by left|exact Hxy].
  - apply IH. intros x' y' Hin. apply Himp. apply elem_of_cons. by right.
Qed.

Lemma fetch_rounds (entries : list (string * string)) (w : world) :
  NoDup (map (fun entry => dest_path entry.1) entries) ->
  exists w' per_texture,
    for_each entries fetch_with_fallback w = (inr tt, w')
    /\ trace w' = trace w ++ map (fun url => EvGet url 0) (concat per_texture)
    /\ Forall2 (fun entry urls =>
                  round_requests entry urls
                  /\ (urls = [] <-> path_exists (dest_path entry.1) w = true))
               entries per_texture
    /\ (forall path, path ∉ map (fun entry => dest_path entry.1) entries ->
                     fs w' !! path = fs w !! path).
Proof.
  revert w. induction entries as [|entry entries IH]; intros w Hnd.
  - exists w, []. cbn. rewrite app_nil_r. repeat split; auto.
  - cbn [map] in Hnd. apply NoDup_cons in Hnd as [Hnotin Hnd].
    cbn [for_each]. unfold bind.
    destruct (fetch_with_fallback_run entry w) as (w1 & urls & E & T & Hreq & Hiff & F & _).
    rewrite E.
    destruct (IH w1 Hnd) as (w' & per & E' & T' & Hall & F').
    exists w', (urls :: per). split; [exact E'|].
    split; [cbn [concat]; rewrite T', T, map_app, <- app_assoc; reflexivity|].
    split.
    + constructor; [by split|].
      eapply Forall2_impl_elem; [exact Hall|]. cbn. intros e us Hin [Hr Hi].
      split; [exact Hr|]. rewrite Hi. unfold path_exists.
      rewrite F; [reflexivity|]. intros Heq. apply Hnotin. rewrite <- Heq.
      apply list_elem_of_fmap. by exists e.
    + intros path Hpath. cbn [map] in Hpath.
      apply not_elem_of_cons in Hpath as [Hne Hpath]. rewrite F', F; auto.
Qed.

(** X3.  [main] of [fetch_earth_textures] always returns: no exception
    leaves it.  It sends requests for exactly the textures whose file is
    missing when it starts, in the order of the table, and for each of them
    either the primary url alone or the primary url followed by the fallback
    url; a file that exists, whatever it holds, is never asked for again.
    Nothing else than the five destination files is written. *)
Theorem only_missing_textures_are_requested (w : world) :
  exists w' per_texture,
    main w = (inr tt, w')
    /\ trace w' = trace w ++ map (fun url => EvGet url 0) (concat per_texture)
    /\ Forall2 (fun entry urls =>
                  round_requests entry urls
                  /\ (urls = [] <-> path_exists (dest_path entry.1) w = true))
               textures per_texture
    /\ (forall path, path ∉ map (fun entry => dest_path entry.1) textures ->
                     fs w' !! path = fs w !! path).
Proof.
  apply fetch_rounds. vm_compute.
  repeat (apply NoDup_cons; split; [intros Hin; repeat (apply elem_of_cons in Hin
            as [Hin|Hin]; [discriminate Hin|]); by apply elem_of_nil in Hin|]).
  apply NoDup_nil_2.
Qed.

(** X4.  A download cut in mid-stream is kept.  When the file is missing,
    the primary answer has no error status but its stream breaks, and the
    fallback does not get as far as opening the file (no answer, an error
    status, or no fallback for the name), the round ends without an exception
    and leaves in the file the bytes that had arrived before the break.
    From then on the round finds the file, makes no request and changes
    nothing: the script has no check that would fetch the texture again. *)
Theorem truncated_download_is_kept (name url : string) (st : Z) (chunks : list bytes)
    (more : list reply) (w : world) :
  path_exists (dest_path name) w = false ->
  pending w = Http st chunks true :: more ->
  (400 <=? st) && (st <? 600) = false ->
  opens_the_file (head more) = false ->
  (fetch_with_fallback (name, url) w).1 = inr tt
  /\ fs (fetch_with_fallback (name, url) w).2 !! dest_path name = Some (concat chunks)
  /\ (forall later,
        fs later !! dest_path name = Some (concat chunks) ->
        fetch_with_fallback (name, url) later = (inr tt, later)).
Proof.
  intros Hex Hp Hst Hmore. split; [|split].
  - destruct (fetch_with_fallback_run (name, url) w) as (w' & urls & E & _). by rewrite E.
  - unfold fetch_with_fallback, try_except. cbn [fst snd]. rewrite Hex.
    destruct (download_file_spec url (dest_path name) w) as (r & w1 & E & _ & P & Hr).
    rewrite E. rewrite Hp in Hr, P. cbn in Hr, P. rewrite Hst in Hr.
    destruct Hr as [F ->].
    destruct (lookup_name name fallback_textures) as [fallback|].
    + destruct (download_file_spec fallback (dest_path name) w1)
        as (r2 & w2 & E2 & _ & _ & Hr2).
      rewrite E2. rewrite P in Hr2.
      assert (F2 : fs w2 = fs w1).
      { destruct (head more) as [[|st2 chunks2 cut2]|]; cbn in Hmore.
        - by destruct Hr2.
        - apply negb_false_iff in Hmore. rewrite Hmore in Hr2. by destruct Hr2.
        - by destruct Hr2. }
      destruct r2 as [e2|[]]; cbn; rewrite F2, F; apply lookup_insert_eq.
    + cbn. rewrite F. apply lookup_insert_eq.
  - intros later Hf. unfold fetch_with_fallback, try_except, path_exists. cbn [fst snd].
    by rewrite Hf.
Qed.

(** The day texture, cut after two bytes; then the fallback is refused. *)
Definition cut_then_refused : world :=
  World [Http 200 [[Byte.xff; Byte.xd8]] true; Http 503 [] false] ∅ [].

Lemma truncated_download_is_kept_witness :
  (fetch_with_fallback ("earth_day", "u") cut_then_refused).1 = inr tt
  /\ fs (fetch_with_fallback ("earth_day", "u") cut_then_refused).2
       !! dest_path "earth_day" = Some (concat [[Byte.xff; Byte.xd8]])
  /\ (forall later,
        fs later !! dest_path "earth_day" = Some (concat [[Byte.xff; Byte.xd8]]) ->
        fetch_with_fallback ("earth_day", "u") later = (inr tt, later)).
Proof.
  apply (truncated_download_is_kept "earth_day" "u" 200 [[Byte.xff; Byte.xd8]]
           [Http 503 [] false] cut_then_refused); reflexivity.
Defined.

End FetchEarthTexturesFacts.
(* ===================================================================== *)
(** * Facts: frames for the ingestion scripts                             *)
(* ===================================================================== *)

Module IngestFrames.
Import Json Sqlite Ingest IngestFacts Frames.

Lemma steps_lift (R : world -> world -> Prop) `{!Reflexive R} {A} (r : exn + A) :
  steps R (lift r).
Proof. destruct r; intros w; cbn; reflexivity. Qed.

Lemma lift_inv {A} (x : exn + A) (w : world) (r : exn + A) (w' : world) :
  lift x w = (r, w') -> w' = w /\ r = x.
Proof. unfold lift. destruct x; intros E; by inversion E. Qed.

Lemma lift_opt_inv {A} (e : exn) (o : option A) (w : world) (r : exn + A) (w' : world) :
  lift_opt e o w = (r, w') ->
  w' = w /\ match o with Some a => r = inr a | None => r = inl e end.
Proof. unfold lift_opt. destruct o; intros E; by inversion E. Qed.

(** ** Files are only added or replaced *)

Definition files_grow (w w' : world) : Prop :=
  forall path, is_Some (files w !! path) -> is_Some (files w' !! path).

#[export] Instance files_grow_refl : Reflexive files_grow.
Proof. by intros w path. Qed.

#[export] Instance files_grow_trans : Transitive files_grow.
Proof. intros w1 w2 w3 H1 H2 path Hp. by apply H2, H1. Qed.

Lemma files_grow_same (w w' : world) : files w' = files w -> files_grow w w'.
Proof. intros E path. by rewrite E. Qed.

Lemma files_grow_requests_get (p : provider) (url : string) :
  steps files_grow (requests_get p url).
Proof.
  intros w. apply files_grow_same. unfold requests_get. cbn.
  destruct (pending w) as [|reply rest]; cbn; [reflexivity|].
  destruct (answer reply); reflexivity.
Qed.

Lemma files_grow_db_fault : steps files_grow db_fault.
Proof.
  intros w. apply files_grow_same. unfold db_fault.
  destruct (db_faults w) as [|[|] rest]; reflexivity.
Qed.

Lemma files_grow_write_file (path : string) (data : bytes) :
  steps files_grow (modify (write_file path data)).
Proof.
  intros w other Hp. cbn. destruct (decide (path = other)) as [->|Hne].
  - rewrite lookup_insert_eq. by eexists.
  - by rewrite lookup_insert_ne.
Qed.

Lemma files_grow_raise_for_status (r : http_response) :
  steps files_grow (raise_for_status r).
Proof. intros w. unfold raise_for_status. destruct (_ && _); cbn; reflexivity. Qed.

Ltac files_prim :=
  first
    [ apply files_grow_requests_get | apply files_grow_db_fault
    | apply files_grow_write_file | apply files_grow_raise_for_status
    | solve [apply steps_lift; typeclasses eauto]
    | solve [apply steps_modify; intros ?; apply files_grow_same; reflexivity]
    | solve [intros ?; apply files_grow_same; reflexivity] ].

Ltac files_frame := frame files_prim.

(** ** Steps that add files and commit nothing *)

Definition calm (w w' : world) : Prop :=
  files_grow w w' /\ commits w' = commits w.

#[export] Instance calm_refl : Reflexive calm.
Proof. intros w. split; reflexivity. Qed.

#[export] Instance calm_trans : Transitive calm.
Proof. intros w1 w2 w3 [F1 C1] [F2 C2]. split; [by etransitivity|congruence]. Qed.

Lemma calm_same (w w' : world) :
  files w' = files w -> commits w' = commits w -> calm w w'.
Proof. intros E1 E2. split; [by apply files_grow_same|exact E2]. Qed.

Lemma calm_requests_get (p : provider) (url : string) : steps calm (requests_get p url).
Proof.
  intros w. split; [apply files_grow_requests_get|apply keeps_requests_get].
Qed.

Lemma calm_db_fault : steps calm db_fault.
Proof. intros w. split; [apply files_grow_db_fault|apply keeps_db_fault]. Qed.

Lemma calm_write_file (path : string) (data : bytes) :
  steps calm (modify (write_file path data)).
Proof. intros w. split; [apply files_grow_write_file|reflexivity]. Qed.

Lemma calm_raise_for_status (r : http_response) : steps calm (raise_for_status r).
Proof. intros w. unfold raise_for_status. destruct (_ && _); cbn; reflexivity. Qed.

Ltac calm_prim :=
  first
    [ apply calm_requests_get | apply calm_db_fault
    | apply calm_write_file | apply calm_raise_for_status
    | solve [apply steps_lift; typeclasses eauto]
    | solve [apply steps_modify; intros ?; apply calm_same; reflexivity]
    | solve [intros ?; apply calm_same; reflexivity] ].

Ltac calm_frame := frame calm_prim.

(** [commit] leaves the files alone. *)
Lemma commit_files (txn : list stmt) (w : world) : files (commit txn w).2 = files w.
Proof.
  unfold commit, bind, db_fault. destruct (db_faults w) as [|[|] rest]; reflexivity.
Qed.

(** ** The requests to the three provider APIs *)

(** The calls that are rate limited: all but the image downloads. *)
Definition api (cs : list call) : list call :=
  filter (fun c => call_provider c <> ImageHost) cs.

(** No API request was sent, and time did not go back. *)
Definition quiet (w w' : world) : Prop :=
  api (calls w') = api (calls w) /\ clock w <= clock w'.

#[export] Instance quiet_refl : Reflexive quiet.
Proof. intros w. split; [reflexivity|lia]. Qed.

#[export] Instance quiet_trans : Transitive quiet.
Proof. intros w1 w2 w3 [A1 C1] [A2 C2]. split; [congruence|lia]. Qed.

Lemma quiet_same (w w' : world) : calls w' = calls w -> clock w' = clock w -> quiet w w'.
Proof. intros E1 E2. split; [by rewrite E1|lia]. Qed.

(** What a request does to the log and to the clock. *)
Lemma requests_get_log (p : provider) (url : string) (w : world) :
  calls (requests_get p url w).2 = calls w ++ [Call p url (clock w)]
  /\ clock w <= clock (requests_get p url w).2
  /\ api_calls (requests_get p url w).2 = api_calls w
  /\ files (requests_get p url w).2 = files w.
Proof.
  unfold requests_get. cbn.
  destruct (pending w) as [|reply rest]; cbn; [repeat split; auto; lia|].
  destruct (answer reply); cbn; repeat split; auto; lia.
Qed.

Lemma quiet_image_request (url : string) : steps quiet (requests_get ImageHost url).
Proof.
  intros w. destruct (requests_get_log ImageHost url w) as (C & T & _).
  split; [|exact T]. rewrite C. unfold api. rewrite filter_app.
  rewrite (filter_cons_False _ (Call ImageHost url (clock w)) []); [|cbn; tauto].
  by rewrite filter_nil, app_nil_r.
Qed.

Lemma quiet_db_fault : steps quiet db_fault.
Proof.
  intros w. unfold db_fault.
  destruct (db_faults w) as [|[|] rest]; cbn; by apply quiet_same.
Qed.

Lemma quiet_sleep (seconds : Z) : 0 <= seconds -> steps quiet (sleep seconds).
Proof. intros Hs w. split; [reflexivity|cbn; lia]. Qed.

Lemma quiet_raise_for_status (r : http_response) : steps quiet (raise_for_status r).
Proof. intros w. unfold raise_for_status. destruct (_ && _); cbn; reflexivity. Qed.

Ltac quiet_prim :=
  first
    [ apply quiet_image_request | apply quiet_db_fault | apply quiet_raise_for_status
    | solve [apply steps_lift; typeclasses eauto]
    | solve [apply steps_modify; intros ?; apply quiet_same; reflexivity]
    | solve [intros ?; apply quiet_same; reflexivity] ].

Ltac quiet_frame := frame quiet_prim.

(** A provider step of the orchestrators: one request to the API, then
    only quiet steps, the handler included. *)
Lemma one_api_request {A} (p : provider) (url : string)
    (k : http_response -> py world A) (handler : exn -> py world A) (w : world) :
  p <> ImageHost ->
  (forall response, steps quiet (k response)) ->
  (forall e, steps quiet (handler e)) ->
  api (calls (try_except (bind (requests_get p url) k) handler w).2)
  = api (calls w) ++ [Call p url (clock w)]
  /\ clock w <= clock (try_except (bind (requests_get p url) k) handler w).2.
Proof.
  intros Hp Hk Hh.
  destruct (requests_get_log p url w) as (C & T & _).
  assert (A1 : api (calls (requests_get p url w).2)
               = api (calls w) ++ [Call p url (clock w)]).
  { rewrite C. unfold api. rewrite filter_app.
    by rewrite (filter_cons_True _ (Call p url (clock w)) []). }
  unfold try_except, bind.
  destruct (requests_get p url w) as [[e|response] w1]; cbn [fst snd] in *.
  - destruct (Hh e w1) as [A2 T2].
    destruct (handler e w1) as [r w2]; cbn [fst snd] in *. split; [congruence|lia].
  - destruct (Hk response w1) as [A2 T2].
    destruct (k response w1) as [[e|a] w2]; cbn [fst snd] in *.
    + destruct (Hh e w2) as [A3 T3].
      destruct (handler e w2) as [r w3]; cbn [fst snd] in *. split; [congruence|lia].
    + split; [congruence|lia].
Qed.

(** ** Collecting what a loop over the parks commits *)

Section Rounds.
Context {A : Type} (G : world -> world -> Prop) `{!Reflexive G} `{!Transitive G}.
Context (Q : A -> world -> list stmt -> Prop).

(** A round either raises and commits nothing, or returns having committed
    one transaction, of which [Q] holds in the state the round leaves. *)
Definition commits_one (body : A -> py world unit) : Prop :=
  forall x w r w',
    body x w = (r, w') ->
    G w w'
    /\ match r with
       | inl _ => commits w' = commits w
       | inr _ => exists txn, commits w' = commits w ++ [txn] /\ Q x w' txn
       end.

Lemma for_each_commits (body : A -> py world unit) (xs : list A) (w : world)
    (r : exn + unit) (w' : world) :
  commits_one body ->
  (forall x w1 w2 txn, G w1 w2 -> Q x w1 txn -> Q x w2 txn) ->
  for_each xs body w = (r, w') ->
  G w w'
  /\ exists done txns,
       done `prefix_of` xs
       /\ commits w' = commits w ++ txns
       /\ Forall2 (fun x txn => Q x w' txn) done txns
       /\ match r with inr _ => done = xs | inl _ => True end.
Proof.
  intros Hbody Hmono. revert w. induction xs as [|x xs IH]; intros w; cbn [for_each].
  - intros E. inversion E; subst. split; [reflexivity|]. exists [], [].
    rewrite app_nil_r. repeat split; auto; constructor.
  - intros E. apply bind_inv in E as [(e & E1 & ->)|([] & w1 & E1 & E)].
    + apply Hbody in E1 as [HG C]. split; [exact HG|]. exists [], [].
      rewrite app_nil_r. repeat split; auto; try apply prefix_nil; constructor.
    + apply Hbody in E1 as [HG1 (txn & C1 & HQ)].
      apply IH in E as [HG (done & txns & Hpre & C & Hall & Hr)].
      split; [by etransitivity|].
      exists (x :: done), (txn :: txns). split; [by apply prefix_cons|].
      split; [rewrite C, C1, <- app_assoc; reflexivity|].
      split; [constructor; [by eapply Hmono|exact Hall]|].
      destruct r; [exact I|by subst].
Qed.

End Rounds.

End IngestFrames.
(* ===================================================================== *)
(** * More facts: fetch_assets_mvp.py                                     *)
(* ===================================================================== *)

Module FetchAssetsMvpMore.
Import Json Sqlite Ingest IngestFacts Frames IngestFrames FetchAssetsMvp FetchAssetsMvpFacts.

(** ** The [--limit] option *)

(** X5.  The parks a run goes through are always a prefix of the parks of
    the CSV file, in the same order.  Without [--limit], and also with
    [--limit 0] (zero is false in [if limit]), they are all the parks; a
    positive limit keeps that many parks, all of them if there are fewer; a
    negative limit is taken as a slice bound and leaves out that many parks
    at the end. *)
Theorem limit_takes_a_prefix (all_parks : list park) :
  parks_to_process all_parks None = all_parks
  /\ parks_to_process all_parks (Some 0) = all_parks
  /\ (forall limit, parks_to_process all_parks (Some limit) `prefix_of` all_parks)
  /\ (forall limit, 0 < limit ->
        length (parks_to_process all_parks (Some limit))
        = Nat.min (Z.to_nat limit) (length all_parks))
  /\ (forall limit, limit < 0 ->
        length (parks_to_process all_parks (Some limit))
        = (length all_parks - Z.to_nat (- limit))%nat).
Proof.
  split; [reflexivity|]. split; [reflexivity|]. split; [|split].
  - intros limit. unfold parks_to_process, slice_to.
    destruct (limit =? 0); [reflexivity|].
    destruct (0 <=? limit); apply prefix_take.
  - intros limit Hl. unfold parks_to_process, slice_to.
    destruct (Z.eqb_spec limit 0); [lia|].
    destruct (Z.leb_spec 0 limit); [|lia]. apply length_take.
  - intros limit Hl. unfold parks_to_process, slice_to.
    destruct (Z.eqb_spec limit 0); [lia|].
    destruct (Z.leb_spec 0 limit); [lia|]. rewrite length_take. lia.
Qed.

Lemma limit_takes_a_prefix_witness :
  length (parks_to_process [Examples.yosemite; Examples.serengeti] (Some 1)) = 1%nat
  /\ length (parks_to_process [Examples.yosemite; Examples.serengeti] (Some (-1))) = 1%nat.
Proof.
  destruct (limit_takes_a_prefix [Examples.yosemite; Examples.serengeti])
    as (_ & _ & _ & Hpos & Hneg).
  split.
  - rewrite (Hpos 1); [reflexivity|lia].
  - rewrite (Hneg (-1)); [reflexivity|lia].
Defined.

(** ** How many photos a search gives *)

Lemma slice_to_length {A} (count : Z) (xs : list A) :
  0 <= count -> (length (slice_to count xs) <= Z.to_nat count)%nat.
Proof.
  intros Hc. unfold slice_to. destruct (Z.leb_spec 0 count); [|lia].
  rewrite length_take. lia.
Qed.

Lemma iter_slice_length (count : Z) (j : json) (items : list json) :
  0 <= count -> iter_slice count j = inr items ->
  (length items <= Z.to_nat count)%nat.
Proof.
  intros Hc. destruct j; cbn; intros [=]; subst; by apply slice_to_length.
Qed.

(** ** Pacing of the API requests *)

(** Any two requests of the list are at least [d] apart, the later one
    after the earlier one. *)
Definition spaced (d : Z) (cs : list call) : Prop :=
  forall (i j : nat) (c1 c2 : call),
    (i < j)%nat -> cs !! i = Some c1 -> cs !! j = Some c2 ->
    call_time c1 + d <= call_time c2.

(** Every API request so far was sent at least [d] ago. *)
Definition rested (d : Z) (w : world) : Prop :=
  Forall (fun c => call_time c + d <= clock w) (api (calls w)).

Definition paced (d : Z) (w : world) : Prop :=
  spaced d (api (calls w)) /\ rested d w.

Lemma spaced_snoc (d : Z) (cs : list call) (c : call) :
  spaced d cs -> Forall (fun c' => call_time c' + d <= call_time c) cs ->
  spaced d (cs ++ [c]).
Proof.
  intros Hs Hall i j c1 c2 Hij H1 H2.
  apply lookup_snoc_Some in H2 as [[Hj H2]|[-> <-]].
  - apply lookup_snoc_Some in H1 as [[Hi H1]|[-> _]]; [|lia]. exact (Hs i j c1 c2 Hij H1 H2).
  - apply lookup_snoc_Some in H1 as [[Hi H1]|[-> _]]; [|lia].
    rewrite Forall_forall in Hall. apply Hall. by eapply list_elem_of_lookup_2.
Qed.

Lemma paced_quiet (d : Z) (w w' : world) : paced d w -> quiet w w' -> paced d w'.
Proof.
  intros [Hs Hr] [Ha Hc]. split; [by rewrite Ha|].
  unfold rested in *. rewrite Ha. eapply Forall_impl; [exact Hr|]. cbn. intros c Hle. lia.
Qed.

(** One request sent when everything before it was [d] old, followed by a
    pause of [d]. *)
Lemma paced_request_then_pause (d : Z) (w w1 w2 : world) (c : call) :
  0 <= d ->
  paced d w ->
  api (calls w1) = api (calls w) ++ [c] -> call_time c = clock w -> clock w <= clock w1 ->
  api (calls w2) = api (calls w1) -> clock w1 + d <= clock w2 ->
  paced d w2.
Proof.
  intros Hd [Hs Hr] A1 Hc T1 A2 T2. split.
  - rewrite A2, A1. apply spaced_snoc; [exact Hs|].
    eapply Forall_impl; [exact Hr|]. cbn. intros c' Hle. lia.
  - unfold rested in *. rewrite A2, A1. apply Forall_app. split.
    + eapply Forall_impl; [exact Hr|]. cbn. intros c' Hle. lia.
    + constructor; [lia|constructor].
Qed.

Section WithLib.
Context `{Lib}.

Lemma fetch_unsplash_photos_length (park_name : string) (count : Z) (w : world)
    (photos : list photo) (w' : world) :
  0 <= count ->
  fetch_unsplash_photos park_name count w = (inr photos, w') ->
  (length photos <= Z.to_nat count)%nat.
Proof.
  intros Hc E. unfold fetch_unsplash_photos in E.
  apply try_inv in E as [(a & E & [= <-])|(e & w1 & _ & [= <- _])]; [|cbn; lia].
  apply bind_inv in E as [(e & _ & [=])|(response & w1 & _ & E)].
  apply bind_inv in E as [(e & _ & [=])|([] & w2 & _ & E)].
  apply bind_inv in E as [(e & _ & [=])|(data & w3 & _ & E)].
  apply bind_inv in E as [(e & _ & [=])|(results & w4 & _ & E)].
  apply bind_inv in E as [(e & _ & [=])|(items & w5 & E5 & E)].
  apply lift_inv in E5 as [_ E5]. symmetry in E5.
  apply iter_slice_length in E5; [|exact Hc].
  apply map_py_length in E. lia.
Qed.

Lemma fetch_unsplash_photos_request (park_name : string) (count : Z) (w : world) :
  api (calls (fetch_unsplash_photos park_name count w).2)
  = api (calls w) ++ [Call Unsplash "https://api.unsplash.com/search/photos" (clock w)]
  /\ clock w <= clock (fetch_unsplash_photos park_name count w).2.
Proof. apply one_api_request; [discriminate| |]; intros ?; quiet_frame. Qed.

Lemma fetch_nps_data_request (park_code : string) (w : world) :
  api (calls (fetch_nps_data park_code w).2)
  = api (calls w) ++ [Call Nps "https://developer.nps.gov/api/v1/parks" (clock w)]
  /\ clock w <= clock (fetch_nps_data park_code w).2.
Proof. apply one_api_request; [discriminate| |]; intros ?; quiet_frame. Qed.

Lemma fetch_nasa_satellite_image_request (lat lon : Q) (w : world) :
  api (calls (fetch_nasa_satellite_image lat lon w).2)
  = api (calls w) ++ [Call Nasa "https://api.nasa.gov/planetary/earth/imagery" (clock w)]
  /\ clock w <= clock (fetch_nasa_satellite_image lat lon w).2.
Proof. apply one_api_request; [discriminate| |]; intros ?; quiet_frame. Qed.

Lemma quiet_download_and_process_image url park_id image_type :
  steps quiet (download_and_process_image url park_id image_type).
Proof. unfold download_and_process_image. quiet_frame. Qed.

Lemma quiet_save_park_data p photos nps satellite :
  steps quiet (save_park_data p photos nps satellite).
Proof.
  unfold save_park_data, park_statement, save_photo, execute, commit.
  quiet_frame; apply quiet_download_and_process_image.
Qed.

Lemma process_park_paced (p : park) (w : world) :
  paced (1000 * RATE_LIMIT_DELAY) w -> paced (1000 * RATE_LIMIT_DELAY) (process_park p w).2.
Proof.
  intros Hw. unfold process_park, bind.
  destruct (fetch_unsplash_photos_request (name p) 5 w) as [A1 T1].
  destruct (fetch_unsplash_photos_never_raises (name p) 5 w) as [photos E1].
  destruct (fetch_unsplash_photos (name p) 5 w) as [r1 w1]; cbn [fst snd] in *. subst r1.
  cbn [sleep modify].
  assert (P2 : paced (1000 * RATE_LIMIT_DELAY) (advance (1000 * RATE_LIMIT_DELAY) w1)).
  { eapply (paced_request_then_pause _ w w1); eauto; cbn; unfold RATE_LIMIT_DELAY; lia. }
  set (w2 := advance (1000 * RATE_LIMIT_DELAY) w1) in *.
  destruct (fetch_nps_data_request (code p) w2) as [A3 T3].
  destruct (fetch_nps_data_never_raises (code p) w2) as [nps E3].
  destruct (fetch_nps_data (code p) w2) as [r3 w3]; cbn [fst snd] in *. subst r3.
  assert (P4 : paced (1000 * RATE_LIMIT_DELAY) (advance (1000 * RATE_LIMIT_DELAY) w3)).
  { eapply (paced_request_then_pause _ w2 w3); eauto; cbn; unfold RATE_LIMIT_DELAY; lia. }
  set (w4 := advance (1000 * RATE_LIMIT_DELAY) w3) in *.
  destruct (fetch_nasa_satellite_image_request (latitude p) (longitude p) w4) as [A5 T5].
  destruct (fetch_nasa_satellite_image_never_raises (latitude p) (longitude p) w4)
    as [sat E5].
  destruct (fetch_nasa_satellite_image (latitude p) (longitude p) w4) as [r5 w5];
    cbn [fst snd] in *. subst r5.
  assert (P6 : paced (1000 * RATE_LIMIT_DELAY) (advance (1000 * RATE_LIMIT_DELAY) w5)).
  { eapply (paced_request_then_pause _ w4 w5); eauto; cbn; unfold RATE_LIMIT_DELAY; lia. }
  eapply paced_quiet; [exact P6|]. apply quiet_save_park_data.
Qed.

(** X6.  Pacing of [fetch_all_assets].  If, when the run starts, the API
    requests logged so far are at least 72 seconds apart and the last of them
    is at least 72 seconds old (as with no request at all), then this is
    still so when the run ends, however it ends: any two requests to the
    Unsplash, NPS and NASA APIs are at least [RATE_LIMIT_DELAY] apart,
    whatever the latency of the answers.  Only the image downloads of
    [save_park_data] are sent without a pause. *)
Theorem mvp_api_requests_are_paced (all_parks : list park) (limit : option Z)
    (w : world) :
  paced (1000 * RATE_LIMIT_DELAY) w ->
  paced (1000 * RATE_LIMIT_DELAY) (fetch_all_assets all_parks limit w).2.
Proof.
  intros Hw. unfold fetch_all_assets.
  apply for_each_preserves; [|exact Hw]. intros p w0. apply process_park_paced.
Qed.

(** ** How many requests, and how long *)

(** The three API requests of a park, with the times they are sent at. *)
Definition round_requests (times : Z * Z * Z) : list call :=
  [Call Unsplash "https://api.unsplash.com/search/photos" times.1.1;
   Call Nps "https://developer.nps.gov/api/v1/parks" times.1.2;
   Call Nasa "https://api.nasa.gov/planetary/earth/imagery" times.2].

(** The requests of a round that starts at [start] and is over by [finish]:
    each is followed by the pause. *)
Definition round_times (start finish : Z) (times : Z * Z * Z) : Prop :=
  times.1.1 = start
  /\ times.1.1 + 1000 * RATE_LIMIT_DELAY <= times.1.2
  /\ times.1.2 + 1000 * RATE_LIMIT_DELAY <= times.2
  /\ times.2 + 1000 * RATE_LIMIT_DELAY <= finish.

Lemma process_park_requests (p : park) (w : world) :
  exists times,
    api (calls (process_park p w).2) = api (calls w) ++ round_requests times
    /\ round_times (clock w) (clock (process_park p w).2) times.
Proof.
  unfold process_park, bind.
  destruct (fetch_unsplash_photos_request (name p) 5 w) as [A1 T1].
  destruct (fetch_unsplash_photos_never_raises (name p) 5 w) as [photos E1].
  destruct (fetch_unsplash_photos (name p) 5 w) as [r1 w1]; cbn [fst snd] in *. subst r1.
  cbn [sleep modify].
  set (w2 := advance (1000 * RATE_LIMIT_DELAY) w1) in *.
  destruct (fetch_nps_data_request (code p) w2) as [A3 T3].
  destruct (fetch_nps_data_never_raises (code p) w2) as [nps E3].
  destruct (fetch_nps_data (code p) w2) as [r3 w3]; cbn [fst snd] in *. subst r3.
  set (w4 := advance (1000 * RATE_LIMIT_DELAY) w3) in *.
  destruct (fetch_nasa_satellite_image_request (latitude p) (longitude p) w4) as [A5 T5].
  destruct (fetch_nasa_satellite_image_never_raises (latitude p) (longitude p) w4)
    as [sat E5].
  destruct (fetch_nasa_satellite_image (latitude p) (longitude p) w4) as [r5 w5];
    cbn [fst snd] in *. subst r5.
  set (w6 := advance (1000 * RATE_LIMIT_DELAY) w5) in *.
  destruct (quiet_save_park_data p photos nps sat w6) as [A7 T7].
  exists (clock w, clock w2, clock w4). split.
  - rewrite A7. change (calls w6) with (calls w5). rewrite A5.
    change (calls w4) with (calls w3). rewrite A3.
    change (calls w2) with (calls w1). rewrite A1, <- !app_assoc. reflexivity.
  - unfold round_times. cbn [fst snd].
    change (clock w2) with (clock w1 + 1000 * RATE_LIMIT_DELAY) in *.
    change (clock w4) with (clock w3 + 1000 * RATE_LIMIT_DELAY) in *.
    change (clock w6) with (clock w5 + 1000 * RATE_LIMIT_DELAY) in *.
    repeat split; lia.
Qed.

(** X17.  Three requests per park.  Whatever the providers and SQLite do,
    [fetch_all_assets] sends to the provider APIs, for each park it gets to,
    one Unsplash search, then one NPS request, then one NASA request, each
    followed by the pause of 72 seconds before anything else is done; it gets
    to every park of the list if it returns, and to at least one if it is
    stopped.  So a run that returns has sent exactly three API requests per
    park and has lasted at least 216 seconds per park. *)
Theorem three_requests_per_park (all_parks : list park) (limit : option Z) (w : world) :
  let w' := (fetch_all_assets all_parks limit w).2 in
  exists rounds : list (Z * Z * Z),
    api (calls w') = api (calls w) ++ flat_map round_requests rounds
    /\ (length rounds <= length (parks_to_process all_parks limit))%nat
    /\ clock w + 3 * (1000 * RATE_LIMIT_DELAY) * Z.of_nat (length rounds) <= clock w'
    /\ match (fetch_all_assets all_parks limit w).1 with
       | inr _ => length rounds = length (parks_to_process all_parks limit)
       | inl _ => (1 <= length rounds)%nat
       end.
Proof.
  cbn zeta. unfold fetch_all_assets.
  generalize (parks_to_process all_parks limit). intros ps. revert w.
  induction ps as [|p ps IH]; intros w; cbn [for_each].
  - exists []. cbn. rewrite app_nil_r. repeat split; lia.
  - unfold bind. destruct (process_park_requests p w) as (times & A & T0 & T1 & T2 & T3).
    destruct (process_park p w) as [[e|[]] w1]; cbn [fst snd] in *.
    + exists [times]. cbn [flat_map length]. rewrite app_nil_r.
      unfold RATE_LIMIT_DELAY in *. repeat split; try lia. exact A.
    + destruct (IH w1) as (rounds & A' & Hlen & Hclock & Hr).
      exists (times :: rounds). cbn [flat_map length].
      split; [rewrite A', A, <- app_assoc; reflexivity|].
      split; [lia|]. split; [unfold RATE_LIMIT_DELAY in *; lia|].
      destruct (for_each ps process_park w1) as [[e|[]] w2]; cbn [fst] in *; lia.
Qed.

(** ** What a run leaves in the catalog and on disk *)

(** The three derivatives of an image are in the output directory. *)
Definition derivatives_on_disk (w : world) (local_path : string) : Prop :=
  Forall (fun entry =>
            is_Some (files w !! (output_dir +:+ "/" +:+ entry.1 +:+ "_" +:+ local_path)))
         sizes.

(** A row of [images] as [save_park_data] writes it: a photo of the park,
    with the url it was downloaded from, the file name made from that url,
    and the derivatives under that name on disk. *)
Definition photo_row (park_id : Z) (w : world) (row : image_row) : Prop :=
  i_park_id row = park_id /\ i_type row = "photo" /\ i_source row = None
  /\ exists url,
       i_url row = SqlText url
       /\ i_local_path row = Some (image_filename url park_id "photo")
       /\ derivatives_on_disk w (image_filename url park_id "photo").

(** The transaction of a park: its upsert, then at most five photo rows. *)
Definition park_txn (p : park) (w : world) (txn : list stmt) : Prop :=
  exists row rows,
    txn = InsertOrReplacePark row :: map InsertImage rows
    /\ p_id row = id p
    /\ (length rows <= 5)%nat
    /\ Forall (photo_row (id p) w) rows.

Lemma derivatives_on_disk_grow (w w' : world) (local_path : string) :
  files_grow w w' -> derivatives_on_disk w local_path -> derivatives_on_disk w' local_path.
Proof.
  intros Hg Hd. unfold derivatives_on_disk in *.
  eapply Forall_impl; [exact Hd|]. cbn. intros entry. apply Hg.
Qed.

Lemma photo_row_grow (park_id : Z) (w w' : world) (row : image_row) :
  files_grow w w' -> photo_row park_id w row -> photo_row park_id w' row.
Proof.
  intros Hg (H1 & H2 & H3 & url & H4 & H5 & H6). repeat split; auto.
  exists url. repeat split; auto. by eapply derivatives_on_disk_grow.
Qed.

Lemma calm_download_and_process_image url park_id image_type :
  steps calm (download_and_process_image url park_id image_type).
Proof. unfold download_and_process_image. calm_frame. Qed.

(** A record returned by [download_and_process_image] stands for three
    files that were written. *)
Lemma download_and_process_image_some (url : json) (park_id : Z) (image_type : string)
    (w : world) (pr : processed) (w' : world) :
  download_and_process_image url park_id image_type w = (inr (Some pr), w') ->
  exists u,
    url = JStr u
    /\ filename pr = image_filename u park_id image_type
    /\ derivatives_on_disk w' (image_filename u park_id image_type).
Proof.
  unfold download_and_process_image. intros E.
  apply try_inv in E as [(a & E & [= <-])|(e & w1 & _ & [=])].
  apply bind_inv in E as [(e & _ & [=])|(u & w1 & E1 & E)].
  assert (url = JStr u /\ w1 = w) as [-> ->].
  { destruct url; cbn in E1; inversion E1; auto. }
  clear E1. exists u. split; [reflexivity|].
  apply bind_inv in E as [(e & _ & [=])|(response & w1 & _ & E)].
  apply bind_inv in E as [(e & _ & [=])|([] & w2 & _ & E)].
  apply bind_inv in E as [(e & _ & [=])|(img & w3 & _ & E)].
  apply bind_inv in E as [(e & _ & [=])|([] & w4 & E4 & E)].
  apply bind_inv in E as [(e & _ & [=])|(blur & w5 & E5 & E)].
  apply lift_opt_inv in E5 as [-> _]. inversion E; subst; clear E.
  split; [reflexivity|].
  cbn [for_each sizes] in E4.
  apply bind_inv in E4 as [(e & _ & [=])|([] & v1 & E1 & E4)].
  apply bind_inv in E4 as [(e & _ & [=])|([] & v2 & E2 & E4)].
  apply bind_inv in E4 as [(e & _ & [=])|([] & v3 & E3 & E4)].
  inversion E4; subst; clear E4.
  apply bind_inv in E1 as [(e & _ & [=])|(d1 & u1 & L1 & E1)].
  apply lift_opt_inv in L1 as [-> _]. inversion E1; subst; clear E1.
  apply bind_inv in E2 as [(e & _ & [=])|(d2 & u2 & L2 & E2)].
  apply lift_opt_inv in L2 as [-> _]. inversion E2; subst; clear E2.
  apply bind_inv in E3 as [(e & _ & [=])|(d3 & u3 & L3 & E3)].
  apply lift_opt_inv in L3 as [-> _]. inversion E3; subst; clear E3.
  unfold derivatives_on_disk, sizes. cbn [files write_file fst snd].
  repeat (apply Forall_cons_2 || apply Forall_nil_2);
    rewrite !lookup_insert_is_Some'; auto.
Qed.

Lemma save_photo_row (park_id : Z) (txn : list stmt) (ph : photo) (w : world)
    (r : exn + list stmt) (w' : world) :
  save_photo park_id txn ph w = (r, w') ->
  calm w w'
  /\ match r with
     | inl _ => True
     | inr txn' => txn' = txn
                   \/ exists row, txn' = txn ++ [InsertImage row]
                                  /\ photo_row park_id w' row
     end.
Proof.
  intros E.
  assert (G : calm w w').
  { eapply (steps_run calm), E. unfold save_photo, execute. calm_frame. }
  split; [exact G|]. unfold save_photo in E.
  apply bind_inv in E as [(e & _ & ->)|(done & w1 & E1 & E)]; [exact I|].
  destruct done as [pr|]; [|inversion E; subst; by left].
  apply download_and_process_image_some in E1 as (u & Hu & Hf & Hd).
  apply bind_inv in E as [(e & _ & ->)|(t & w2 & [= <- <-] & E)]; [exact I|].
  apply bind_inv in E as [(e & _ & ->)|(url_v & w3 & E3 & E)]; [exact I|].
  apply lift_inv in E3 as [-> E3]. rewrite Hu in E3. cbn in E3. inversion E3; subst url_v.
  assert (G1 : calm w1 w').
  { eapply (steps_run calm), E. unfold execute. calm_frame. }
  apply execute_inv in E as (_ & _ & [->| ->]); [exact I|].
  right. eexists. split; [reflexivity|]. unfold photo_row. cbn.
  repeat split; auto. exists u. rewrite Hf. repeat split; auto.
  eapply derivatives_on_disk_grow; [apply G1|exact Hd].
Qed.

Lemma save_photos_rows (park_id : Z) (photos : list photo) (txn : list stmt) (w : world)
    (r : exn + list stmt) (w' : world) :
  fold_py (save_photo park_id) photos txn w = (r, w') ->
  calm w w'
  /\ match r with
     | inl _ => True
     | inr txn' => exists rows,
                     txn' = txn ++ map InsertImage rows
                     /\ (length rows <= length photos)%nat
                     /\ Forall (photo_row park_id w') rows
     end.
Proof.
  revert txn w. induction photos as [|ph photos IH]; intros txn w; cbn [fold_py].
  - intros E. inversion E; subst. split; [reflexivity|]. exists []. cbn.
    rewrite app_nil_r. auto.
  - intros E. apply bind_inv in E as [(e & E1 & ->)|(txn1 & w1 & E1 & E)].
    + apply save_photo_row in E1 as [G _]. auto.
    + apply save_photo_row in E1 as [G1 H1]. apply IH in E as [G Hr].
      split; [by etransitivity|]. destruct r as [e|txn']; [exact I|].
      destruct Hr as (rows & -> & Hlen & Hall).
      destruct H1 as [->|(row & -> & Hrow)].
      * exists rows. repeat split; auto. cbn. lia.
      * exists (row :: rows). cbn [map]. rewrite <- app_assoc. split; [reflexivity|].
        split; [cbn; lia|].
        constructor; [eapply photo_row_grow; [apply G|exact Hrow]|exact Hall].
Qed.

Lemma save_park_data_rows (p : park) (photos : list photo) (nps : option nps_data)
    (satellite : option (bytes * string)) (w : world) (r : exn + unit) (w' : world) :
  (length photos <= 5)%nat ->
  save_park_data p photos nps satellite w = (r, w') ->
  files_grow w w'
  /\ match r with
     | inl _ => commits w' = commits w
     | inr _ => exists txn, commits w' = commits w ++ [txn] /\ park_txn p w' txn
     end.
Proof.
  intros Hlen E. unfold save_park_data in E.
  apply bind_inv in E as [(e & [=] & _)|(t & w1 & [= <- <-] & E)].
  apply bind_inv in E as [(e & E2 & ->)|(upsert & w2 & E2 & E)].
  { apply park_statement_inv in E2 as (-> & _). split; reflexivity. }
  apply park_statement_inv in E2 as (-> & [[=]|(row & [= ->] & Hrow)]).
  apply bind_inv in E as [(e & E3 & ->)|(txn & w3 & E3 & E)].
  { assert (G3 : calm w w').
    { eapply (steps_run calm), E3. unfold execute. calm_frame. }
    destruct G3. by split. }
  assert (G3 : calm w w3).
  { eapply (steps_run calm), E3. unfold execute. calm_frame. }
  apply execute_inv in E3 as (_ & _ & [[=]|[= ->]]).
  apply bind_inv in E as [(e & E4 & ->)|(txn' & w4 & E4 & E)].
  { apply save_photos_rows in E4 as [G4 _].
    destruct (calm_trans _ _ _ G3 G4). by split. }
  apply save_photos_rows in E4 as [G4 (rows & -> & Hrows & Hall)].
  destruct (calm_trans _ _ _ G3 G4) as [F4 C4].
  assert (Hf : files w' = files w4).
  { match type of E with
    | commit ?t _ = _ => pose proof (commit_files t w4) as Hf
    end.
    by rewrite E in Hf. }
  assert (F' : files_grow w w').
  { etransitivity; [exact F4|]. by apply files_grow_same. }
  split; [exact F'|].
  apply commit_inv in E as [(-> & _ & C)|(-> & _ & C)]; [congruence|].
  eexists. split; [rewrite C, C4; reflexivity|].
  exists row, rows. cbn [app]. split; [reflexivity|]. split; [exact Hrow|].
  split; [lia|].
  eapply Forall_impl; [exact Hall|]. cbn. intros i.
  apply photo_row_grow. by apply files_grow_same.
Qed.

Lemma process_park_rows : commits_one files_grow park_txn process_park.
Proof.
  intros p w r w' E. unfold process_park in E.
  apply bind_inv in E as [(e & E1 & _)|(photos & w1 & E1 & E)].
  { destruct (fetch_unsplash_photos_never_raises (name p) 5 w) as [a Ha].
    rewrite E1 in Ha. discriminate. }
  assert (G1 : calm w w1).
  { eapply (steps_run calm), E1. unfold fetch_unsplash_photos. calm_frame. }
  apply fetch_unsplash_photos_length in E1; [|lia].
  apply bind_inv in E as [(e & [=] & _)|([] & w2 & [= <-] & E)].
  apply bind_inv in E as [(e & E3 & _)|(nps & w3 & E3 & E)].
  { destruct (fetch_nps_data_never_raises (code p) (advance (1000 * RATE_LIMIT_DELAY) w1))
      as [a Ha]. rewrite E3 in Ha. discriminate. }
  assert (G3 : calm (advance (1000 * RATE_LIMIT_DELAY) w1) w3).
  { eapply (steps_run calm), E3. unfold fetch_nps_data. calm_frame. }
  apply bind_inv in E as [(e & [=] & _)|([] & w4 & [= <-] & E)].
  apply bind_inv in E as [(e & E5 & _)|(sat & w5 & E5 & E)].
  { destruct (fetch_nasa_satellite_image_never_raises (latitude p) (longitude p)
                (advance (1000 * RATE_LIMIT_DELAY) w3)) as [a Ha].
    rewrite E5 in Ha. discriminate. }
  assert (G5 : calm (advance (1000 * RATE_LIMIT_DELAY) w3) w5).
  { eapply (steps_run calm), E5. unfold fetch_nasa_satellite_image. calm_frame. }
  apply bind_inv in E as [(e & [=] & _)|([] & w6 & [= <-] & E)].
  apply save_park_data_rows in E as [G Hr]; [|cbn in E1; lia].
  destruct G1 as [F1 C1], G3 as [F3 C3], G5 as [F5 C5].
  split.
  - intros path Hp. apply G. cbn. apply F5. cbn. apply F3. cbn. by apply F1.
  - cbn in Hr, C3, C5. destruct r as [e|u].
    + congruence.
    + destruct Hr as (txn & C & Ht). exists txn. split; [congruence|exact Ht].
Qed.

(** X7.  What a run of [fetch_all_assets] leaves behind.  The run commits
    one transaction per park it saved, for a prefix of the parks it was asked
    to process.  Each transaction is the upsert of the park followed by at
    most five image rows.  Every one of these rows is of type [photo] for
    that park, gives the url the photo was downloaded from and the file name
    derived from it, and the three derivatives of that name ([original_],
    [medium_], [thumb_]) are in the output directory when the run ends.  No
    row of type [satellite] is ever written: the image fetched from NASA is
    not stored. *)
Theorem every_photo_row_has_its_files (all_parks : list park) (limit : option Z)
    (w : world) :
  exists saved txns,
    saved `prefix_of` parks_to_process all_parks limit
    /\ commits (fetch_all_assets all_parks limit w).2 = commits w ++ txns
    /\ Forall2 (fun p txn => park_txn p (fetch_all_assets all_parks limit w).2 txn)
               saved txns
    /\ match (fetch_all_assets all_parks limit w).1 with
       | inr _ => saved = parks_to_process all_parks limit
       | inl _ => True
       end.
Proof.
  unfold fetch_all_assets.
  destruct (for_each (parks_to_process all_parks limit) process_park w) as [r w'] eqn:E.
  cbn [fst snd].
  eapply (for_each_commits files_grow park_txn) in E as [_ Hr];
    [exact Hr|apply process_park_rows|].
  intros p w1 w2 txn Hg (row & rows & -> & Hrow & Hlen & Hall).
  exists row, rows. repeat split; auto.
  eapply Forall_impl; [exact Hall|]. cbn. intros i. by apply photo_row_grow.
Qed.

End WithLib.

Lemma mvp_api_requests_are_paced_witness :
  paced (1000 * RATE_LIMIT_DELAY)
        (@fetch_all_assets Examples.toy_lib [Examples.yosemite] None
           (Examples.fresh [Examples.unsplash_one_photo])).2.
Proof.
  apply (@mvp_api_requests_are_paced Examples.toy_lib [Examples.yosemite] None
           (Examples.fresh [Examples.unsplash_one_photo])).
  split.
  - intros i j c1 c2 _ H1. cbn in H1. by rewrite lookup_nil in H1.
  - constructor.
Defined.

End FetchAssetsMvpMore.
(* ===================================================================== *)
(** * More facts: fetch_world_parks_data.py                               *)
(* ===================================================================== *)

Module FetchWorldParksMore.
Import Json Sqlite Ingest IngestFacts Frames IngestFrames FetchWorldParks
  FetchWorldParksFacts.

Lemma prefix_append (p s : string) : String.prefix p (p +:+ s) = true.
Proof.
  induction p as [|a p IH].
  - change ("" +:+ s) with s. by destruct s.
  - change (String a p +:+ s) with (String a (p +:+ s)). cbn [String.prefix].
    destruct (Ascii.ascii_dec a a); [exact IH|congruence].
Qed.

(** The text every placeholder starts with. *)
Definition data_uri_prefix : string := "data:image/jpeg;base64,".

Section WithLib.
Context `{Lib}.

(** ** The placeholder of an NPS image *)

Lemma blur_placeholder_prefix (size : Z * Z) (pixels : raster) (b : string) :
  FetchAssetsMvp.blur_placeholder size pixels = Some b ->
  String.prefix data_uri_prefix b = true.
Proof.
  unfold FetchAssetsMvp.blur_placeholder.
  destruct (save_jpeg _ _ _) as [data|]; cbn; intros [=]; subst.
  apply prefix_append.
Qed.

(** X8.  [generate_blur_hash] never raises and always returns the text of
    an inline JPEG image: either the placeholder made from the downloaded
    image, or, whenever anything goes wrong (no answer, a body that is no
    image, an image that cannot be saved as JPEG, a url that is no string),
    the default one.  It sends no request to a provider API and at most one
    image download, writes no file (the files are exactly as they were) and
    commits nothing. *)
Theorem blur_hash_is_always_an_inline_jpeg (image_url : json) (w : world) :
  (exists b,
      (generate_blur_hash image_url w).1 = inr b
      /\ String.prefix data_uri_prefix b = true
      /\ (b = default_blur
          \/ exists u response size pixels,
               image_url = JStr u
               /\ (requests_get ImageHost u w).1 = inr response
               /\ image_open (content response) = Some (size, pixels)
               /\ FetchAssetsMvp.blur_placeholder size pixels = Some b))
  /\ quiet w (generate_blur_hash image_url w).2
  /\ calm w (generate_blur_hash image_url w).2
  /\ (length (calls (generate_blur_hash image_url w).2) <= length (calls w) + 1)%nat
  /\ files (generate_blur_hash image_url w).2 = files w
  /\ commits (generate_blur_hash image_url w).2 = commits w.
Proof.
  split; [|split; [|split; [|split; [|split]]]].
  - destruct (generate_blur_hash image_url w) as [r w'] eqn:E. cbn [fst].
    unfold generate_blur_hash in E.
    apply try_inv in E as [(b & E & ->)|(e & w1 & _ & [= <- _])].
    2:{ exists default_blur. repeat split; auto. }
    exists b. split; [reflexivity|].
    apply bind_inv in E as [(e & _ & [=])|(u & w1 & E1 & E)].
    assert (image_url = JStr u /\ w1 = w) as [-> ->].
    { destruct image_url; cbn in E1; inversion E1; auto. }
    apply bind_inv in E as [(e & _ & [=])|(response & w2 & E2 & E)].
    apply bind_inv in E as [(e & _ & [=])|([[sw sh] pixels] & w3 & E3 & E)].
    apply lift_opt_inv in E3 as [-> E3].
    apply lift_opt_inv in E as [-> E]. cbn [fst snd] in E.
    destruct (image_open (content response)) as [img|] eqn:Himg; [|discriminate].
    inversion E3; subst img; clear E3.
    destruct (FetchAssetsMvp.blur_placeholder (sw, sh) pixels) as [b'|] eqn:Hb;
      [|discriminate].
    inversion E; subst b'; clear E.
    split; [by eapply blur_placeholder_prefix|].
    right. exists u, response, (sw, sh), pixels. rewrite E2. auto.
  - assert (S : steps quiet (generate_blur_hash image_url))
      by (unfold generate_blur_hash; quiet_frame).
    apply S.
  - assert (S : steps calm (generate_blur_hash image_url))
      by (unfold generate_blur_hash; calm_frame).
    apply S.
  - unfold generate_blur_hash, try_except, bind.
    destruct image_url; cbn; try lia.
    destruct (requests_get_log ImageHost s w) as (C & _).
    destruct (requests_get ImageHost s w) as [[e|response] w1]; cbn [fst snd] in *.
    + cbn. rewrite C, length_app. cbn. lia.
    + unfold lift_opt. destruct (image_open (content response)) as [img|]; cbn.
      * destruct (FetchAssetsMvp.blur_placeholder img.1 img.2); cbn;
          rewrite C, length_app; cbn; lia.
      * rewrite C, length_app. cbn. lia.
  - unfold generate_blur_hash, try_except, bind.
    destruct image_url; cbn; try reflexivity.
    destruct (requests_get_log ImageHost s w) as (_ & _ & _ & F).
    destruct (requests_get ImageHost s w) as [[e|response] w1]; cbn [fst snd] in *.
    + exact F.
    + unfold lift_opt. destruct (image_open (content response)) as [img|]; cbn.
      * destruct (FetchAssetsMvp.blur_placeholder img.1 img.2); exact F.
      * exact F.
  - assert (S : steps calm (generate_blur_hash image_url))
      by (unfold generate_blur_hash; calm_frame).
    apply S.
Qed.

(** ** The satellite image *)

Lemma requests_get_inv (p : provider) (url : string) (w : world)
    (response : http_response) (w1 : world) :
  requests_get p url w = (inr response, w1) ->
  exists reply rest,
    pending w = reply :: rest
    /\ answer reply = Some response
    /\ w1 = advance (Z.of_nat (latency reply)) (set_pending rest (log_call p url w)).
Proof.
  unfold requests_get. cbn. destruct (pending w) as [|reply rest]; [discriminate|].
  destruct (answer reply) as [r|] eqn:Ha; [|discriminate].
  intros E. inversion E; subst. exists reply, rest. auto.
Qed.

(** [f"nasa_sat_{lat}_{lon}.jpg"] *)
Definition nasa_filename (lat lon : Q) : string :=
  "nasa_sat_" +:+ str_of_float lat +:+ "_" +:+ str_of_float lon +:+ ".jpg".

(** X9.  When [validate_location_with_nasa] returns a url, the flag is
    [True], the url is that of the file [nasa_sat_<lat>_<lon>.jpg] under
    [/assets/], and this file has just been written to the output directory
    with exactly the body of the imagery response, which came with status 200
    and an image content type.  Two requests were sent to NASA, the second as
    soon as the first was answered, and the NASA counter went up by two. *)
Theorem satellite_url_names_a_saved_file (lat lon : Q) (w : world) (flag : bool)
    (url : string) (w' : world) :
  validate_location_with_nasa lat lon w = (inr (flag, Some url), w') ->
  flag = true
  /\ url = "/assets/" +:+ nasa_filename lat lon
  /\ exists r1 r2 rest image,
       pending w = r1 :: r2 :: rest
       /\ pending w' = rest
       /\ answer r2 = Some image
       /\ status_code image = 200
       /\ is_image image = true
       /\ files w' = <[output_dir +:+ "/" +:+ nasa_filename lat lon := content image]>
                       (files w)
       /\ calls w'
          = calls w ++ [Call Nasa "https://api.nasa.gov/planetary/earth/assets" (clock w);
                        Call Nasa "https://api.nasa.gov/planetary/earth/imagery"
                             (clock w + Z.of_nat (latency r1))]
       /\ api_calls w' = <["nasa" := default 0 (api_calls w !! "nasa") + 2]> (api_calls w).
Proof.
  unfold validate_location_with_nasa. intros E.
  apply try_inv in E as [(a & E & [= <-])|(e & w1 & _ & [=])].
  apply bind_inv in E as [(e & _ & [=])|(found & w1 & E1 & E)].
  destruct found as [path|].
  2:{ apply bind_inv in E as [(e & _ & [=])|([] & w2 & _ & [=])]. }
  inversion E; subst flag path w1; clear E.
  split; [reflexivity|].
  unfold nasa_image_lookup in E1.
  apply bind_inv in E1 as [(e & _ & [=])|(response & w1 & R1 & E1)].
  apply requests_get_inv in R1 as (r1 & rest1 & P1 & A1 & ->).
  destruct (status_code response =? 200); [|discriminate].
  apply bind_inv in E1 as [(e & _ & [=])|(data & w2 & J & E1)].
  apply lift_opt_inv in J as [-> _].
  apply bind_inv in E1 as [(e & _ & [=])|(count & w2 & J & E1)].
  apply lift_inv in J as [-> _].
  apply bind_inv in E1 as [(e & _ & [=])|(positive & w2 & J & E1)].
  apply lift_inv in J as [-> _].
  destruct positive; [|discriminate].
  apply bind_inv in E1 as [(e & _ & [=])|(image & w2 & R2 & E1)].
  apply requests_get_inv in R2 as (r2 & rest & P2 & A2 & ->).
  cbn in P2. subst rest1.
  destruct (status_code image =? 200) eqn:Hst; [|discriminate].
  destruct (is_image image) eqn:Him; [|discriminate]. cbn [andb] in E1.
  apply bind_inv in E1 as [(e & [=] & _)|([] & w2 & [= <-] & E1)].
  unfold save_nasa_image in E1.
  apply bind_inv in E1 as [(e & _ & [=])|(path & w3 & E3 & E1)].
  apply bind_inv in E3 as [(e & [=] & _)|([] & w4 & [= <-] & E3)].
  inversion E3; subst path w3; clear E3. inversion E1; subst url w'; clear E1.
  split; [reflexivity|].
  exists r1, r2, rest, image. apply Z.eqb_eq in Hst. cbn.
  repeat split; auto. by rewrite <- app_assoc.
Qed.

End WithLib.

(** NASA knows the place and serves an image. *)
Definition nasa_serves_an_image : world :=
  Examples.fresh [Examples.nasa_one_asset; Examples.nasa_image].

Lemma satellite_url_names_a_saved_file_witness :
  exists r1 r2 rest image,
    pending nasa_serves_an_image = r1 :: r2 :: rest
    /\ answer r2 = Some image
    /\ files (@validate_location_with_nasa Examples.toy_lib 0 0
                nasa_serves_an_image).2
       = <[output_dir +:+ "/" +:+ @nasa_filename Examples.toy_lib 0 0 := content image]>
           (files nasa_serves_an_image).
Proof.
  destruct (@satellite_url_names_a_saved_file Examples.toy_lib 0 0
              nasa_serves_an_image true "/assets/nasa_sat_0.0_0.0.jpg"
              (@validate_location_with_nasa Examples.toy_lib 0 0
                 nasa_serves_an_image).2)
    as (_ & _ & r1 & r2 & rest & image & Hp & _ & Ha & _ & _ & Hf & _).
  - vm_compute. reflexivity.
  - exists r1, r2, rest, image. auto.
Defined.

End FetchWorldParksMore.
(* ===================================================================== *)
(** * Facts: the rows of a park in fetch_world_parks_data.py              *)
(* ===================================================================== *)

Module FetchWorldParksRows.
Import Json Sqlite Ingest IngestFacts Frames IngestFrames FetchWorldParks
  FetchWorldParksFacts FetchWorldParksMore.

(** The three kinds of rows [save_park_data] writes. *)
Definition nps_row (park_id : Z) (row : image_row) : Prop :=
  i_park_id row = park_id /\ i_type row = "nps" /\ i_source row = Some "nps"
  /\ i_local_path row = None
  /\ exists b, i_blur_hash row = SqlText b /\ String.prefix data_uri_prefix b = true.

Definition unsplash_row (park_id : Z) (row : image_row) : Prop :=
  i_park_id row = park_id /\ i_type row = "photo" /\ i_source row = Some "unsplash"
  /\ i_local_path row = None.

Definition satellite_row (park_id : Z) (row : image_row) : Prop :=
  i_park_id row = park_id /\ i_type row = "satellite" /\ i_source row = Some "nasa"
  /\ i_local_path row = None
  /\ exists url, i_url row = SqlText url /\ url <> "".

(** The transaction of a park: its upsert, the rows of its NPS images (none
    for a park outside the United States), then of its Unsplash photos, then
    of its satellite image, within the numbers the orchestrator asks for. *)
Definition world_txn (p : park) (txn : list stmt) : Prop :=
  exists row nps photos sat,
    txn = InsertOrReplacePark row :: map InsertImage (nps ++ photos ++ sat)
    /\ p_id row = id p
    /\ Forall (nps_row (id p)) nps
    /\ Forall (unsplash_row (id p)) photos
    /\ Forall (satellite_row (id p)) sat
    /\ (length nps <= 5)%nat
    /\ (country p <> "United States" -> nps = [])
    /\ (length photos <= Z.to_nat (Z.max 1 (5 - Z.of_nat (length nps))))%nat
    /\ (length sat <= 1)%nat.

(** A round of an insert loop that adds one row of a given kind. *)
Definition adds_a_row {A} (P : image_row -> Prop)
    (round : list stmt -> A -> py world (list stmt)) : Prop :=
  forall txn x w r w',
    round txn x w = (r, w') ->
    commits w' = commits w
    /\ match r with
       | inl _ => True
       | inr txn' => exists row, txn' = txn ++ [InsertImage row] /\ P row
       end.

Lemma fold_adds_rows {A} (P : image_row -> Prop)
    (round : list stmt -> A -> py world (list stmt)) (xs : list A) (txn : list stmt)
    (w : world) (r : exn + list stmt) (w' : world) :
  adds_a_row P round ->
  fold_py round xs txn w = (r, w') ->
  commits w' = commits w
  /\ match r with
     | inl _ => True
     | inr txn' => exists rows,
                     txn' = txn ++ map InsertImage rows
                     /\ Forall P rows /\ length rows = length xs
     end.
Proof.
  intros Hround. revert txn w. induction xs as [|x xs IH]; intros txn w; cbn [fold_py].
  - intros E. inversion E; subst. split; [reflexivity|]. exists []. cbn.
    rewrite app_nil_r. auto.
  - intros E. apply bind_inv in E as [(e & E1 & ->)|(txn1 & w1 & E1 & E)].
    + apply Hround in E1 as [C _]. auto.
    + apply Hround in E1 as [C1 (row & -> & Hrow)]. apply IH in E as [C Hr].
      split; [congruence|]. destruct r as [e|txn']; [exact I|].
      destruct Hr as (rows & -> & Hall & Hlen).
      exists (row :: rows). cbn [map]. rewrite <- app_assoc. repeat split; auto.
      cbn. lia.
Qed.

Lemma image_rows_inserts (rows : list image_row) :
  image_rows (map InsertImage rows) = rows.
Proof. induction rows as [|row rows IH]; cbn; [reflexivity|]. by f_equal. Qed.

Section WithLib.
Context `{Lib}.

Lemma generate_blur_hash_prefix (image_url : json) (w : world) (b : string) (w' : world) :
  generate_blur_hash image_url w = (inr b, w') ->
  String.prefix data_uri_prefix b = true.
Proof.
  unfold generate_blur_hash. intros E.
  apply try_inv in E as [(b' & E & [= <-])|(e & w1 & _ & [= <- _])]; [|reflexivity].
  apply bind_inv in E as [(e & _ & [=])|(u & w1 & _ & E)].
  apply bind_inv in E as [(e & _ & [=])|(response & w2 & _ & E)].
  apply bind_inv in E as [(e & _ & [=])|(img & w3 & _ & E)].
  apply lift_opt_inv in E as [_ E].
  destruct (FetchAssetsMvp.blur_placeholder img.1 img.2) as [b'|] eqn:Hb; [|discriminate].
  inversion E; subst b'. by eapply blur_placeholder_prefix.
Qed.

Lemma save_nps_image_row (park_id : Z) :
  adds_a_row (nps_row park_id) (save_nps_image park_id).
Proof.
  intros txn img w r w' E.
  destruct (save_nps_image_round park_id txn img w r w' E) as (_ & C & _).
  split; [exact C|]. unfold save_nps_image in E.
  apply bind_inv in E as [(e & _ & ->)|(blur & w1 & E1 & E)]; [exact I|].
  apply generate_blur_hash_prefix in E1.
  apply bind_inv in E as [(e & _ & ->)|(t & w2 & _ & E)]; [exact I|].
  apply bind_inv in E as [(e & _ & ->)|(url_v & w3 & _ & E)]; [exact I|].
  apply execute_inv in E as (_ & _ & [->| ->]); [exact I|].
  eexists. split; [reflexivity|]. unfold nps_row. cbn. repeat split; auto. eauto.
Qed.

Lemma save_unsplash_photo_row (park_id : Z) :
  adds_a_row (unsplash_row park_id) (save_unsplash_photo park_id).
Proof.
  intros txn ph w r w' E.
  destruct (save_unsplash_photo_round park_id txn ph w r w' E) as (_ & C & _).
  split; [exact C|]. unfold save_unsplash_photo in E.
  apply bind_inv in E as [(e & _ & ->)|(t & w2 & _ & E)]; [exact I|].
  apply bind_inv in E as [(e & _ & ->)|(url_v & w3 & _ & E)]; [exact I|].
  apply bind_inv in E as [(e & _ & ->)|(blur_v & w4 & _ & E)]; [exact I|].
  apply bind_inv in E as [(e & _ & ->)|(width_v & w5 & _ & E)]; [exact I|].
  apply bind_inv in E as [(e & _ & ->)|(height_v & w6 & _ & E)]; [exact I|].
  apply execute_inv in E as (_ & _ & [->| ->]); [exact I|].
  eexists. split; [reflexivity|]. unfold unsplash_row. cbn. auto.
Qed.

Lemma save_satellite_row (park_id : Z) (txn : list stmt) (satellite_url : option string)
    (w : world) (r : exn + list stmt) (w' : world) :
  save_satellite park_id txn satellite_url w = (r, w') ->
  commits w' = commits w
  /\ match r with
     | inl _ => True
     | inr txn' => exists rows,
                     txn' = txn ++ map InsertImage rows
                     /\ Forall (satellite_row park_id) rows
                     /\ (length rows <= 1)%nat
     end.
Proof.
  intros E. destruct (save_satellite_inv _ _ _ _ _ _ E) as (_ & C & _).
  split; [exact C|]. unfold save_satellite in E.
  destruct satellite_url as [url|]; [destruct (String.eqb_spec url "") as [->|Hne]|].
  - inversion E; subst. exists []. cbn. rewrite app_nil_r. auto.
  - apply bind_inv in E as [(e & _ & ->)|(t & w2 & _ & E)]; [exact I|].
    apply execute_inv in E as (_ & _ & [->| ->]); [exact I|].
    eexists [_]. split; [reflexivity|]. split; [|cbn; lia].
    constructor; [|constructor]. unfold satellite_row. cbn. repeat split; auto. eauto.
  - inversion E; subst. exists []. cbn. rewrite app_nil_r. auto.
Qed.

(** ** How many images the providers are asked for *)

Lemma fetch_nps_images_length (park_code : string) (w : world)
    (images : list nps_image) (w' : world) :
  fetch_nps_images park_code w = (inr images, w') -> (length images <= 5)%nat.
Proof.
  unfold fetch_nps_images. intros E.
  apply try_inv in E as [(a & E & [= <-])|(e & w1 & _ & [= <- _])]; [|cbn; lia].
  apply bind_inv in E as [(e & _ & [=])|(response & w1 & _ & E)].
  apply bind_inv in E as [(e & _ & [=])|([] & w2 & _ & E)].
  apply bind_inv in E as [(e & _ & [=])|(data & w3 & _ & E)].
  apply bind_inv in E as [(e & _ & [=])|(found & w4 & _ & E)].
  apply bind_inv in E as [(e & _ & [=])|(imgs & w5 & E5 & E)].
  apply bind_inv in E as [(e & _ & [=])|([] & w6 & _ & E)].
  inversion E; subst imgs; clear E.
  destruct (truthy found); [|inversion E5; cbn; lia].
  apply bind_inv in E5 as [(e & _ & [=])|(rows & v1 & _ & E5)].
  apply bind_inv in E5 as [(e & _ & [=])|(n & v2 & _ & E5)].
  destruct (0 <? n); [|inversion E5; cbn; lia].
  apply bind_inv in E5 as [(e & _ & [=])|(park_data & v3 & _ & E5)].
  apply bind_inv in E5 as [(e & _ & [=])|(imgs & v4 & _ & E5)].
  apply bind_inv in E5 as [(e & _ & [=])|(items & v5 & L & E5)].
  apply lift_inv in L as [_ L]. symmetry in L.
  apply FetchAssetsMvpMore.iter_slice_length in L; [|lia].
  apply map_py_length in E5. cbn in L. lia.
Qed.

Lemma world_unsplash_photos_length (park_name country : string) (count : Z)
    (w : world) (photos : list photo) (w' : world) :
  0 <= count ->
  fetch_unsplash_photos park_name country count w = (inr photos, w') ->
  (length photos <= Z.to_nat count)%nat.
Proof.
  intros Hc E. unfold fetch_unsplash_photos in E.
  apply try_inv in E as [(a & E & [= <-])|(e & w1 & _ & [= <- _])]; [|cbn; lia].
  apply bind_inv in E as [(e & _ & [=])|(response & w1 & _ & E)].
  apply bind_inv in E as [(e & _ & [=])|([] & w2 & _ & E)].
  apply bind_inv in E as [(e & _ & [=])|(data & w3 & _ & E)].
  apply bind_inv in E as [(e & _ & [=])|(results & w4 & _ & E)].
  apply bind_inv in E as [(e & _ & [=])|(items & w5 & L & E)].
  apply bind_inv in E as [(e & _ & [=])|(found & w6 & M & E)].
  apply bind_inv in E as [(e & _ & [=])|([] & w7 & _ & E)].
  inversion E; subst found; clear E.
  apply lift_inv in L as [_ L]. symmetry in L.
  apply FetchAssetsMvpMore.iter_slice_length in L; [|exact Hc].
  apply map_py_length in M. lia.
Qed.

(** ** One park *)

Lemma world_save_park_data_rows (p : park) (nps_images : list nps_image)
    (unsplash_photos : list photo) (nasa_validated : bool)
    (satellite_url : option string) (w : world) (r : exn + unit) (w' : world) :
  save_park_data p nps_images unsplash_photos nasa_validated satellite_url w = (r, w') ->
  match r with
  | inl _ => commits w' = commits w
  | inr _ =>
      exists row nps photos sat,
        commits w' = commits w
                     ++ [InsertOrReplacePark row :: map InsertImage (nps ++ photos ++ sat)]
        /\ p_id row = id p
        /\ Forall (nps_row (id p)) nps /\ length nps = length nps_images
        /\ Forall (unsplash_row (id p)) photos /\ length photos = length unsplash_photos
        /\ Forall (satellite_row (id p)) sat /\ (length sat <= 1)%nat
  end.
Proof.
  unfold save_park_data. intros E.
  apply bind_inv in E as [(e & [=] & _)|(t & w1 & [= <- <-] & E)].
  apply bind_inv in E as [(e & E3 & ->)|(txn & w3 & E3 & E)].
  { by apply execute_inv in E3 as (_ & C & _). }
  apply execute_inv in E3 as (_ & C3 & [[=]|[= ->]]).
  apply bind_inv in E as [(e & E4 & ->)|(txn1 & w4 & E4 & E)].
  { apply (fold_adds_rows (nps_row (id p))) in E4 as [C _];
      [congruence|apply save_nps_image_row]. }
  apply (fold_adds_rows (nps_row (id p))) in E4 as [C4 (nps & -> & Hnps & Ln)];
    [|apply save_nps_image_row].
  apply bind_inv in E as [(e & E5 & ->)|(txn2 & w5 & E5 & E)].
  { apply (fold_adds_rows (unsplash_row (id p))) in E5 as [C _];
      [congruence|apply save_unsplash_photo_row]. }
  apply (fold_adds_rows (unsplash_row (id p))) in E5 as [C5 (photos & -> & Hph & Lp)];
    [|apply save_unsplash_photo_row].
  apply bind_inv in E as [(e & E6 & ->)|(txn3 & w6 & E6 & E)].
  { apply save_satellite_row in E6 as [C _]. congruence. }
  apply save_satellite_row in E6 as [C6 (sat & -> & Hsat & Ls)].
  apply commit_inv in E as [(-> & _ & C)|(-> & _ & C)]; [congruence|].
  exists (match park_statement p nasa_validated (clock w) with
          | InsertOrReplacePark row => row
          | InsertImage _ => ParkRow 0 "" "" None SqlNull 0 0 "" 0 0 "" SqlNull None 0
          end), nps, photos, sat.
  split.
  { rewrite C, C6, C5, C4, C3. cbn. rewrite !map_app, <- !app_assoc. reflexivity. }
  cbn. repeat split; auto.
Qed.

(** Everything a round may do is true of this relation. *)
Definition anything (w w' : world) : Prop := True.

#[local] Instance anything_refl : Reflexive anything.
Proof. by intros w. Qed.

#[local] Instance anything_trans : Transitive anything.
Proof. by intros w1 w2 w3. Qed.

Lemma world_process_park_rows :
  commits_one anything (fun p _ txn => world_txn p txn) process_park.
Proof.
  intros p w r w' E. split; [exact I|]. unfold process_park in E.
  apply bind_quiet in E as (validated & w1 & _ & E & _ & C1);
    [|apply validate_location_with_nasa_never_raises|apply keeps_validate_location_with_nasa].
  apply bind_quiet in E as ([] & w2 & _ & E & _ & C2);
    [|apply never_raises_sleep|apply keeps_sleep].
  apply bind_inv in E as [(e & E3 & _)|(nps_images & w3 & E3 & E)].
  { exfalso. destruct (String.eqb (country p) "United States").
    - apply bind_inv in E3 as [(e' & E3 & _)|(imgs & v1 & _ & E3)].
      + destruct (fetch_nps_images_never_raises (nps_code_of (code p)) w2) as [a Ha].
        rewrite E3 in Ha. discriminate.
      + apply bind_inv in E3 as [(e' & [=] & _)|([] & v2 & _ & [=])].
    - discriminate. }
  assert (Hnps : commits w3 = commits w2 /\ (length nps_images <= 5)%nat
                 /\ (country p <> "United States" -> nps_images = [])).
  { destruct (String.eqb_spec (country p) "United States") as [Hus|Hus].
    - apply bind_inv in E3 as [(e' & _ & [=])|(imgs & v1 & F & E3)].
      destruct (keeps_run _ _ _ _ (keeps_fetch_nps_images _) F) as [_ Cf].
      apply fetch_nps_images_length in F.
      apply bind_inv in E3 as [(e' & [=] & _)|([] & v2 & [= <-] & E3)].
      inversion E3; subst. cbn. repeat split; auto. congruence.
    - inversion E3; subst. cbn. repeat split; auto. lia. }
  destruct Hnps as (C3 & Ln & Hus).
  apply bind_inv in E as [(e & E4 & _)|(photos & w4 & E4 & E)].
  { destruct (world_unsplash_photos_never_raises (name p) (country p)
                (Z.max 1 (5 - Z.of_nat (length nps_images))) w3) as [a Ha].
    rewrite E4 in Ha. discriminate. }
  destruct (keeps_run _ _ _ _ (keeps_world_unsplash_photos _ _ _) E4) as [_ C4].
  apply world_unsplash_photos_length in E4; [|lia].
  apply bind_quiet in E as ([] & w5 & _ & E & _ & C5);
    [|apply never_raises_sleep|apply keeps_sleep].
  apply world_save_park_data_rows in E.
  assert (Cw : commits w5 = commits w) by congruence.
  destruct r as [e|u]; [congruence|].
  destruct E as (row & nps & photos' & sat & C & Hrow & Hnps & Ln' & Hph & Lp & Hsat & Ls).
  eexists. split; [rewrite C, Cw; reflexivity|].
  exists row, nps, photos', sat. split; [reflexivity|]. split; [exact Hrow|].
  split; [exact Hnps|]. split; [exact Hph|]. split; [exact Hsat|].
  split; [lia|]. split.
  { intros Hc. specialize (Hus Hc). subst nps_images. by destruct nps. }
  split; [|exact Ls]. rewrite Ln', Lp. exact E4.
Qed.

(** X10.  What a run of [fetch_all_parks_data] commits.  One transaction
    per saved park, for a prefix of the parks to process; each is the upsert
    of the park, then its NPS rows (type and source [nps], each with an
    inline JPEG as placeholder; at most five, and none for a park outside
    the United States), then its Unsplash rows (type [photo], source
    [unsplash]; at most [max(1, 5 - number of NPS rows)]), then at most one
    satellite row (source [nasa], with a non-empty url).  So a run gives a
    park at most seven gallery rows in all. *)
Theorem world_rows_of_a_park (all_parks : list park) (limit : option Z) (w : world) :
  exists saved txns,
    saved `prefix_of` FetchAssetsMvp.parks_to_process all_parks limit
    /\ commits (fetch_all_parks_data all_parks limit w).2 = commits w ++ txns
    /\ Forall2 world_txn saved txns
    /\ Forall (fun txn => (length (image_rows txn) <= 7)%nat) txns
    /\ match (fetch_all_parks_data all_parks limit w).1 with
       | inr _ => saved = FetchAssetsMvp.parks_to_process all_parks limit
       | inl _ => True
       end.
Proof.
  unfold fetch_all_parks_data.
  destruct (for_each (FetchAssetsMvp.parks_to_process all_parks limit) process_park w)
    as [r w'] eqn:E.
  cbn [fst snd].
  eapply (for_each_commits anything (fun p _ txn => world_txn p txn)) in E
    as [_ (saved & txns & Hpre & C & Hall & Hr)];
    [|apply world_process_park_rows|auto].
  exists saved, txns. repeat split; auto.
  clear -Hall. induction Hall as [|p txn saved txns Ht _ IH]; constructor; [|exact IH].
  destruct Ht as (row & nps & photos & sat & -> & _ & _ & _ & _ & Ln & _ & Lp & Ls).
  cbn. rewrite image_rows_inserts, !length_app. lia.
Qed.

End WithLib.

End FetchWorldParksRows.
(* ===================================================================== *)
(** * Facts: the API usage counters of fetch_world_parks_data.py          *)
(* ===================================================================== *)

Module FetchWorldParksCounters.
Import Json Sqlite Ingest IngestFacts Frames IngestFrames FetchWorldParks
  FetchWorldParksFacts.

(** The requests sent to a provider so far, and the value of a counter of
    [self.api_calls]. *)
Definition sent (p : provider) (w : world) : Z :=
  Z.of_nat (length (filter (fun c => call_provider c = p) (calls w))).

Definition counted (key : string) (w : world) : Z :=
  default 0 (api_calls w !! key).

Lemma sent_log (p p' : provider) (url : string) (w w' : world) :
  calls w' = calls w ++ [Call p' url (clock w)] ->
  sent p w' = sent p w + (if decide (p' = p) then 1 else 0).
Proof.
  intros C. unfold sent. rewrite C, filter_app, length_app.
  destruct (decide (p' = p)) as [->|Hne].
  - rewrite (filter_cons_True _ (Call p url (clock w)) []); [|reflexivity]. cbn. lia.
  - rewrite (filter_cons_False _ (Call p' url (clock w)) []); [|exact Hne]. cbn. lia.
Qed.

Section Credit.
Context (p : provider) (key : string).

(** How far the requests sent to [p] are ahead of the counter [key]. *)
Definition slack (w : world) : Z := sent p w - counted key w.

(** Started with the counter at most [pre] ahead of what the requests
    allow, the computation ends with it at most [post a] ahead when it
    returns [a], and not ahead at all when it raises. *)
Definition earns {A} (m : py world A) (pre : Z) (post : A -> Z) : Prop :=
  forall w,
    match m w with
    | (inr a, w') => post a - pre <= slack w' - slack w
    | (inl _, w') => - pre <= slack w' - slack w
    end.

Lemma earns_ret {A} (a : A) (pre : Z) (post : A -> Z) :
  post a <= pre -> earns (ret a) pre post.
Proof. intros Hle w. cbn. lia. Qed.

Lemma earns_bind {A B} (m : py world A) (k : A -> py world B) (pre : Z)
    (mid : A -> Z) (post : B -> Z) :
  earns m pre mid -> (forall a, earns (k a) (mid a) post) -> earns (bind m k) pre post.
Proof.
  intros Hm Hk w. unfold bind. specialize (Hm w).
  destruct (m w) as [[e|a] w1]; [exact Hm|].
  specialize (Hk a w1). destruct (k a w1) as [[e|b] w2]; lia.
Qed.

Lemma earns_try {A} (body : py world A) (handler : exn -> py world A) (pre : Z)
    (post : A -> Z) :
  earns body pre post -> (forall e, earns (handler e) 0 post) ->
  earns (try_except body handler) pre post.
Proof.
  intros Hb Hh w. unfold try_except. specialize (Hb w).
  destruct (body w) as [[e|a] w1]; [|exact Hb].
  specialize (Hh e w1). destruct (handler e w1) as [[e'|a] w2]; lia.
Qed.

Lemma earns_weaken {A} (m : py world A) (pre pre' : Z) (post post' : A -> Z) :
  earns m pre post -> pre <= pre' -> (forall a, post' a - pre' <= post a - pre) ->
  earns m pre' post'.
Proof.
  intros Hm Hpre Hpost w. specialize (Hm w).
  destruct (m w) as [[e|a] w1]; [lia|]. specialize (Hpost a). lia.
Qed.

(** Steps that send requests or not, and leave the counter alone. *)
Definition no_count (w w' : world) : Prop :=
  sent p w <= sent p w' /\ counted key w' = counted key w.

#[local] Instance no_count_refl : Reflexive no_count.
Proof. intros w. split; [lia|reflexivity]. Qed.

#[local] Instance no_count_trans : Transitive no_count.
Proof. intros w1 w2 w3 [S1 C1] [S2 C2]. split; [lia|congruence]. Qed.

Lemma no_count_same (w w' : world) :
  calls w' = calls w -> api_calls w' = api_calls w -> no_count w w'.
Proof. intros E1 E2. unfold no_count, sent, counted. rewrite E1, E2. split; [lia|done]. Qed.

Lemma no_count_requests_get (p' : provider) (url : string) :
  steps no_count (requests_get p' url).
Proof.
  intros w. destruct (requests_get_log p' url w) as (C & _ & A & _).
  split; [|unfold counted; by rewrite A].
  rewrite (sent_log p p' url w _ C). destruct (decide (p' = p)); lia.
Qed.

Lemma no_count_db_fault : steps no_count db_fault.
Proof.
  intros w. unfold db_fault.
  destruct (db_faults w) as [|[|] rest]; cbn; by apply no_count_same.
Qed.

Lemma no_count_raise_for_status (r : http_response) : steps no_count (raise_for_status r).
Proof. intros w. unfold raise_for_status. destruct (_ && _); cbn; reflexivity. Qed.

Lemma no_count_other_counter (key' : string) (n : Z) :
  key' <> key -> steps no_count (modify (count_api_calls key' n)).
Proof.
  intros Hne w. split; [unfold sent; cbn; lia|]. unfold counted. cbn.
  by rewrite lookup_insert_ne.
Qed.

Lemma earns_steps {A} (m : py world A) (pre : Z) :
  steps no_count m -> 0 <= pre -> earns m pre (fun _ => pre).
Proof.
  intros Hm Hpre w. destruct (Hm w) as [S C].
  unfold slack. destruct (m w) as [[e|a] w1]; cbn [snd] in *; lia.
Qed.

Lemma earns_request (url : string) (pre : Z) :
  0 <= pre -> earns (requests_get p url) pre (fun _ => pre + 1).
Proof.
  intros Hpre w. destruct (requests_get_log p url w) as (C & _ & A & _).
  pose proof (sent_log p p url w _ C) as S. rewrite decide_True in S by done.
  destruct (requests_get p url w) as [[e|a] w1]; cbn [snd] in *;
    unfold slack, counted; rewrite A; lia.
Qed.

Lemma earns_count (n : Z) (pre : Z) :
  earns (modify (count_api_calls key n)) pre (fun _ => pre - n).
Proof.
  intros w. cbn. unfold slack, sent, counted. cbn. rewrite lookup_insert_eq. cbn. lia.
Qed.

Lemma earns_for_each {A} (xs : list A) (body : A -> py world unit) :
  (forall x, earns (body x) 0 (fun _ => 0)) -> earns (for_each xs body) 0 (fun _ => 0).
Proof.
  intros Hb. induction xs as [|x xs IH]; cbn [for_each]; [by apply earns_ret|].
  eapply earns_bind; [apply Hb|intros ?; exact IH].
Qed.

End Credit.

#[local] Existing Instance no_count_refl.
#[local] Existing Instance no_count_trans.

Ltac no_count_prim :=
  first
    [ apply no_count_requests_get | apply no_count_db_fault
    | apply no_count_raise_for_status
    | solve [apply no_count_other_counter; discriminate]
    | solve [apply steps_lift; typeclasses eauto]
    | solve [apply steps_modify; intros ?; apply no_count_same; reflexivity]
    | solve [intros ?; apply no_count_same; reflexivity] ].

Ltac no_count_frame := frame no_count_prim.

(** A step of which the counter and the log of requests know nothing. *)
Ltac earns_nothing := apply earns_steps; [no_count_frame|lia].

(** The provider a counter stands for. *)
Definition counter_of (p : provider) : option string :=
  match p with
  | Unsplash => Some "unsplash"
  | Nps => Some "nps"
  | Nasa => Some "nasa"
  | ImageHost => None
  end.

Section WithLib.
Context `{Lib}.

Lemma validate_location_with_nasa_earns (p : provider) (key : string) (lat lon : Q) :
  counter_of p = Some key ->
  earns p key (validate_location_with_nasa lat lon) 0 (fun _ => 0).
Proof.
  intros Hc. destruct p; inversion Hc; subst key; clear Hc.
  - unfold validate_location_with_nasa, nasa_image_lookup, save_nasa_image. earns_nothing.
  - unfold validate_location_with_nasa, nasa_image_lookup, save_nasa_image. earns_nothing.
  - unfold validate_location_with_nasa.
    apply earns_try; [|intros e; by apply earns_ret].
    eapply earns_bind with (mid := fun found => match found with
                                                | Some _ => 0
                                                | None => 1
                                                end).
    + unfold nasa_image_lookup.
      eapply earns_bind; [apply earns_request; lia|]. intros response. cbv beta.
      destruct (status_code response =? 200); [|by apply earns_ret].
      eapply earns_bind; [earns_nothing|]. intros data. cbv beta.
      eapply earns_bind; [earns_nothing|]. intros count. cbv beta.
      eapply earns_bind; [earns_nothing|]. intros positive. cbv beta.
      destruct positive; [|by apply earns_ret].
      eapply earns_bind; [apply earns_request; lia|]. intros image. cbv beta.
      destruct (_ && _); [|apply earns_ret; lia].
      eapply earns_bind; [apply earns_count|]. intros ?. cbv beta.
      eapply earns_bind; [unfold save_nasa_image; earns_nothing|]. intros path. cbv beta.
      apply earns_ret. lia.
    + intros [path|]; [by apply earns_ret|].
      eapply earns_bind; [apply earns_count|]. intros ?. cbv beta.
      apply earns_ret. lia.
Qed.

Lemma fetch_nps_images_earns (p : provider) (key : string) (park_code : string) :
  counter_of p = Some key ->
  earns p key (fetch_nps_images park_code) 0 (fun _ => 0).
Proof.
  intros Hc. destruct p; inversion Hc; subst key; clear Hc.
  - unfold fetch_nps_images. earns_nothing.
  - unfold fetch_nps_images.
    apply earns_try; [|intros e; by apply earns_ret].
    eapply earns_bind; [apply earns_request; lia|]. intros response. cbv beta.
    eapply earns_bind; [earns_nothing|]. intros ?. cbv beta.
    eapply earns_bind; [earns_nothing|]. intros data. cbv beta.
    eapply earns_bind; [earns_nothing|]. intros found. cbv beta.
    eapply earns_bind; [earns_nothing|]. intros images. cbv beta.
    eapply earns_bind; [apply earns_count|]. intros ?. cbv beta.
    apply earns_ret. lia.
  - unfold fetch_nps_images. earns_nothing.
Qed.

Lemma fetch_unsplash_photos_earns (p : provider) (key : string)
    (park_name country : string) (count : Z) :
  counter_of p = Some key ->
  earns p key (fetch_unsplash_photos park_name country count) 0 (fun _ => 0).
Proof.
  intros Hc. destruct p; inversion Hc; subst key; clear Hc.
  - unfold fetch_unsplash_photos.
    apply earns_try; [|intros e; by apply earns_ret].
    eapply earns_bind; [apply earns_request; lia|]. intros response. cbv beta.
    eapply earns_bind; [earns_nothing|]. intros ?. cbv beta.
    eapply earns_bind; [earns_nothing|]. intros data. cbv beta.
    eapply earns_bind; [earns_nothing|]. intros results. cbv beta.
    eapply earns_bind; [earns_nothing|]. intros items. cbv beta.
    eapply earns_bind; [earns_nothing|]. intros photos. cbv beta.
    eapply earns_bind; [apply earns_count|]. intros ?. cbv beta.
    apply earns_ret. lia.
  - unfold fetch_unsplash_photos. earns_nothing.
  - unfold fetch_unsplash_photos. earns_nothing.
Qed.

Lemma save_park_data_earns (p : provider) (key : string) (pk : park)
    (nps_images : list nps_image) (unsplash_photos : list photo) (nasa_validated : bool)
    (satellite_url : option string) :
  earns p key (save_park_data pk nps_images unsplash_photos nasa_validated satellite_url)
        0 (fun _ => 0).
Proof.
  unfold save_park_data, save_nps_image, save_unsplash_photo, save_satellite,
    generate_blur_hash, execute, commit.
  earns_nothing.
Qed.

Lemma process_park_earns (p : provider) (key : string) (pk : park) :
  counter_of p = Some key -> earns p key (process_park pk) 0 (fun _ => 0).
Proof.
  intros Hc. unfold process_park.
  eapply earns_bind; [by apply validate_location_with_nasa_earns|]. intros validated.
  cbv beta. eapply earns_bind; [earns_nothing|]. intros ?. cbv beta.
  eapply earns_bind with (mid := fun _ => 0).
  { destruct (String.eqb (country pk) "United States"); [|by apply earns_ret].
    eapply earns_bind; [by apply fetch_nps_images_earns|]. intros imgs. cbv beta.
    eapply earns_bind; [earns_nothing|]. intros ?. cbv beta. by apply earns_ret. }
  intros nps_images. cbv beta.
  eapply earns_bind; [by apply fetch_unsplash_photos_earns|]. intros photos. cbv beta.
  eapply earns_bind; [earns_nothing|]. intros ?. cbv beta.
  apply save_park_data_earns.
Qed.

(** X11.  The usage counters never run ahead of the requests.  Over any run
    of [fetch_all_parks_data], however it ends, each of the three counters of
    [self.api_calls] goes up by at most the number of requests the run sent
    to the provider it stands for.  (It can stay behind: a request that ends
    in an exception is not counted, and the two NASA requests of a validation
    that gets no image count as one.) *)
Theorem counters_never_run_ahead (all_parks : list park) (limit : option Z) (w : world) :
  let w' := (fetch_all_parks_data all_parks limit w).2 in
  counted "nasa" w' - counted "nasa" w <= sent Nasa w' - sent Nasa w
  /\ counted "nps" w' - counted "nps" w <= sent Nps w' - sent Nps w
  /\ counted "unsplash" w' - counted "unsplash" w <= sent Unsplash w' - sent Unsplash w.
Proof.
  assert (G : forall p key, counter_of p = Some key ->
                let w' := (fetch_all_parks_data all_parks limit w).2 in
                counted key w' - counted key w <= sent p w' - sent p w).
  { intros p key Hc. cbn zeta. unfold fetch_all_parks_data.
    pose proof (earns_for_each p key (FetchAssetsMvp.parks_to_process all_parks limit)
                  process_park (fun pk => process_park_earns p key pk Hc) w) as He.
    unfold slack in He.
    destruct (for_each _ process_park w) as [[e|[]] w']; cbn [snd]; lia. }
  cbn zeta. split; [by apply G|]. split; by apply G.
Qed.

End WithLib.

(** A validation that finds an asset but gets no image: two requests, one
    counted. *)
Lemma two_nasa_requests_counted_once :
  let w := Examples.fresh [Examples.nasa_one_asset; Examples.nasa_not_found] in
  let w' := (@validate_location_with_nasa Examples.toy_lib 0 0 w).2 in
  sent Nasa w' = 2 /\ counted "nasa" w' = 1.
Proof. vm_compute. split; reflexivity. Qed.

End FetchWorldParksCounters.
(* ===================================================================== *)
(** * Facts: fix_textures.py                                              *)
(* ===================================================================== *)

Module FixTexturesRunFacts.
Import Download Compositing Synth FixTexturesRun.

(** ** Cloud alpha *)

Lemma blob_alpha_range (dist : Q) :
  (0 <= dist)%Q -> (dist < 1)%Q -> 0 <= blob_alpha dist <= 128.
Proof.
  intros H0 H1. unfold blob_alpha, py_int.
  assert (Hlo : (0 <= (1 - dist) * 128)%Q) by lra.
  assert (Hhi : ((1 - dist) * 128 <= 128)%Q) by lra.
  apply Qle_bool_iff in Hlo as Hb. rewrite Hb.
  pose proof (Qfloor_resp_le _ _ Hlo) as F0. pose proof (Qfloor_resp_le _ _ Hhi) as F1.
  change (Qfloor 0) with 0 in F0. change (Qfloor 128) with 128 in F1. lia.
Qed.

(** X12.  Cloud alpha in [create_clouds_map].  A blob adds between 0 and
    128 to the alpha of a pixel, 128 at its centre.  When NumPy types the sum
    of the [uint8] alpha and the [int] as an [int64] (NumPy 1.x), the new
    alpha is the sum capped at 255: it never goes down and never leaves
    [0, 255].  When the sum stays a [uint8] (NumPy 2), it wraps around before
    [min(255, ...)] sees it, so the cap never applies: the new alpha is the
    sum modulo 256, lower than the old one whenever the sum passes 255; two
    blobs centred on the same pixel leave it fully transparent. *)
Theorem cloud_alpha_is_capped_or_wraps (old : Z) (dist : Q) :
  0 <= old <= 255 -> (0 <= dist)%Q -> (dist < 1)%Q ->
  0 <= blob_alpha dist <= 128
  /\ blob_alpha 0 = 128
  /\ old <= cloud_alpha ValueBased old (blob_alpha dist) <= 255
  /\ cloud_alpha ValueBased old (blob_alpha dist) = Z.min 255 (old + blob_alpha dist)
  /\ cloud_alpha Weak old (blob_alpha dist) = (old + blob_alpha dist) mod 256
  /\ (255 < old + blob_alpha dist -> cloud_alpha Weak old (blob_alpha dist) < old)
  /\ cloud_alpha Weak (cloud_alpha Weak 0 (blob_alpha 0)) (blob_alpha 0) = 0.
Proof.
  intros Ho H0 H1. pose proof (blob_alpha_range dist H0 H1) as Ha.
  split; [exact Ha|]. split; [reflexivity|].
  unfold cloud_alpha, uint8_plus_int.
  pose proof (Z.mod_pos_bound (old + blob_alpha dist) 256 ltac:(lia)) as Hm.
  split; [lia|]. split; [reflexivity|]. split; [lia|]. split; [|reflexivity].
  intros Hover.
  assert (E : (old + blob_alpha dist) mod 256 = old + blob_alpha dist - 256).
  { symmetry. apply (Z.mod_unique _ _ 1); lia. }
  lia.
Qed.

Lemma cloud_alpha_is_capped_or_wraps_witness :
  cloud_alpha ValueBased 200 (blob_alpha (1 # 4)) = Z.min 255 (200 + blob_alpha (1 # 4))
  /\ cloud_alpha Weak 200 (blob_alpha (1 # 4)) = (200 + blob_alpha (1 # 4)) mod 256.
Proof.
  destruct (cloud_alpha_is_capped_or_wraps 200 (1 # 4)) as (_ & _ & _ & Hv & Hw & _).
  - lia.
  - discriminate.
  - reflexivity.
  - split; [exact Hv|exact Hw].
Defined.

(** ** The run *)

Section WithNumpy.
Context `{Numpy}.

Section WithImaging.
Context `{Imaging}.
Context (p : promotion) (rng : rng_state).

Definition texture_names : list string :=
  ["earth_specular.jpg"; "earth_clouds.png"; "earth_night.jpg"].

Lemma texture_names_spec : map fst (textures p rng) = texture_names.
Proof. reflexivity. Qed.

Lemma ensure_all_unbound (entries : list (string * (Z -> Z -> string -> bytes)))
    (w : world) :
  ensure_all None entries w
  = if existsb (fun entry => FixTextures.needs_creating (texture_path entry.1) w) entries
    then (inl (NameError "width"), w)
    else (inr tt, w).
Proof.
  induction entries as [|entry rest IH]; cbn [ensure_all existsb]; [reflexivity|].
  unfold ensure. destruct (FixTextures.needs_creating (texture_path entry.1) w);
    cbn [orb]; [reflexivity|exact IH].
Qed.

Lemma ensure_all_bound (width height : Z)
    (entries : list (string * (Z -> Z -> string -> bytes))) (w : world) :
  exists w',
    ensure_all (Some (width, height)) entries w = (inr tt, w')
    /\ Forall (fun entry => is_Some (fs w' !! texture_path entry.1)) entries
    /\ (forall path, is_Some (fs w !! path) -> is_Some (fs w' !! path)).
Proof.
  revert w. induction entries as [|entry rest IH]; intros w; cbn [ensure_all].
  - exists w. repeat split; auto.
  - unfold ensure.
    destruct (FixTextures.needs_creating (texture_path entry.1) w) eqn:Hn.
    + destruct (IH (write_file (texture_path entry.1)
                      (entry.2 width height (texture_path entry.1)) w))
        as (w' & E & Hall & Hmono).
      exists w'. split; [exact E|]. split.
      * constructor; [|exact Hall]. apply Hmono. cbn. rewrite lookup_insert_eq. by eexists.
      * intros path Hp. apply Hmono. cbn.
        destruct (decide (texture_path entry.1 = path)) as [->|Hne].
        -- rewrite lookup_insert_eq. by eexists.
        -- by rewrite lookup_insert_ne.
    + destruct (IH w) as (w' & E & Hall & Hmono).
      exists w'. split; [exact E|]. split; [|exact Hmono].
      constructor; [|exact Hall]. apply Hmono.
      unfold FixTextures.needs_creating in Hn.
      destruct (fs w !! texture_path entry.1); [by eexists|discriminate].
Qed.

Lemma convert_day_elsewhere (w : world) (r : failure + unit) (w1 : world) (path : string) :
  convert_day w = (r, w1) -> path <> texture_path "earth_day.jpg" ->
  fs w1 !! path = fs w !! path.
Proof.
  unfold convert_day. intros E Hne.
  destruct (fs w !! texture_path "earth_day.jpg") as [data|]; [|by inversion E].
  destruct (image_format data) as [format|]; [|by inversion E].
  destruct (String.eqb format "PNG"); [|by inversion E].
  destruct (to_jpeg data); inversion E; subst; [|reflexivity].
  cbn. by rewrite lookup_insert_ne.
Qed.

Lemma needs_creating_same (path : string) (w w1 : world) :
  fs w1 !! path = fs w !! path ->
  FixTextures.needs_creating path w1 = FixTextures.needs_creating path w.
Proof. intros E. unfold FixTextures.needs_creating. by rewrite E. Qed.

(** X13.  What [fix_textures] repairs, once the day texture is dealt with.
    If the normal map is missing or smaller than 10000 bytes, it is written
    again and so is every other texture that is missing or too small; the
    script returns and all four files exist.  If the normal map is in place,
    [width] and [height] are never assigned: as soon as one of the three
    other textures needs repair the script stops with a [NameError], having
    created nothing; only when none needs repair does it return. *)
Theorem repairs_need_the_normal_map_to_be_missing (w w1 : world) :
  convert_day w = (inr tt, w1) ->
  if FixTextures.needs_creating (texture_path "earth_normal.jpg") w
  then exists w',
         fix_textures p rng w = (inr tt, w')
         /\ Forall (fun name => is_Some (fs w' !! texture_path name))
                   ("earth_normal.jpg" :: texture_names)
  else if existsb (fun name => FixTextures.needs_creating (texture_path name) w)
                  texture_names
       then fix_textures p rng w = (inl (NameError "width"), w1)
       else fix_textures p rng w = (inr tt, w1).
Proof.
  intros E.
  assert (Hsame : forall name, name ∈ "earth_normal.jpg" :: texture_names ->
                    FixTextures.needs_creating (texture_path name) w1
                    = FixTextures.needs_creating (texture_path name) w).
  { intros name Hin. apply needs_creating_same. eapply convert_day_elsewhere; [exact E|].
    unfold texture_names in Hin.
    repeat (apply elem_of_cons in Hin as [->|Hin];
            [intros Heq; vm_compute in Heq; discriminate Heq|]).
    by apply elem_of_nil in Hin. }
  unfold fix_textures. rewrite E. unfold fix_normal.
  rewrite (Hsame "earth_normal.jpg") by (apply elem_of_cons; by left).
  destruct (FixTextures.needs_creating (texture_path "earth_normal.jpg") w).
  - destruct (ensure_all_bound 2048 1024 (textures p rng)
                (write_file (texture_path "earth_normal.jpg")
                   (save_rgb 2048 1024 (normal_map 2048 1024)
                      (texture_path "earth_normal.jpg")) w1))
      as (w' & E' & Hall & Hmono).
    exists w'. split; [exact E'|]. constructor.
    + apply Hmono. cbn. rewrite lookup_insert_eq. by eexists.
    + rewrite <- texture_names_spec. by apply Forall_fmap.
  - rewrite ensure_all_unbound.
    assert (Hex : existsb (fun entry => FixTextures.needs_creating (texture_path entry.1) w1)
                          (textures p rng)
                  = existsb (fun name => FixTextures.needs_creating (texture_path name) w)
                            texture_names).
    { unfold textures, texture_names. cbn [existsb fst].
      rewrite (Hsame "earth_specular.jpg"), (Hsame "earth_clouds.png"),
        (Hsame "earth_night.jpg"); [reflexivity| | |]; unfold texture_names;
        repeat (apply elem_of_cons; first [left; reflexivity|right]). }
    rewrite Hex. by destruct (existsb _ texture_names).
Qed.

End WithImaging.

End WithNumpy.

(** A stand-in for Pillow: a file is an image if it is not empty. *)
Definition toy_imaging : Imaging := {|
  image_format := fun data => match data with [] => None | _ => Some "JPEG"%string end;
  to_jpeg := fun data => Some data;
  save_gray := fun _ _ _ _ => [Byte.x01];
  save_rgb := fun _ _ _ _ => [Byte.x02];
  save_rgba := fun _ _ _ _ => [Byte.x03]
|}.

(** Only the normal map is there, with 10000 bytes. *)
Definition only_the_normal_map : world :=
  World [] {[texture_path "earth_normal.jpg" := repeat Byte.x00 (Z.to_nat 10000)]} [].

Lemma repairs_need_the_normal_map_to_be_missing_witness :
  if FixTextures.needs_creating (texture_path "earth_normal.jpg") only_the_normal_map
  then exists w',
         @fix_textures Examples.tape_numpy toy_imaging ValueBased [] only_the_normal_map
         = (inr tt, w')
         /\ Forall (fun name => is_Some (fs w' !! texture_path name))
                   ("earth_normal.jpg" :: texture_names)
  else if existsb (fun name => FixTextures.needs_creating (texture_path name)
                                 only_the_normal_map) texture_names
       then @fix_textures Examples.tape_numpy toy_imaging ValueBased [] only_the_normal_map
            = (inl (NameError "width"), only_the_normal_map)
       else @fix_textures Examples.tape_numpy toy_imaging ValueBased [] only_the_normal_map
            = (inr tt, only_the_normal_map).
Proof.
  apply (@repairs_need_the_normal_map_to_be_missing Examples.tape_numpy toy_imaging
           ValueBased [] only_the_normal_map only_the_normal_map).
  reflexivity.
Defined.

(** ... and the script stops there. *)
Lemma name_error_with_only_the_normal_map :
  (@fix_textures Examples.tape_numpy toy_imaging ValueBased [] only_the_normal_map).1
  = inl (NameError "width").
Proof. vm_compute. reflexivity. Qed.

End FixTexturesRunFacts.
(* ===================================================================== *)
(** * Facts: the night texture of create_earth_textures.py                *)
(* ===================================================================== *)

Module CreateEarthTexturesNightFacts.
Import Compositing Synth CreateEarthTexturesNight.

(** A pixel of the night array: dark, or lit by a city with an intensity
    within the brightness of the brightest city, stored without loss other
    than the fraction. *)
Definition lit_or_dark (px : rgb) : Prop :=
  px = (0, 0, 0)
  \/ exists intensity : Q,
       (0 < intensity)%Q /\ (intensity <= 80)%Q
       /\ px = (py_int (intensity * 2), py_int (intensity * (3 # 2)),
                py_int (intensity * (1 # 2))).

Lemma astype_uint8_in_range (q : Q) :
  (0 <= q)%Q -> (q <= 255)%Q -> astype_uint8 q = py_int q.
Proof.
  intros H0 H1. unfold astype_uint8.
  pose proof (CompositingFacts.py_int_range q H0 H1). apply Z.mod_small. lia.
Qed.

Lemma py_int_monotone (q q' : Q) : (0 <= q)%Q -> (q <= q')%Q -> py_int q <= py_int q'.
Proof.
  intros H0 Hle. unfold py_int.
  assert (H0' : (0 <= q')%Q) by (eapply Qle_trans; eauto).
  apply Qle_bool_iff in H0 as ->. apply Qle_bool_iff in H0' as ->.
  by apply Qfloor_resp_le.
Qed.

Lemma lit_or_dark_bounds (px : rgb) :
  lit_or_dark px -> 0 <= px.2 /\ px.2 <= px.1.2 /\ px.1.2 <= px.1.1 /\ px.1.1 <= 160.
Proof.
  intros [->|(i & Hpos & Hle & ->)]; cbn [fst snd]; [lia|].
  assert (B0 : 0 <= py_int (i * (1 # 2))).
  { change 0 with (py_int 0). apply py_int_monotone; lra. }
  assert (B1 : py_int (i * (1 # 2)) <= py_int (i * (3 # 2)))
    by (apply py_int_monotone; lra).
  assert (B2 : py_int (i * (3 # 2)) <= py_int (i * 2))
    by (apply py_int_monotone; lra).
  assert (B3 : py_int (i * 2) <= py_int 160) by (apply py_int_monotone; lra).
  change (py_int 160) with 160 in B3. lia.
Qed.

Lemma Qlt_bool_true (a b : Q) : Qlt_bool a b = true -> (a < b)%Q.
Proof.
  unfold Qlt_bool. intros E. apply negb_true_iff in E.
  apply Qnot_le_lt. intros Hle. apply Qle_bool_iff in Hle. congruence.
Qed.

Lemma foldl_preserves {A B} (P : B -> Prop) (f : B -> A -> B) (xs : list A) (b : B) :
  (forall b x, x ∈ xs -> P b -> P (f b x)) -> P b -> P (foldl f b xs).
Proof.
  revert b. induction xs as [|x xs IH]; intros b Hf Hb; cbn; [exact Hb|].
  apply IH.
  - intros b' x' Hin. apply Hf. apply elem_of_cons. by right.
  - apply Hf; [apply elem_of_cons; by left|exact Hb].
Qed.

Section WithNumpy.
Context `{Numpy}.

(** What is used of [np.sqrt]: it is not negative. *)
Hypothesis sqrt_nonneg : forall q : Q, (0 <= q)%Q -> (0 <= np_sqrt q)%Q.

Lemma light_colour_lit (brightness : Z) (dist : Q) :
  0 < brightness <= 80 -> (0 <= dist)%Q -> (dist < 5)%Q ->
  lit_or_dark (light_colour (inject_Z brightness * (1 - dist / 5))).
Proof.
  intros Hb H0 H5. right. exists (inject_Z brightness * (1 - dist / 5))%Q.
  assert (B : (0 < inject_Z brightness)%Q) by (rewrite <- (Zlt_Qlt 0); lia).
  assert (B' : (inject_Z brightness <= 80)%Q) by (rewrite <- (Zle_Qle _ 80); lia).
  assert (F0 : (0 < 1 - dist / 5)%Q)
    by (change (dist / 5)%Q with (dist * (1 # 5))%Q; lra).
  assert (F1 : (1 - dist / 5 <= 1)%Q)
    by (change (dist / 5)%Q with (dist * (1 # 5))%Q; lra).
  assert (I0 : (0 < inject_Z brightness * (1 - dist / 5))%Q)
    by (apply Qmult_lt_0_compat; assumption).
  assert (I1 : (inject_Z brightness * (1 - dist / 5) <= 80)%Q).
  { eapply Qle_trans; [|exact B'].
    rewrite <- (Qmult_1_r (inject_Z brightness)) at 2.
    apply Qmult_le_l; assumption. }
  split; [exact I0|]. split; [exact I1|].
  unfold light_colour. rewrite !astype_uint8_in_range; [reflexivity|..]; lra.
Qed.

Lemma city_light_lit (width height y x brightness : Z) (night : raster rgb) (dy dx : Z) :
  0 < brightness <= 80 ->
  (forall at_, lit_or_dark (night at_)) ->
  forall at_, lit_or_dark (city_light width height y x brightness night dy dx at_).
Proof.
  intros Hb Hn at_. unfold city_light.
  destruct (_ && _); [|apply Hn].
  destruct (Qlt_bool _ 5) eqn:Hd; [|apply Hn].
  unfold set_pixel. destruct (decide (at_ = (y + dy, x + dx))); [|apply Hn].
  apply light_colour_lit; [exact Hb| |by apply Qlt_bool_true].
  apply sqrt_nonneg. rewrite <- (Zle_Qle 0). nia.
Qed.

(** X14.  The night texture that [create_earth_textures] makes when none
    could be downloaded assigns unclipped floats to a [uint8] array, and
    still no channel overflows: every pixel is either dark or holds the three
    products of an intensity between 0 and 80 (the brightness of the
    brightest city), truncated but not wrapped around; so red is at most 160
    and, in every pixel, blue <= green <= red. *)
Theorem night_lights_never_overflow (at_ : Z * Z) :
  lit_or_dark (night_lights at_)
  /\ 0 <= (night_lights at_).2
  /\ (night_lights at_).2 <= (night_lights at_).1.2
  /\ (night_lights at_).1.2 <= (night_lights at_).1.1
  /\ (night_lights at_).1.1 <= 160.
Proof.
  assert (L : forall at', lit_or_dark (night_lights at')).
  { unfold night_lights.
    apply (foldl_preserves (fun img : raster rgb => forall at', lit_or_dark (img at'))).
    - intros night city Hcity Hn. unfold city_lights.
      assert (Hb : 0 < city.2 <= 80).
      { unfold cities in Hcity.
        repeat (apply elem_of_cons in Hcity as [->|Hcity]; [cbn; lia|]).
        by apply elem_of_nil in Hcity. }
      apply (foldl_preserves (fun img : raster rgb => forall at', lit_or_dark (img at')));
        [|exact Hn].
      intros img dy _ Himg.
      apply (foldl_preserves (fun img : raster rgb => forall at', lit_or_dark (img at')));
        [|exact Himg].
      intros img' dx _ Himg'. by apply city_light_lit.
    - intros at'. by left. }
  split; [apply L|]. apply lit_or_dark_bounds, L.
Qed.

End WithNumpy.

Lemma night_lights_never_overflow_witness :
  (@night_lights Examples.tape_numpy (358, 410)).1.1 <= 160.
Proof.
  destruct (@night_lights_never_overflow Examples.tape_numpy) with (at_ := (358, 410))
    as (_ & _ & _ & _ & Hr).
  - intros q Hq. exact Hq.
  - exact Hr.
Defined.

End CreateEarthTexturesNightFacts.
(* ===================================================================== *)
(** * Facts: pacing of the API requests of fetch_world_parks_data.py      *)
(* ===================================================================== *)

Module FetchWorldParksPacing.
Import Json Sqlite Ingest IngestFacts Frames IngestFrames FetchWorldParks
  FetchWorldParksFacts.

Definition assets_url : string := "https://api.nasa.gov/planetary/earth/assets".
Definition imagery_url : string := "https://api.nasa.gov/planetary/earth/imagery".

(** The two requests of one validation: the assets lookup and the imagery
    request that follows it. *)
Definition nasa_pair (c1 c2 : call) : Prop :=
  call_provider c1 = Nasa /\ call_url c1 = assets_url
  /\ call_provider c2 = Nasa /\ call_url c2 = imagery_url
  /\ call_time c1 <= call_time c2.

(** Any request and the next one are at least [d] apart, unless they are
    the two requests of one validation. *)
Definition spaced_but_for_nasa (d : Z) (cs : list call) : Prop :=
  forall (i : nat) (c1 c2 : call),
    cs !! i = Some c1 -> cs !! S i = Some c2 ->
    call_time c1 + d <= call_time c2 \/ nasa_pair c1 c2.

Definition rested (d : Z) (w : world) : Prop :=
  Forall (fun c => call_time c + d <= clock w) (api (calls w)).

Definition paced_but_for_nasa (d : Z) (w : world) : Prop :=
  spaced_but_for_nasa d (api (calls w)) /\ rested d w.

Lemma api_snoc (cs : list call) (p : provider) (url : string) (t : Z) :
  p <> ImageHost -> api (cs ++ [Call p url t]) = api cs ++ [Call p url t].
Proof.
  intros Hp. unfold api. rewrite filter_app.
  by rewrite (filter_cons_True _ (Call p url t) []).
Qed.

Lemma spaced_but_for_nasa_snoc (d : Z) (cs : list call) (c : call) :
  spaced_but_for_nasa d cs ->
  (forall c', last cs = Some c' -> call_time c' + d <= call_time c \/ nasa_pair c' c) ->
  spaced_but_for_nasa d (cs ++ [c]).
Proof.
  intros Hs Hlast i c1 c2 H1 H2.
  apply lookup_snoc_Some in H2 as [[Hj H2]|[Hj <-]].
  - apply lookup_snoc_Some in H1 as [[Hi H1]|[-> _]]; [|lia]. by eapply Hs.
  - apply lookup_snoc_Some in H1 as [[Hi H1]|[-> _]]; [|lia].
    apply Hlast. rewrite last_lookup. rewrite <- Hj. exact H1.
Qed.

Lemma pair_paced_quiet (d : Z) (w w' : world) :
  paced_but_for_nasa d w -> quiet w w' -> paced_but_for_nasa d w'.
Proof.
  intros [Hs Hr] [Ha Hc]. split; [by rewrite Ha|].
  unfold rested in *. rewrite Ha. eapply Forall_impl; [exact Hr|]. cbn. intros c Hle. lia.
Qed.

Lemma rested_last (d : Z) (w : world) (c' : call) :
  rested d w -> last (api (calls w)) = Some c' -> call_time c' + d <= clock w.
Proof.
  intros Hr Hl. unfold rested in Hr. rewrite Forall_forall in Hr. apply Hr.
  rewrite last_lookup in Hl. by eapply list_elem_of_lookup_2.
Qed.

(** One request, then the pause. *)
Lemma pair_paced_request_then_pause (d : Z) (w w1 w2 : world) (c : call) :
  0 <= d ->
  paced_but_for_nasa d w ->
  api (calls w1) = api (calls w) ++ [c] -> call_time c = clock w -> clock w <= clock w1 ->
  api (calls w2) = api (calls w1) -> clock w1 + d <= clock w2 ->
  paced_but_for_nasa d w2.
Proof.
  intros Hd [Hs Hr] A1 Hc T1 A2 T2. split.
  - rewrite A2, A1. apply spaced_but_for_nasa_snoc; [exact Hs|].
    intros c' Hl. left. rewrite Hc. by eapply rested_last.
  - unfold rested in *. rewrite A2, A1. apply Forall_app. split.
    + eapply Forall_impl; [exact Hr|]. cbn. intros c' Hle. lia.
    + constructor; [lia|constructor].
Qed.

(** The two requests of a validation, then the pause. *)
Lemma paced_pair_then_pause (d : Z) (w w1 w2 : world) (t : Z) :
  0 <= d ->
  paced_but_for_nasa d w ->
  api (calls w1) = api (calls w) ++ [Call Nasa assets_url (clock w); Call Nasa imagery_url t] ->
  clock w <= t -> t <= clock w1 ->
  api (calls w2) = api (calls w1) -> clock w1 + d <= clock w2 ->
  paced_but_for_nasa d w2.
Proof.
  intros Hd [Hs Hr] A1 T0 T1 A2 T2. split.
  - rewrite A2, A1.
    change [Call Nasa assets_url (clock w); Call Nasa imagery_url t]
      with ([Call Nasa assets_url (clock w)] ++ [Call Nasa imagery_url t]).
    rewrite app_assoc. apply spaced_but_for_nasa_snoc.
    + apply spaced_but_for_nasa_snoc; [exact Hs|]. intros c' Hl. left. cbn. by eapply rested_last.
    + intros c' Hl. rewrite last_snoc in Hl. inversion Hl; subst c'. right.
      unfold nasa_pair. cbn. auto.
  - unfold rested in *. rewrite A2, A1. apply Forall_app. split.
    + eapply Forall_impl; [exact Hr|]. cbn. intros c' Hle. lia.
    + constructor; [cbn; lia|]. constructor; [cbn; lia|constructor].
Qed.

Section WithLib.
Context `{Lib}.

(** The requests of one validation. *)
Lemma validate_requests (lat lon : Q) (w : world) :
  clock w <= clock (validate_location_with_nasa lat lon w).2
  /\ (api (calls (validate_location_with_nasa lat lon w).2)
      = api (calls w) ++ [Call Nasa assets_url (clock w)]
      \/ exists t,
           clock w <= t /\ t <= clock (validate_location_with_nasa lat lon w).2
           /\ api (calls (validate_location_with_nasa lat lon w).2)
              = api (calls w) ++ [Call Nasa assets_url (clock w);
                                  Call Nasa imagery_url t]).
Proof.
  destruct (validate_location_with_nasa lat lon w) as [r w'] eqn:E. cbn [snd].
  unfold validate_location_with_nasa in E.
  assert (One : forall w1, calls w1 = calls w ++ [Call Nasa assets_url (clock w)] ->
                  api (calls w1) = api (calls w) ++ [Call Nasa assets_url (clock w)]).
  { intros w1 ->. by apply api_snoc. }
  assert (Two : forall w1 w2 t,
                  calls w1 = calls w ++ [Call Nasa assets_url (clock w)] ->
                  calls w2 = calls w1 ++ [Call Nasa imagery_url t] ->
                  api (calls w2) = api (calls w) ++ [Call Nasa assets_url (clock w);
                                                    Call Nasa imagery_url t]).
  { intros w1 w2 t C1 C2. rewrite C2, api_snoc, (One w1 C1), <- app_assoc by done.
    reflexivity. }
  (* the steps after a request that send nothing *)
  assert (Pure : forall {A} (m : py world A) w1 r1 w2,
                   steps quiet m -> m w1 = (r1, w2) ->
                   calls w2 = calls w1 -> True) by auto.
  clear Pure.
  destruct (requests_get_log Nasa assets_url w) as (C1 & T1 & _).
  apply try_inv in E as [(a & E & _)|(e & w0 & E & [= _ <-])].
  - apply bind_inv in E as [(e & _ & [=])|(found & w1 & L & E)].
    unfold nasa_image_lookup in L.
    apply bind_inv in L as [(e & _ & [=])|(response & v1 & R1 & L)].
    fold assets_url in R1. rewrite R1 in C1, T1. cbn [snd] in C1, T1.
    destruct (status_code response =? 200).
    2:{ inversion L; subst found w1; clear L.
        apply bind_inv in E as [(e & [=] & _)|([] & v2 & [= <-] & E)].
        inversion E; subst. cbn. split; [exact T1|]. left. by apply One. }
    apply bind_inv in L as [(e & _ & [=])|(data & v2 & J & L)].
    apply lift_opt_inv in J as [-> _].
    apply bind_inv in L as [(e & _ & [=])|(count & v2 & J & L)].
    apply lift_inv in J as [-> _].
    apply bind_inv in L as [(e & _ & [=])|(positive & v2 & J & L)].
    apply lift_inv in J as [-> _].
    destruct positive.
    2:{ inversion L; subst found w1; clear L.
        apply bind_inv in E as [(e & [=] & _)|([] & v2 & [= <-] & E)].
        inversion E; subst. cbn. split; [exact T1|]. left. by apply One. }
    apply bind_inv in L as [(e & _ & [=])|(image & v2 & R2 & L)].
    destruct (requests_get_log Nasa imagery_url v1) as (C2 & T2 & _).
    fold imagery_url in R2. rewrite R2 in C2, T2. cbn [snd] in C2, T2.
    assert (Q' : quiet v2 w').
    { destruct (_ && _).
      - apply bind_inv in L as [(e & [=] & _)|([] & v3 & [= <-] & L)].
        unfold save_nasa_image in L.
        apply bind_inv in L as [(e & _ & [=])|(path & v4 & S & L)].
        apply bind_inv in S as [(e & [=] & _)|([] & v5 & [= <-] & S)].
        inversion S; subst. inversion L; subst. inversion E; subst.
        by apply quiet_same.
      - inversion L; subst found w1; clear L.
        apply bind_inv in E as [(e & [=] & _)|([] & v3 & [= <-] & E)].
        inversion E; subst. by apply quiet_same. }
    destruct Q' as [A' T']. split; [lia|]. right. exists (clock v1).
    split; [exact T1|]. split; [lia|]. rewrite A'. by apply (Two v1).
  - (* an exception somewhere in the lookup *)
    apply bind_inv in E as [(e' & L & _)|(found & w1 & L & E)].
    + unfold nasa_image_lookup in L.
      apply bind_inv in L as [(e2 & R1 & _)|(response & v1 & R1 & L)].
      * fold assets_url in R1. rewrite R1 in C1, T1. cbn [snd] in C1, T1.
        split; [exact T1|]. left. by apply One.
      * fold assets_url in R1. rewrite R1 in C1, T1. cbn [snd] in C1, T1.
        destruct (status_code response =? 200); [|discriminate].
        apply bind_inv in L as [(e2 & J & _)|(data & v2 & J & L)].
        { apply lift_opt_inv in J as [-> _]. split; [exact T1|]. left. by apply One. }
        apply lift_opt_inv in J as [-> _].
        apply bind_inv in L as [(e2 & J & _)|(count & v2 & J & L)].
        { apply lift_inv in J as [-> _]. split; [exact T1|]. left. by apply One. }
        apply lift_inv in J as [-> _].
        apply bind_inv in L as [(e2 & J & _)|(positive & v2 & J & L)].
        { apply lift_inv in J as [-> _]. split; [exact T1|]. left. by apply One. }
        apply lift_inv in J as [-> _].
        destruct positive; [|discriminate].
        destruct (requests_get_log Nasa imagery_url v1) as (C2 & T2 & _).
        apply bind_inv in L as [(e2 & R2 & _)|(image & v2 & R2 & L)].
        { fold imagery_url in R2. rewrite R2 in C2, T2. cbn [snd] in C2, T2.
          split; [lia|]. right. exists (clock v1). split; [exact T1|].
          split; [exact T2|]. by apply (Two v1). }
        fold imagery_url in R2. rewrite R2 in C2, T2. cbn [snd] in C2, T2.
        destruct (_ && _); [|discriminate].
        apply bind_inv in L as [(e2 & [=] & _)|([] & v3 & [= <-] & L)].
        unfold save_nasa_image in L.
        apply bind_inv in L as [(e2 & S & _)|(path & v4 & S & [=])].
        apply bind_inv in S as [(e3 & [=] & _)|([] & v5 & [= <-] & [=])].
    + destruct found as [path|]; [discriminate|].
      apply bind_inv in E as [(e2 & [=] & _)|([] & v3 & [= <-] & [=])].
Qed.

Lemma fetch_nps_images_request (park_code : string) (w : world) :
  api (calls (fetch_nps_images park_code w).2)
  = api (calls w) ++ [Call Nps "https://developer.nps.gov/api/v1/parks" (clock w)]
  /\ clock w <= clock (fetch_nps_images park_code w).2.
Proof. apply one_api_request; [discriminate| |]; intros ?; quiet_frame. Qed.

Lemma world_unsplash_photos_request (park_name country : string) (count : Z) (w : world) :
  api (calls (fetch_unsplash_photos park_name country count w).2)
  = api (calls w) ++ [Call Unsplash "https://api.unsplash.com/search/photos" (clock w)]
  /\ clock w <= clock (fetch_unsplash_photos park_name country count w).2.
Proof. apply one_api_request; [discriminate| |]; intros ?; quiet_frame. Qed.

Lemma quiet_world_save_park_data p nps_images unsplash_photos nasa_validated satellite_url :
  steps quiet (save_park_data p nps_images unsplash_photos nasa_validated satellite_url).
Proof.
  unfold save_park_data, save_nps_image, save_unsplash_photo, save_satellite,
    generate_blur_hash, execute, commit.
  quiet_frame.
Qed.

Lemma world_process_park_paced (p : park) (w : world) :
  paced_but_for_nasa (1000 * RATE_LIMIT_DELAY) w ->
  paced_but_for_nasa (1000 * RATE_LIMIT_DELAY) (process_park p w).2.
Proof.
  intros Hw. unfold process_park, bind.
  destruct (validate_requests (latitude p) (longitude p) w) as [T1 A1].
  destruct (validate_location_with_nasa_never_raises (latitude p) (longitude p) w)
    as [validated E1].
  destruct (validate_location_with_nasa (latitude p) (longitude p) w) as [r1 w1];
    cbn [fst snd] in *. subst r1. cbn [sleep modify].
  assert (P2 : paced_but_for_nasa (1000 * RATE_LIMIT_DELAY)
                 (advance (1000 * RATE_LIMIT_DELAY) w1)).
  { destruct A1 as [A1|(t & T0 & T1' & A1)].
    - eapply (pair_paced_request_then_pause _ w w1); eauto; cbn; unfold RATE_LIMIT_DELAY; lia.
    - eapply (paced_pair_then_pause _ w w1); eauto; cbn; unfold RATE_LIMIT_DELAY; lia. }
  set (w2 := advance (1000 * RATE_LIMIT_DELAY) w1) in *.
  assert (P3 : exists nps_images w3,
             (if String.eqb (country p) "United States"
              then (imgs <- fetch_nps_images (nps_code_of (code p)) ;;
                    sleep RATE_LIMIT_DELAY ;;; ret imgs)%py
              else ret []) w2 = (inr nps_images, w3)
             /\ paced_but_for_nasa (1000 * RATE_LIMIT_DELAY) w3).
  { destruct (String.eqb (country p) "United States").
    - unfold bind.
      destruct (fetch_nps_images_request (nps_code_of (code p)) w2) as [A3 T3].
      destruct (fetch_nps_images_never_raises (nps_code_of (code p)) w2) as [imgs E3].
      destruct (fetch_nps_images (nps_code_of (code p)) w2) as [r3 w3];
        cbn [fst snd] in *. subst r3. cbn [sleep modify ret].
      eexists _, _. split; [reflexivity|].
      eapply (pair_paced_request_then_pause _ w2 w3); eauto; cbn; unfold RATE_LIMIT_DELAY; lia.
    - eexists _, _. split; [reflexivity|exact P2]. }
  destruct P3 as (nps_images & w3 & E3 & P3).
  unfold bind in E3. cbn [sleep modify] in E3. rewrite E3. clear E3.
  destruct (world_unsplash_photos_request (name p) (country p)
              (Z.max 1 (5 - Z.of_nat (length nps_images))) w3) as [A5 T5].
  destruct (world_unsplash_photos_never_raises (name p) (country p)
              (Z.max 1 (5 - Z.of_nat (length nps_images))) w3) as [photos E5].
  destruct (fetch_unsplash_photos (name p) (country p) _ w3) as [r5 w5];
    cbn [fst snd] in *. subst r5.
  assert (P6 : paced_but_for_nasa (1000 * RATE_LIMIT_DELAY)
                 (advance (1000 * RATE_LIMIT_DELAY) w5)).
  { eapply (pair_paced_request_then_pause _ w3 w5); eauto; cbn; unfold RATE_LIMIT_DELAY; lia. }
  eapply pair_paced_quiet; [exact P6|]. apply quiet_world_save_park_data.
Qed.

(** X18.  Pacing of [fetch_all_parks_data].  If, when the run starts, every
    API request logged so far is at least 2 seconds old and each was at least
    2 seconds after the one before it (but for pairs of NASA requests of one
    validation), then this is still so when the run ends, however it ends:
    an API request and the next one are at least [RATE_LIMIT_DELAY] apart in
    every case but one, the assets lookup of a validation and the imagery
    request that follows it at once. *)
Theorem only_the_nasa_pair_is_not_paced (all_parks : list park) (limit : option Z)
    (w : world) :
  paced_but_for_nasa (1000 * RATE_LIMIT_DELAY) w ->
  paced_but_for_nasa (1000 * RATE_LIMIT_DELAY) (fetch_all_parks_data all_parks limit w).2.
Proof.
  intros Hw. unfold fetch_all_parks_data.
  apply for_each_preserves; [|exact Hw]. intros p w0. apply world_process_park_paced.
Qed.

End WithLib.

Lemma only_the_nasa_pair_is_not_paced_witness :
  paced_but_for_nasa (1000 * RATE_LIMIT_DELAY)
    (@fetch_all_parks_data Examples.toy_lib [Examples.serengeti] None
       (Examples.fresh [Examples.nasa_one_asset; Examples.nasa_image;
                        Examples.unsplash_one_photo])).2.
Proof.
  apply (@only_the_nasa_pair_is_not_paced Examples.toy_lib [Examples.serengeti] None
           (Examples.fresh [Examples.nasa_one_asset; Examples.nasa_image;
                            Examples.unsplash_one_photo])).
  split.
  - intros i c1 c2 H1. cbn in H1. by rewrite lookup_nil in H1.
  - constructor.
Defined.

End FetchWorldParksPacing.
